(** * eisenscript_to_xml: the EisenScript to eisenxml translator

    A shallow embedding of [eisenscript_to_xml.py]: the transform
    normaliser [trans_str], the pyparsing grammar [eisen_grammar], the
    rule-graph builder [es_call] / [es_xml2] working on an ElementTree,
    and the drivers [translate_eisen], [test_examples] and the main block
    working on a file system.

    The pyparsing combinators are embedded with the behaviour of the
    pyparsing 2.0 series the script was written for: every token first
    skips the ignorable expressions and white space, [MatchFirst] ([|])
    is ordered choice, results names accumulate upwards until a [Group]
    closes them off, and [parseFile] parses a prefix of the text
    ([parseAll] is left at its default, [False]). *)

From Stdlib Require Import String Ascii List Arith Bool Lia.
From Stdlib Require Import DecimalString DecimalNat.
Import ListNotations.
Open Scope string_scope.

Set Implicit Arguments.
Set Warnings "-register-all".

(** ** Python strings *)

Module Py.

(** [str.isspace] on the ASCII range. *)
Definition isspace (c : ascii) : bool :=
  let k := nat_of_ascii c in
  (((9 <=? k) && (k <=? 13)) || ((28 <=? k) && (k <=? 32)))%nat.

Fixpoint lstrip (s : string) : string :=
  match s with
  | EmptyString => EmptyString
  | String c r => if isspace c then lstrip r else s
  end.

Fixpoint rstrip (s : string) : string :=
  match s with
  | EmptyString => EmptyString
  | String c r =>
      match rstrip r with
      | EmptyString => if isspace c then EmptyString else String c EmptyString
      | r' => String c r'
      end
  end.

(** [s.strip()] *)
Definition strip (s : string) : string := rstrip (lstrip s).

(** [sep.join(l)] *)
Definition join (sep : string) (l : list string) : string := String.concat sep l.

(** Truth value of a string: [if s:] *)
Definition truthy (s : string) : bool :=
  match s with EmptyString => false | _ => true end.

(** [x in (a, b, ...)] for strings *)
Definition str_in (x : string) (l : list string) : bool :=
  existsb (String.eqb x) l.

(** [str(k)] for a non-negative integer *)
Definition str_of_nat (k : nat) : string :=
  NilEmpty.string_of_uint (Nat.to_uint k).

(** [s.zfill(w)]: the zero padding of the format specification [0w] *)
Fixpoint zeros (k : nat) : string :=
  match k with 0 => EmptyString | S k' => String "0" (zeros k') end.

Definition zfill (w : nat) (s : string) : string :=
  zeros (w - String.length s) ++ s.

(** ['{:02d}'.format(k)] *)
Definition format_02d (k : nat) : string := zfill 2 (str_of_nat k).

(** [c in s] *)
Fixpoint contains (c : ascii) (s : string) : bool :=
  match s with
  | EmptyString => false
  | String d r => Ascii.eqb c d || contains c r
  end.

Definition double_quote : ascii := ascii_of_nat 34.

Definition hex_digit (k : nat) : ascii :=
  nth k (list_ascii_of_string "0123456789abcdef") "0"%char.

(** [repr(s)] of a string, on the ASCII range: the quote is the single
    quote unless the string has one and has no double quote; the quote and
    the backslash are escaped, and so are the characters that do not
    print. *)
Definition repr_char (quote c : ascii) : string :=
  let k := nat_of_ascii c in
  if Ascii.eqb c "\" then "\\"
  else if Ascii.eqb c quote then String "\" (String c EmptyString)
  else if Ascii.eqb c "010" then "\n"
  else if Ascii.eqb c "013" then "\r"
  else if Ascii.eqb c "009" then "\t"
  else if ((k <? 32) || (127 <=? k))%nat
       then "\x" ++ String (hex_digit (k / 16))
                           (String (hex_digit (k mod 16)) EmptyString)
       else String c EmptyString.

Fixpoint repr_body (quote : ascii) (s : string) : string :=
  match s with
  | EmptyString => EmptyString
  | String c r => repr_char quote c ++ repr_body quote r
  end.

Definition repr (s : string) : string :=
  let quote := if contains "'" s && negb (contains double_quote s)
               then double_quote else "'"%char in
  String quote (repr_body quote s ++ String quote EmptyString).

(** [str(l)] of a list of strings, and of a [ParseResults] of strings. *)
Definition str_list (l : list string) : string :=
  "[" ++ join ", " (map repr l) ++ "]".

End Py.

(** ** Parse results

    pyparsing hands back [ParseResults] objects whose named parts are read
    as attributes; a name that was never set reads as the empty string.
    Each record below lists the names the translator reads at one level of
    the tree, an absent string being [""] and an absent list [[]].

    A name set with [listAllMatches] reads as the list of all its matches
    inside the enclosing [Group]. What [shape_call] and [rule_call] keep
    under [bcall] and [rcall] is a copy of the call's own results with their
    names, so every element of [p.bcall] and [p.rcall] has the [loop]s of
    that call alone. A [Group] closes its names off: [trans] and [count]
    are names inside a loop group, never names of a call. *)

(** One [gtrans] group: [Group(tid + tvalues)]. *)
Record Trans : Type := mkTrans {
  tid : string;
  tvalues : list string
}.

(** [len(t)] of a [gtrans] group: its tokens are the identifier followed by
    the values. *)
Definition len_trans (t : Trans) : nat := S (length (tvalues t)).

(** The results of a call, and of a loop group inside it: both are looked
    up under the names [loop], [trans], [count], [shape], [rule_name]. *)
Inductive ParseResults : Type := mkResults {
  loop : list ParseResults;
  trans : list Trans;
  count : string;
  shape : string;
  rule_name : list string
}.

(** The results of a rule group (and of the entry group, which only has
    [bcall] and [rcall]). The modifiers of a rule are read by an [Each],
    which can match a modifier twice: [wm], [md] and [successor_rule] are
    the tokens set under the name, in their order. *)
Record RuleResults : Type := mkRule {
  name : list string;
  wm : list string;
  md : list string;
  successor_rule : list string;
  bcall : list ParseResults;
  rcall : list ParseResults
}.

(** What [p.wm] and [p.md] read as: the empty string when the name was not
    set and the token when it was set once; when [Each] has set it more
    than once, it is the [ParseResults] of the tokens, which is true and
    which ElementTree writes as its [str]. An attribute is kept as the text
    ElementTree writes for its value. *)
Definition named_truthy (tokens : list string) : bool :=
  match tokens with
  | [] => false
  | [v] => Py.truthy v
  | _ :: _ :: _ => true
  end.

Definition named_str (tokens : list string) : string :=
  match tokens with
  | [] => EmptyString
  | [v] => v
  | _ :: _ :: _ => Py.str_list tokens
  end.

(** The results of [file_def]. *)
Record FileResults : Type := mkFile {
  global_md : string;
  entry_calls : list RuleResults;
  rule_defs : list (list RuleResults)
}.

(** ** Exceptions *)

Inductive PyError : Type :=
  | IndexError        (* [x[0]] on an empty sequence or string *)
  | ParseException    (* raised by pyparsing *)
  | IOError           (* [IOError], that is [OSError]: a file that cannot be
                         read or written, a directory that cannot be made *)
  | DanglingRef.      (* a reference that is not in the tree: never raised
                         by the builder, see [es_xml2_total] *)

Inductive Exc (A : Type) : Type :=
  | Return (a : A)
  | Raise (e : PyError).
Arguments Raise {A} e.

(** ** pyparsing

    A parser takes the text from the current location on and either fails
    ([None], a [ParseException]) or returns its result with the text that
    is left. *)

Module PP.

Definition Parser (A : Type) : Type := string -> option (A * string).

Definition pret {A : Type} (a : A) : Parser A := fun s => Some (a, s).

(** [And]: the parts in sequence *)
Definition pbind {A B : Type} (p : Parser A) (k : A -> Parser B) : Parser B :=
  fun s => match p s with
           | Some (a, r) => k a r
           | None => None
           end.

Declare Scope parser_scope.
Delimit Scope parser_scope with parser.
Notation "x <- p ;; k" := (pbind p (fun x => k))
  (at level 61, p at next level, right associativity) : parser_scope.
Notation "' pat <- p ;; k" := (pbind p (fun x => match x with pat => k end))
  (at level 61, pat pattern, p at next level, right associativity) : parser_scope.
Notation "p ;;; k" := (pbind p (fun _ => k))
  (at level 61, right associativity) : parser_scope.
Local Open Scope parser_scope.

(** [MatchFirst], written [p | q] *)
Definition MatchFirst {A : Type} (p q : Parser A) : Parser A :=
  fun s => match p s with
           | Some x => Some x
           | None => q s
           end.

(** [Optional(p)]; [dflt] is what the names of [p] read as when it is absent *)
Definition Optional {A : Type} (p : Parser A) (dflt : A) : Parser A :=
  MatchFirst p (pret dflt).

(** [NotAny(p)]: succeeds without moving when [p] does not match here *)
Definition NotAny {A : Type} (p : Parser A) : Parser unit :=
  fun s => match p s with
           | Some _ => None
           | None => Some (tt, s)
           end.

(** The loop of [ZeroOrMore]: it ends at the first failure of [p]. Every
    repeated expression of the grammar consumes a character when it
    matches, so [String.length s] rounds are enough (see [many_fuel]). *)
Fixpoint many {A : Type} (p : Parser A) (fuel : nat) (s : string) : list A * string :=
  match fuel with
  | 0 => ([], s)
  | S fuel' =>
      match p s with
      | Some (a, r) => let (l, r') := many p fuel' r in (a :: l, r')
      | None => ([], s)
      end
  end.

Definition ZeroOrMore {A : Type} (p : Parser A) : Parser (list A) :=
  fun s => Some (many p (String.length s) s).

Definition OneOrMore {A : Type} (p : Parser A) : Parser (list A) :=
  a <- p ;; l <- ZeroOrMore p ;; pret (a :: l).

(** [Each], written [p & q], of [Optional] expressions, as pyparsing 2.0
    has it. The loop of [Each.parseImpl] goes through [self.optionals],
    which holds the expressions inside the [Optional]s ([opt1]) and, after
    them, the [Optional]s themselves ([opt2]: they may return empty and are
    not among [opt1]). So an expression can match twice, once as itself
    and once inside its [Optional]. An expression of the loop is kept with
    a mark: [false] for one of [opt1], [true] for one of [opt2]. *)
Definition LoopExpr (A : Type) : Type := (bool * Parser (list A))%type.

(** One round of [while keepMatching]: each expression that is left is
    tried where the one before it stopped, and is taken out when it
    matches. The result is what matched, in order, the expressions that
    failed, and the location. *)
Fixpoint each_round {A : Type} (exprs : list (LoopExpr A)) (s : string)
  : list (list A) * list (LoopExpr A) * string :=
  match exprs with
  | [] => ([], [], s)
  | e :: rest =>
      match snd e s with
      | Some (a, r) =>
          let '(got, failed, r') := each_round rest r in (a :: got, failed, r')
      | None =>
          let '(got, failed, r') := each_round rest s in (got, e :: failed, r')
      end
  end.

(** The rounds: the loop ends with the round in which every expression
    that is left fails. Every other round takes an expression out, so
    there are at most [length exprs] rounds before that one. *)
Fixpoint each_rounds {A : Type} (fuel : nat) (exprs : list (LoopExpr A))
         (s : string) : list (list A) * list (LoopExpr A) * string :=
  match fuel with
  | 0 => ([], exprs, s)
  | S fuel' =>
      let '(got, failed, r) := each_round exprs s in
      if (length failed =? length exprs)%nat then (got, failed, r)
      else let '(got', remaining, r') := each_rounds fuel' failed r in
           ((got ++ got')%list, remaining, r')
  end.

(** The expressions in sequence. *)
Fixpoint in_order {A : Type} (ps : list (Parser (list A))) (s : string)
  : option (list (list A) * string) :=
  match ps with
  | [] => Some ([], s)
  | p :: rest =>
      match p s with
      | Some (a, r) =>
          match in_order rest r with
          | Some (l, r') => Some (a :: l, r')
          | None => None
          end
      | None => None
      end
  end.

(** [Optional(e1) & Optional(e2) & ...]. After the loop, the [Optional]s
    whose expression is still in [tmpOpt] are added to the match order;
    then the expressions are parsed in the match order, and their results
    are put together. *)
Definition Each_Optional {A : Type} (es : list (Parser (list A))) : Parser (list A) :=
  fun s =>
    let opt1 := map (fun e => (false, e)) es in
    let opt2 := map (fun e => (true, Optional e [])) es in
    let '(got, remaining, r) :=
      each_rounds (S (length (opt1 ++ opt2))) (opt1 ++ opt2)%list s in
    let unmatched :=
      map (fun e => Optional (snd e) []) (filter (fun e => negb (fst e)) remaining) in
    match in_order unmatched r with
    | Some (got', r') => Some (concat (got ++ got'), r')
    | None => None
    end.

(** *** Characters *)

Definition nums : string := "0123456789".
Definition alphas : string := "ABCDEFGHIJKLMNOPQRSTUVWXYZabcdefghijklmnopqrstuvwxyz".
Definition alphanums : string := alphas ++ nums.

(** [c in chars] *)
Fixpoint mem (c : ascii) (chars : string) : bool :=
  match chars with
  | EmptyString => false
  | String d r => Ascii.eqb c d || mem c r
  end.

(** [c.upper()] *)
Definition upper (c : ascii) : ascii :=
  let k := nat_of_ascii c in
  if ((97 <=? k) && (k <=? 122))%nat then ascii_of_nat (k - 32) else c.

Fixpoint upper_str (s : string) : string :=
  match s with
  | EmptyString => EmptyString
  | String c r => String (upper c) (upper_str r)
  end.

(** The default white space characters: space, newline, tab, return *)
Definition white (c : ascii) : bool := mem c (String " " (String "010" (String "009" (String "013" EmptyString)))).

Fixpoint skip_white (s : string) : string :=
  match s with
  | EmptyString => EmptyString
  | String c r => if white c then skip_white r else s
  end.

(** *** Tokens, at the current location (no skipping) *)

(** [s.startswith(m)], case-sensitive or not; the result is what follows. *)
Fixpoint starts (caseless : bool) (m s : string) : option string :=
  match m, s with
  | EmptyString, _ => Some s
  | String a m', String b s' =>
      if (if caseless then Ascii.eqb (upper a) (upper b) else Ascii.eqb a b)
      then starts caseless m' s' else None
  | String _ _, EmptyString => None
  end.

Definition Literal (m : string) : Parser string :=
  fun s => match starts false m s with
           | Some r => Some (m, r)
           | None => None
           end.

(** The result is the defining string, whatever the case in the text. *)
Definition CaselessLiteral (m : string) : Parser string :=
  fun s => match starts true m s with
           | Some r => Some (m, r)
           | None => None
           end.

(** Keyword characters: [alphanums + "_$"], compared in upper case *)
Definition identChars : string := upper_str (alphanums ++ "_$").

(** A caseless literal that is not followed by a keyword character
    ([CaselessKeyword.parseImpl] of pyparsing 2.0 looks at the character
    after the match only). *)
Definition CaselessKeyword (m : string) : Parser string :=
  fun s => match starts true m s with
           | Some r =>
               match r with
               | EmptyString => Some (m, r)
               | String c _ => if mem (upper c) identChars then None else Some (m, r)
               end
           | None => None
           end.

Fixpoint span (chars : string) (s : string) : string * string :=
  match s with
  | EmptyString => (EmptyString, EmptyString)
  | String c r =>
      if mem c chars then let (w, r') := span chars r in (String c w, r')
      else (EmptyString, s)
  end.

(** [Word(initChars, bodyChars)]: one character of [initChars], then as
    many of [bodyChars] as there are. *)
Definition Word (initChars bodyChars : string) : Parser string :=
  fun s => match s with
           | String c r =>
               if mem c initChars
               then let (w, r') := span bodyChars r in Some (String c w, r')
               else None
           | EmptyString => None
           end.

(** *** [oneOf] *)

(** [strs.split()] *)
Fixpoint split_aux (s : string) (cur : string) : list string :=
  match s with
  | EmptyString => match cur with EmptyString => [] | _ => [cur] end
  | String c r =>
      if Py.isspace c
      then match cur with EmptyString => split_aux r EmptyString | _ => cur :: split_aux r EmptyString end
      else split_aux r (cur ++ String c EmptyString)
  end.

Definition split (s : string) : list string := split_aux s EmptyString.

(** [oneOf] first reorders the symbols, so that a symbol is tried before
    any of its prefixes, and drops duplicates: for the symbol at [i] it
    looks for the first later symbol that is equal to it (deleted) or that
    starts with it (moved in front of it). *)
Inductive Hit : Type :=
  | Dup (rest : list string)
  | Masked (other : string) (rest : list string).

Fixpoint scan (cur : string) (rest : list string) : option Hit :=
  match rest with
  | [] => None
  | other :: tl =>
      if upper_str other =? upper_str cur then Some (Dup tl)
      else if String.prefix (upper_str cur) (upper_str other) then Some (Masked other tl)
      else match scan cur tl with
           | Some (Dup tl') => Some (Dup (other :: tl'))
           | Some (Masked o tl') => Some (Masked o (other :: tl'))
           | None => None
           end
  end.

Fixpoint reorder (fuel : nat) (symbols : list string) : list string :=
  match fuel with
  | 0 => symbols
  | S fuel' =>
      match symbols with
      | cur :: (_ :: _) as rest =>
          match scan cur rest with
          | Some (Dup rest') => reorder fuel' (cur :: rest')
          | Some (Masked other rest') => reorder fuel' (other :: cur :: rest')
          | None => cur :: reorder fuel' rest
          end
      | _ => symbols
      end
  end.

Fixpoint first_of (symbols : list string) : Parser string :=
  match symbols with
  | [] => fun _ => None
  | m :: rest => MatchFirst (CaselessLiteral m) (first_of rest)
  end.

(** [oneOf(symbols, caseless=True)] before white space is skipped *)
Definition oneOf_symbols (symbols : list string) : list string :=
  reorder (S (length symbols * length symbols)) symbols.

Definition oneOf_at (symbols : list string) : Parser string :=
  first_of (oneOf_symbols symbols).

(** *** What is skipped before a token *)

(** [cppStyleComment]: a block comment runs to the first [*/] ... *)
Fixpoint block_end (s : string) : option string :=
  match s with
  | String "*" (String "/" r) => Some r
  | String _ r => block_end r
  | EmptyString => None
  end.

(** ... and a line comment to the end of the line, or of the next line
    when the line ends in a backslash. *)
Fixpoint line_end (after_backslash : bool) (s : string) : string :=
  match s with
  | EmptyString => EmptyString
  | String c r =>
      if Ascii.eqb c "010"
      then if after_backslash then line_end false r else s
      else line_end (Ascii.eqb c "\") r
  end.

Definition cppStyleComment : Parser unit :=
  fun s => match s with
           | String "/" (String "*" r) =>
               match block_end r with
               | Some r' => Some (tt, r')
               | None => None
               end
           | String "/" (String "/" r) => Some (tt, line_end false r)
           | _ => None
           end.

(** [restOfLine]: everything up to the newline, which stays *)
Fixpoint restOfLine_end (s : string) : string :=
  match s with
  | EmptyString => EmptyString
  | String c r => if Ascii.eqb c "010" then s else restOfLine_end r
  end.

Definition restOfLine : Parser unit := fun s => Some (tt, restOfLine_end s).

Definition set_words : list string :=
  split ("seed maxobjects maxsize minsize background " ++
         "colorpool translation rotation pivot scale " ++
         "raytracer syncrandom").

(** [set_ignore]; its parts skip white space only. *)
Definition set_ignore : Parser unit :=
  fun s =>
    ((fun s => CaselessKeyword "set" (skip_white s)) ;;;
     (fun s => oneOf_at set_words (skip_white s)) ;;;
     restOfLine) s.

(** [preParse]: the ignorable expressions, each after white space, for as
    long as one of them matches, then white space. An ignorable expression
    consumes characters, so [String.length s] rounds are enough (see
    [skip_ignorables_fuel]). *)
Fixpoint skip_ignorables (fuel : nat) (s : string) : string :=
  match fuel with
  | 0 => s
  | S fuel' =>
      match cppStyleComment (skip_white s) with
      | Some (_, r) => skip_ignorables fuel' r
      | None =>
          match set_ignore s with
          | Some (_, r) => skip_ignorables fuel' r
          | None => s
          end
      end
  end.

Definition skip (s : string) : string :=
  skip_white (skip_ignorables (String.length s) s).

(** A token of [file_def]: [preParse], then the token. *)
Definition tok {A : Type} (p : Parser A) : Parser A := fun s => p (skip s).

Definition oneOf (strs : string) : Parser string := tok (oneOf_at (split strs)).

End PP.

(** ** eisen_grammar *)

Module eisen_grammar.
Import PP.
Local Open Scope parser_scope.

Definition fnum : Parser string :=
  tok (Word (".+-*/()" ++ nums) (".+-*/()" ++ nums)).

Definition tid : Parser string := oneOf "x y z s rx ry rz".
(* these are color transforms that we're ignoring *)
Definition cid : Parser string := oneOf "h hue sat b brightness a alpha m".

Definition tvalues : Parser (list string) := OneOrMore fnum.

(** A transform of a loop; only [gtrans] is kept, under the name [trans]. *)
Definition gtrans : Parser (option Trans) :=
  t <- tid ;; v <- tvalues ;; pret (Some (mkTrans t v)).
Definition ctrans : Parser (option Trans) :=
  cid ;;; tvalues ;;; pret None.
Definition c2trans : Parser (option Trans) :=
  tok (CaselessKeyword "color") ;;; tok (Word (alphanums ++ "#") (alphanums ++ "#")) ;;; pret None.
Definition c3trans : Parser (option Trans) :=
  tok (CaselessKeyword "blend") ;;; tok (Word (alphanums ++ "#") (alphanums ++ "#")) ;;;
  fnum ;;; pret None.
Definition trans : Parser (option Trans) :=
  MatchFirst gtrans (MatchFirst ctrans (MatchFirst c2trans c3trans)).

Definition rule_name : Parser string :=
  NotAny (tok (CaselessKeyword "rule")) ;;; tok (Word alphas (alphanums ++ "_")).

Definition loop_multiplier : Parser string :=
  c <- fnum ;; tok (Literal "*") ;;; pret c.

Fixpoint kept (l : list (option Trans)) : list Trans :=
  match l with
  | [] => []
  | Some t :: l' => t :: kept l'
  | None :: l' => kept l'
  end.

(** The group of a loop: its names are [count] and [trans]. *)
Definition loop : Parser ParseResults :=
  c <- Optional loop_multiplier "" ;;
  tok (Literal "{") ;;;
  ts <- ZeroOrMore trans ;;
  tok (Literal "}") ;;;
  pret (mkResults [] (kept ts) c "" []).

Definition md : Parser string := oneOf "md maxdepth".

(** [md_mod]: the names [md] and [successor_rule] *)
Definition md_mod : Parser (string * list string) :=
  md ;;; d <- fnum ;;
  s <- Optional (tok (Literal ">") ;;; r <- rule_name ;; pret [r]) [] ;;
  pret (d, s).

Definition weight : Parser string := oneOf "w weight".
(** [w_mod]: the name [wm] *)
Definition w_mod : Parser string := weight ;;; fnum.

Definition shape_words : list string := ["box"; "grid"; "sphere"; "line"].

(** [Combine]: the parts are adjacent, only the whole skips. *)
Definition shape : Parser string :=
  tok (w <- oneOf_at shape_words ;;
       x <- Optional (Word (alphas ++ ":") (alphas ++ ":")) "" ;;
       pret (w ++ x)).

Definition global_md : Parser string :=
  tok (CaselessKeyword "set") ;;; md ;;; fnum.

(** A call, with whether it is a [bcall] (else an [rcall]). *)
Definition shape_call : Parser (bool * ParseResults) :=
  l <- Optional (x <- loop ;; pret [x]) [] ;;
  s <- shape ;;
  pret (true, mkResults l [] "" s []).

Definition rule_call : Parser (bool * ParseResults) :=
  l <- ZeroOrMore loop ;;
  r <- rule_name ;;
  pret (false, mkResults l [] "" "" [r]).

Definition call : Parser (bool * ParseResults) :=
  MatchFirst shape_call rule_call.

(** What a modifier sets: [md] and [successor_rule], or [wm]. *)
Inductive Modifier : Type :=
  | Md (d : string) (succ : list string)
  | Wm (w : string).

(** [Optional(md_mod) & Optional(w_mod)] *)
Definition modifiers : Parser (list Modifier) :=
  Each_Optional
    [ ('(d, succ) <- md_mod ;; pret [Md d succ]);
      (w <- w_mod ;; pret [Wm w]) ].

(** The tokens under the names [md], [successor_rule] and [wm]. *)
Definition md_of (ms : list Modifier) : list string :=
  flat_map (fun m => match m with Md d _ => [d] | Wm _ => [] end) ms.
Definition successor_rule_of (ms : list Modifier) : list string :=
  flat_map (fun m => match m with Md _ succ => succ | Wm _ => [] end) ms.
Definition wm_of (ms : list Modifier) : list string :=
  flat_map (fun m => match m with Md _ _ => [] | Wm w => [w] end) ms.

(** The calls named [bcall], and those named [rcall], in their order. *)
Definition named (b : bool) (calls : list (bool * ParseResults)) : list ParseResults :=
  map snd (filter (fun c => Bool.eqb (fst c) b) calls).

Definition rule : Parser RuleResults :=
  tok (CaselessKeyword "rule") ;;;
  nm <- rule_name ;;
  ms <- modifiers ;;
  tok (Literal "{") ;;;
  calls <- OneOrMore call ;;
  tok (Literal "}") ;;;
  pret (mkRule [nm] (wm_of ms) (md_of ms) (successor_rule_of ms)
               (named true calls) (named false calls)).

Definition entry : Parser RuleResults :=
  calls <- OneOrMore call ;;
  pret (mkRule [] [] [] [] (named true calls) (named false calls)).

Definition main : Parser (list RuleResults) := OneOrMore rule.

Definition file_def : Parser FileResults :=
  g <- Optional global_md "" ;;
  e <- entry ;;
  m <- main ;;
  pret (mkFile g [e] [m]).

(** [file_def.parseString(text)]: the text need not be used up.
    ([parseString] first expands tabs into spaces; both are white space.) *)
Definition parseString (text : string) : Exc FileResults :=
  match file_def text with
  | Some (results, _) => Return results
  | None => Raise ParseException
  end.

End eisen_grammar.

(** ** trans_str *)

Definition set_tid (t : Trans) (v : string) : Trans := mkTrans v (tvalues t).

(** The two assignments to [t.tid] in the loop body, in order. *)
Definition retag (t : Trans) : Trans :=
  let t1 := if (tid t =? "s") && (len_trans t =? 2)%nat then set_tid t "sa" else t in
  if Py.str_in (tid t1) ["x"; "y"; "z"] then set_tid t1 ("t" ++ tid t1) else t1.

(** The [for] loop of [trans_str]: the accumulated [tstr]. *)
Fixpoint trans_str_loop (trans_list : list Trans) (tstr : string) : string :=
  match trans_list with
  | [] => tstr
  | t :: rest =>
      let t' := retag t in
      trans_str_loop rest
        (tstr ++ tid t' ++ " " ++ Py.join " " (tvalues t') ++ " ")
  end.

Definition trans_str (trans_list : list Trans) : string :=
  Py.strip (trans_str_loop trans_list "").

(** [trans_str] assigns to [t.tid] in place; this is the list of groups it
    leaves behind. *)
Definition trans_str_effect (trans_list : list Trans) : list Trans :=
  map retag trans_list.

(** ** ElementTree

    An [Element] has a tag, an attribute dictionary and a list of children.
    The builder keeps references to elements that are already attached to
    the tree ([entry], [rule], [call], [newrule], [newcall]) and changes them
    in place, so a reference is the path of child indices from the root:
    [[]] is [top], [[i]] its [i]-th rule, [[i; j]] that rule's [j]-th call. *)

Inductive Element : Type :=
  Elem (tag : string) (attrib : list (string * string)) (children : list Element).

Definition tag (e : Element) : string := let 'Elem t _ _ := e in t.
Definition attrib (e : Element) : list (string * string) := let 'Elem _ a _ := e in a.
Definition children (e : Element) : list Element := let 'Elem _ _ c := e in c.

(** [d[k] = v] on a dictionary kept in insertion order. *)
Fixpoint dict_set (d : list (string * string)) (k v : string) : list (string * string) :=
  match d with
  | [] => [(k, v)]
  | (k', v') :: d' => if k' =? k then (k, v) :: d' else (k', v') :: dict_set d' k v
  end.

Fixpoint dict_get (d : list (string * string)) (k : string) : option string :=
  match d with
  | [] => None
  | (k', v') :: d' => if k' =? k then Some v' else dict_get d' k
  end.

(** [e.set(k, v)] and [e.get(k)] *)
Definition elem_set (k v : string) (e : Element) : Element :=
  Elem (tag e) (dict_set (attrib e) k v) (children e).

Definition elem_get (e : Element) (k : string) : option string :=
  dict_get (attrib e) k.

(** [e.append(c)] *)
Definition elem_append (c : Element) (e : Element) : Element :=
  Elem (tag e) (attrib e) (children e ++ [c])%list.

(** [ET.Element(tag)] *)
Definition new_element (t : string) : Element := Elem t [] [].

Fixpoint update_nth {A : Type} (i : nat) (f : A -> A) (l : list A) : list A :=
  match l, i with
  | [], _ => []
  | x :: l', 0 => f x :: l'
  | x :: l', S i' => x :: update_nth i' f l'
  end.

Definition Ref : Type := list nat.

Fixpoint deref (e : Element) (r : Ref) : option Element :=
  match r with
  | [] => Some e
  | i :: r' =>
      match nth_error (children e) i with
      | Some c => deref c r'
      | None => None
      end
  end.

Fixpoint update_at (r : Ref) (f : Element -> Element) (e : Element) : Element :=
  match r with
  | [] => f e
  | i :: r' => Elem (tag e) (attrib e) (update_nth i (update_at r' f) (children e))
  end.

(** ** The builder's state and exceptions

    [es_call] receives [top] and the counter [n = itertools.count()] and
    changes both; [next(n)] returns the current value and advances it. *)

Record BuildState : Type := mkState {
  top : Element;
  n : nat
}.

Definition Build (A : Type) : Type := BuildState -> Exc (A * BuildState).

Definition ret {A : Type} (a : A) : Build A := fun s => Return (a, s).

Definition bind {A B : Type} (m : Build A) (k : A -> Build B) : Build B :=
  fun s => match m s with
           | Return (a, s') => k a s'
           | Raise e => Raise e
           end.

Definition raise {A : Type} (e : PyError) : Build A := fun _ => Raise e.

Declare Scope build_scope.
Delimit Scope build_scope with build.
Notation "x <- m ;; k" := (bind m (fun x => k))
  (at level 61, m at next level, right associativity) : build_scope.
Notation "' pat <- m ;; k" := (bind m (fun x => match x with pat => k end))
  (at level 61, pat pattern, m at next level, right associativity) : build_scope.
Notation "m ;;; k" := (bind m (fun _ => k))
  (at level 61, right associativity) : build_scope.
Open Scope build_scope.

(** [next(n)] *)
Definition next_n : Build nat :=
  fun s => Return (n s, mkState (top s) (S (n s))).

(** [ET.SubElement(parent, tag)]: a new empty element appended to the
    children of [parent]; the result is the reference to it. *)
Definition SubElement (parent : Ref) (t : string) : Build Ref :=
  fun s =>
    match deref (top s) parent with
    | Some p =>
        Return ((parent ++ [length (children p)])%list,
                mkState (update_at parent (elem_append (new_element t)) (top s)) (n s))
    | None => Raise DanglingRef
    end.

(** [e.set(k, v)] through a reference *)
Definition set (e : Ref) (k v : string) : Build unit :=
  fun s =>
    match deref (top s) e with
    | Some _ => Return (tt, mkState (update_at e (elem_set k v) (top s)) (n s))
    | None => Raise DanglingRef
    end.

(** [if c: m] *)
Definition when (c : bool) (m : Build unit) : Build unit :=
  if c then m else ret tt.

(** [for x in l: body(x)] *)
Fixpoint for_each {A : Type} (l : list A) (body : A -> Build unit) : Build unit :=
  match l with
  | [] => ret tt
  | x :: l' => body x ;;; for_each l' body
  end.

(** [l[0]] *)
Definition item0 {A : Type} (l : list A) : Build A :=
  match l with
  | x :: _ => ret x
  | [] => raise IndexError
  end.

(** ** es_call *)

Definition es_call (rule : Ref) (pcall : ParseResults) (is_bcall : bool) : Build unit :=
  '(call_type, atr_name, atr_value) <-
     (if is_bcall
      then ret ("instance", "shape", shape pcall)
      else v <- item0 (rule_name pcall) ;; ret ("call", "rule", v)) ;;
  call <- SubElement rule call_type ;;
  match loop pcall with
  | [] =>
      set call "transforms" (trans_str (trans pcall)) ;;;
      when (Py.truthy (count pcall)) (set call "count" (count pcall)) ;;;
      set call atr_name atr_value
  | [loop0] =>
      set call "transforms" (trans_str (trans loop0)) ;;;
      when (Py.truthy (count loop0)) (set call "count" (count loop0)) ;;;
      set call atr_name atr_value
  | loop0 :: loop1 :: _ =>
      (* call a sub rule *)
      k <- next_n ;;
      let newname := atr_value ++ "_" ++ Py.format_02d k in
      set call "transforms" (trans_str (trans loop0)) ;;;
      when (Py.truthy (count loop0)) (set call "count" (count loop0)) ;;;
      set call atr_name newname ;;;
      (* make up a whole new rule; rules are sub elements of top *)
      newrule <- SubElement [] "rule" ;;
      set newrule "name" newname ;;;
      newcall <- SubElement newrule "call" ;;
      set newcall "transforms" (trans_str (trans loop1)) ;;;
      when (Py.truthy (count loop1)) (set newcall "count" (count loop1)) ;;;
      (* call original rule *)
      set newcall atr_name atr_value
  end.

(** ** es_xml2 *)

Definition es_xml2_body (results : FileResults) : Build unit :=
  (if Py.truthy (global_md results)
   then set [] "max_depth" (global_md results)
   else set [] "max_depth" "1000") ;;;
  entry <- SubElement [] "rule" ;;
  set entry "name" "entry" ;;;
  for_each (entry_calls results) (fun p =>
    for_each (bcall p) (fun c => es_call entry c true) ;;;
    for_each (rcall p) (fun c => es_call entry c false)) ;;;
  defs <- item0 (rule_defs results) ;;
  for_each defs (fun p =>
    rule <- SubElement [] "rule" ;;
    nm <- item0 (name p) ;;
    set rule "name" nm ;;;
    when (named_truthy (wm p)) (set rule "weight" (named_str (wm p))) ;;;
    when (named_truthy (md p)) (set rule "max_depth" (named_str (md p))) ;;;
    match successor_rule p with
    | [] => ret tt
    | s :: _ => set rule "successor" s
    end ;;;
    for_each (bcall p) (fun c => es_call rule c true) ;;;
    for_each (rcall p) (fun c => es_call rule c false)).

(** [n = itertools.count()], [top = ET.Element('rules')], and the body. *)
Definition es_xml2 (results : FileResults) : Exc Element :=
  match es_xml2_body results (mkState (new_element "rules") 0) with
  | Return (_, s) => Return (top s)
  | Raise e => Raise e
  end.

(** ** translate_eisen

    The files the translator reads and writes. A state lists, by path, the
    directories that exist, the text of each file that can be read, and
    the paths at which the operating system lets no directory be made and
    no file be opened for writing for a reason the other two do not show
    (permissions, a read-only device). A path is the string the program
    uses for it: two strings are two paths, also where the operating
    system would take them for one ([d] and [d/]). *)

Record FileSystem : Type := mkFS {
  dirs : list string;
  files : list (string * string);
  refused : list string
}.

Module os_path.

(** [os.path.exists(p)] *)
Definition exists_ (fs : FileSystem) (p : string) : bool :=
  Py.str_in p (dirs fs) ||
  match dict_get (files fs) p with Some _ => true | None => false end.

(** [os.path.basename(p)]: what follows the last slash *)
Fixpoint basename (p : string) : string :=
  match p with
  | EmptyString => EmptyString
  | String c r =>
      if PP.mem "/" r then basename r
      else if Ascii.eqb c "/" then r else p
  end.

Fixpoint ends_with_slash (a : string) : bool :=
  match a with
  | EmptyString => false
  | String c EmptyString => Ascii.eqb c "/"
  | String _ r => ends_with_slash r
  end.

(** [os.path.join(a, b)] *)
Definition join (a b : string) : string :=
  match b with
  | String "/" _ => b
  | _ => if negb (Py.truthy a) || ends_with_slash a then a ++ b
         else a ++ "/" ++ b
  end.

End os_path.

(** What stands before each slash of a path, nearest first; the root
    before a leading slash is left out. *)
Fixpoint ancestors_from (before path : string) (found : list string) : list string :=
  match path with
  | EmptyString => found
  | String c r =>
      if Ascii.eqb c "/"
      then ancestors_from (before ++ "/") r
             (match before with EmptyString => found | _ => before :: found end)
      else ancestors_from (before ++ String c EmptyString) r found
  end.

Definition ancestors (path : string) : list string :=
  ancestors_from EmptyString path [].

Definition is_file (fs : FileSystem) (p : string) : bool :=
  match dict_get (files fs) p with Some _ => true | None => false end.

(** A regular file stands where the path needs a directory. *)
Definition blocked (fs : FileSystem) (path : string) : bool :=
  existsb (is_file fs) (ancestors path).

(** [os.mkdir(d)], its directory being there: it raises [OSError] when
    [d] exists, when a regular file is in the way, and when the operating
    system refuses. *)
Definition mkdir (fs : FileSystem) (d : string) : FileSystem * Exc unit :=
  if os_path.exists_ fs d || blocked fs d || Py.str_in d (refused fs)
  then (fs, Raise IOError)
  else (mkFS (d :: dirs fs) (files fs) (refused fs), Return tt).

(** [os.makedirs(d)], [up] being the ancestors of [d]: when the nearest
    ancestor does not exist it is made first, in the same way, then [d];
    the directories made stay when a later one cannot be. *)
Fixpoint makedirs_from (fs : FileSystem) (d : string) (up : list string)
  : FileSystem * Exc unit :=
  match up with
  | [] => mkdir fs d
  | head :: up' =>
      if negb (os_path.exists_ fs head)
      then match makedirs_from fs head up' with
           | (fs', Return _) => mkdir fs' d
           | (fs', Raise e) => (fs', Raise e)
           end
      else mkdir fs d
  end.

Definition makedirs (fs : FileSystem) (d : string) : FileSystem * Exc unit :=
  makedirs_from fs d (ancestors d).

(** [open(path, 'w')], [write(text)], [close()]: [open] raises [OSError]
    (as [IsADirectoryError], [NotADirectoryError], [PermissionError]) when
    the path is a directory, when a regular file is in the way, and when
    the operating system refuses; nothing is written then. The directory
    of the path is there where [translate_eisen] opens a file: it is
    [xml_dir], found or made before, or the directory of the source. *)
Definition write_file (fs : FileSystem) (path text : string) : Exc FileSystem :=
  if Py.str_in path (dirs fs) || blocked fs path || Py.str_in path (refused fs)
  then Raise IOError
  else Return (mkFS (dirs fs) (dict_set (files fs) path text) (refused fs)).

Section translate.

(** [prettify]: the serialisation of the tree, left open. *)
Variable prettify : Element -> string.

Definition xml_filename_of (es_filename xml_dir : string) : string :=
  if Py.truthy xml_dir
  then os_path.join xml_dir (os_path.basename es_filename ++ ".xml")
  else es_filename ++ ".xml".

(** The first lines of [translate_eisen]: [xml_dir] is made when it is
    given and does not exist. *)
Definition with_xml_dir (fs : FileSystem) (xml_dir : string)
  : FileSystem * Exc unit :=
  if Py.truthy xml_dir
  then if negb (os_path.exists_ fs xml_dir) then makedirs fs xml_dir
       else (fs, Return tt)
  else (fs, Return tt).

(** The file system afterwards, with [Return tt] or the exception that
    ended the call. *)
Definition translate_eisen (es_filename xml_dir : string) (fs : FileSystem)
  : FileSystem * Exc unit :=
  match with_xml_dir fs xml_dir with
  | (fs1, Raise e) => (fs1, Raise e)
  | (fs1, Return _) =>
      let xml_filename := xml_filename_of es_filename xml_dir in
      (* file_def.parseFile(es_filename) *)
      match dict_get (files fs1) es_filename with
      | None => (fs1, Raise IOError)
      | Some text =>
          match eisen_grammar.parseString text with
          | Raise e => (fs1, Raise e)
          | Return results =>
              match es_xml2 results with
              | Raise e => (fs1, Raise e)
              | Return xml =>
                  match write_file fs1 xml_filename (prettify xml) with
                  | Return fs2 => (fs2, Return tt)
                  | Raise e => (fs1, Raise e)
                  end
              end
          end
      end
  end.

End translate.

(** ** test_examples and the main block

    What is printed is kept as the list of the lines, in order. *)

Module Examples.

(** The local names of [test_examples]; [os.path.curdir] is ["."]. *)
Definition es_dir : string := "/usr/share/structure-synth/Examples/".
Definition xml_dir : string := os_path.join "." "xml_translate".

End Examples.

Section drivers.

Variable prettify : Element -> string.




Definition usage : string :=
  "usage: python eisenscript_to_xml.py /path/to/file/totranslate.es".

Definition not_understood : string := "I don't understand the eisenscript".

(** The main block, given [sys.argv]: the file system afterwards, what was
    printed, and the exception that was not caught, if any. *)
Definition main (argv : list string) (fs : FileSystem)
  : FileSystem * list string * option PyError :=
  match nth_error argv 1 with
  | None => (fs, [usage], None)                 (* sys.argv[1]: IndexError *)
  | Some es_filename =>
      match translate_eisen prettify es_filename "" fs with
      | (fs', Return _) => (fs', [], None)
      | (fs', Raise IndexError) => (fs', [usage], None)
      | (fs', Raise ParseException) => (fs', [not_understood], None)
      | (fs', Raise e) => (fs', [], Some e)
      end
  end.

End drivers.

(** * Definitions for the properties *)

Unset Implicit Arguments.

(** ** The builder as a function

    What the builder's loops do, written as functions of the parse results
    and the counter: the element a call adds to the current rule, the
    rules it adds to [top] and the counter afterwards ([call_site]), the
    same for a list of calls and for a group ([calls_site], [group_site],
    [groups_site]), the rules a definition adds to [top] ([def_site],
    [defs_site]), and the whole [document]. The properties part shows that
    [es_call] and [es_xml2] compute them. *)

(** A call element with its attributes in the order they are set. *)
Definition mk_call (call_type atr_name : string) (l : ParseResults) (target : string) : Element :=
  Elem call_type
       ((("transforms", trans_str (trans l)) ::
         (if Py.truthy (count l) then [("count", count l)] else [])) ++
        [(atr_name, target)])%list
       [].

Definition atr_name_of (is_bcall : bool) : string := if is_bcall then "shape" else "rule".
Definition call_type_of (is_bcall : bool) : string := if is_bcall then "instance" else "call".

(** [pcall.shape], or [pcall.rule_name[0]] *)
Definition atr_value_of (is_bcall : bool) (pcall : ParseResults) : option string :=
  if is_bcall then Some (shape pcall) else hd_error (rule_name pcall).

Definition call_site (is_bcall : bool) (pcall : ParseResults) (v : string) (k : nat)
  : Element * list Element * nat :=
  let ct := call_type_of is_bcall in
  let an := atr_name_of is_bcall in
  match loop pcall with
  | [] => (mk_call ct an pcall v, [], k)
  | [loop0] => (mk_call ct an loop0 v, [], k)
  | loop0 :: loop1 :: _ =>
      let newname := v ++ "_" ++ Py.format_02d k in
      (mk_call ct an loop0 newname,
       [Elem "rule" [("name", newname)] [mk_call "call" an loop1 v]],
       S k)
  end.

Fixpoint calls_site (is_bcall : bool) (pcalls : list ParseResults) (k : nat)
  : Exc (list Element * list Element * nat) :=
  match pcalls with
  | [] => Return ([], [], k)
  | pcall :: rest =>
      match atr_value_of is_bcall pcall with
      | None => Raise IndexError
      | Some v =>
          let '(c, rs, k1) := call_site is_bcall pcall v k in
          match calls_site is_bcall rest k1 with
          | Return (cs, rs', k2) => Return (c :: cs, (rs ++ rs')%list, k2)
          | Raise e => Raise e
          end
      end
  end.

(** [x] with the elements [cs] added to its children. *)
Definition add_calls (x : Element) (cs : list Element) : Element :=
  Elem (tag x) (attrib x) (children x ++ cs).

Definition group_site (p : RuleResults) (k : nat)
  : Exc (list Element * list Element * nat) :=
  match calls_site true (bcall p) k with
  | Raise e => Raise e
  | Return (cs1, rs1, k1) =>
      match calls_site false (rcall p) k1 with
      | Raise e => Raise e
      | Return (cs2, rs2, k2) => Return ((cs1 ++ cs2)%list, (rs1 ++ rs2)%list, k2)
      end
  end.

Fixpoint groups_site (ps : list RuleResults) (k : nat)
  : Exc (list Element * list Element * nat) :=
  match ps with
  | [] => Return ([], [], k)
  | p :: rest =>
      match group_site p k with
      | Raise e => Raise e
      | Return (cs, rs, k1) =>
          match groups_site rest k1 with
          | Raise e => Raise e
          | Return (cs', rs', k2) => Return ((cs ++ cs')%list, (rs ++ rs')%list, k2)
          end
      end
  end.

(** The rule element of a definition before its calls are added. *)
Definition rule_header (p : RuleResults) (nm : string) : Element :=
  let e0 := elem_set "name" nm (new_element "rule") in
  let e1 := if named_truthy (wm p)
            then elem_set "weight" (named_str (wm p)) e0 else e0 in
  let e2 := if named_truthy (md p)
            then elem_set "max_depth" (named_str (md p)) e1 else e1 in
  match successor_rule p with
  | [] => e2
  | s :: _ => elem_set "successor" s e2
  end.

Definition def_site (p : RuleResults) (k : nat) : Exc (list Element * nat) :=
  match name p with
  | [] => Raise IndexError
  | nm :: _ =>
      match group_site p k with
      | Raise e => Raise e
      | Return (cs, rs, k') => Return (add_calls (rule_header p nm) cs :: rs, k')
      end
  end.

Fixpoint defs_site (defs : list RuleResults) (k : nat) : Exc (list Element * nat) :=
  match defs with
  | [] => Return ([], k)
  | p :: rest =>
      match def_site p k with
      | Raise e => Raise e
      | Return (els, k1) =>
          match defs_site rest k1 with
          | Raise e => Raise e
          | Return (els', k2) => Return ((els ++ els')%list, k2)
          end
      end
  end.

Definition document (results : FileResults) : Exc Element :=
  match groups_site (entry_calls results) 0 with
  | Raise e => Raise e
  | Return (cs, rs, k) =>
      match rule_defs results with
      | [] => Raise IndexError
      | defs :: _ =>
          match defs_site defs k with
          | Raise e => Raise e
          | Return (els, _) =>
              Return (Elem "rules"
                        [("max_depth",
                          if Py.truthy (global_md results)
                          then global_md results else "1000")]
                        (Elem "rule" [("name", "entry")] cs :: rs ++ els))
          end
      end
  end.

(** The body of the loop over [results.rule_defs[0]]. *)
Definition def_body (p : RuleResults) : Build unit :=
  rule <- SubElement [] "rule" ;;
  nm <- item0 (name p) ;;
  set rule "name" nm ;;;
  when (named_truthy (wm p)) (set rule "weight" (named_str (wm p))) ;;;
  when (named_truthy (md p)) (set rule "max_depth" (named_str (md p))) ;;;
  match successor_rule p with
  | [] => ret tt
  | s :: _ => set rule "successor" s
  end ;;;
  for_each (bcall p) (fun c => es_call rule c true) ;;;
  for_each (rcall p) (fun c => es_call rule c false).

(** ** Transforms *)

(** The operation code [trans_str] writes for a transform, and the text it
    appends for it. *)
Definition code (t : Trans) : string := tid (retag t).

Definition piece (t : Trans) : string :=
  code t ++ " " ++ Py.join " " (tvalues t) ++ " ".

(** The identifiers of the grammar's [tid]. *)
Definition grammar_tids : list string := ["x"; "y"; "z"; "s"; "rx"; "ry"; "rz"].

(** Every transform carries an identifier of the grammar. *)
Definition from_grammar (trans_list : list Trans) : bool :=
  forallb (fun t => Py.str_in (tid t) grammar_tids) trans_list.

(** ** Names and the counter *)

(** The names of the document's rules, in order. *)
Definition rule_names (doc : Element) : list (option string) :=
  map (fun r => elem_get r "name") (children doc).

(** A string of decimal digits, and the number it writes. *)
Fixpoint all_digits (s : string) : bool :=
  match s with
  | EmptyString => true
  | String c r => PP.mem c PP.nums && all_digits r
  end.

Definition decode (s : string) : option nat :=
  option_map Nat.of_uint (NilEmpty.uint_of_string s).

Definition two_wide (k : nat) : bool := (String.length (Py.format_02d k) =? 2)%nat.

(** Where a rule of the document comes from: the entry block and the rule
    definitions of the source, or a call wrapped in two or more loops. *)
Inductive Origin : Type := Explicit | Synthesized.

(** A call wrapped in two or more loops. *)
Definition nested (pcall : ParseResults) : bool :=
  (2 <=? length (loop pcall))%nat.

Definition nested_calls (pcalls : list ParseResults) : list Origin :=
  map (fun _ => Synthesized) (filter nested pcalls).

Definition group_origins (p : RuleResults) : list Origin :=
  (nested_calls (bcall p) ++ nested_calls (rcall p))%list.

(** The origins of the document's rules, in the document's order. *)
Definition origins (results : FileResults) : list Origin :=
  (Explicit :: flat_map group_origins (entry_calls results) ++
   flat_map (fun p => Explicit :: group_origins p) (hd [] (rule_defs results)))%list.

(** The number of synthesized rules before position [i]: the value the
    counter has when the rule at [i] is made. *)
Fixpoint synthesized_before (os : list Origin) (i : nat) : nat :=
  match os, i with
  | [], _ => 0
  | _, 0 => 0
  | Synthesized :: os', S i' => S (synthesized_before os' i')
  | Explicit :: os', S i' => synthesized_before os' i'
  end.

(** [Marked k k' os els]: the rules [els] have the origins [os], and the
    synthesized ones were named with the counter going from [k] to [k']. *)
Inductive Marked : nat -> nat -> list Origin -> list Element -> Prop :=
  | Marked_nil (k : nat) : Marked k k [] []
  | Marked_explicit (k k' : nat) (os : list Origin) (e : Element) (els : list Element) :
      Marked k k' os els -> Marked k k' (Explicit :: os) (e :: els)
  | Marked_synthesized (k k' : nat) (os : list Origin) (v : string) (c : Element)
                       (els : list Element) :
      Marked (S k) k' os els ->
      Marked k k' (Synthesized :: os)
             (Elem "rule" [("name", v ++ "_" ++ Py.format_02d k)] [c] :: els).

(** ** What the grammar returns *)

(** A call has the name the builder reads for its target: [shape] for a
    [bcall], a first [rule_name] for an [rcall]. *)
Definition has_target (is_bcall : bool) (pcall : ParseResults) : Prop :=
  exists v, atr_value_of is_bcall pcall = Some v.

Definition wf_group (p : RuleResults) : Prop :=
  Forall (has_target true) (bcall p) /\ Forall (has_target false) (rcall p).

Definition wf_rule (p : RuleResults) : Prop :=
  wf_group p /\ exists nm, name p = [nm].

(** The global setting read at the start of the text, if there is one. *)
Definition global_setting (text : string) : option string :=
  match eisen_grammar.global_md text with
  | Some (v, _) => Some v
  | None => None
  end.

(** The characters of [fnum]. *)
Definition fnum_chars : string := ".+-*/()" ++ PP.nums.

(** A character that, in upper case, opens a shape word. *)
Definition opens_shape (c : ascii) : bool := PP.mem (PP.upper c) "BGSL".

(** A word made of letters only. *)
Definition upper_letters : string := "ABCDEFGHIJKLMNOPQRSTUVWXYZ".

Fixpoint letters (m : string) : bool :=
  match m with
  | EmptyString => true
  | String a m' => PP.mem (PP.upper a) upper_letters && letters m'
  end.

(** A parser that uses up at least one character when it matches, and one
    that never hands back more text than it was given. *)
Definition consuming {A : Type} (p : PP.Parser A) : Prop :=
  forall s a r, p s = Some (a, r) -> String.length r < String.length s.

Definition shrinking {A : Type} (p : PP.Parser A) : Prop :=
  forall s a r, p s = Some (a, r) -> String.length r <= String.length s.

(** ** Sources and parse results used as examples *)

(** A rule call in two loops: [3 * { ry 10 } 2 * { rz 5 } nm]. *)
Definition two_loops_to (nm : string) : ParseResults :=
  mkResults [mkResults [] [mkTrans "ry" ["10"]] "3" "" [];
             mkResults [] [mkTrans "rz" ["5"]] "2" "" []]
            [] "" "" [nm].

Fixpoint repeat_text (k : nat) (s : string) : string :=
  match k with
  | 0 => EmptyString
  | S k' => s ++ repeat_text k' s
  end.

(** An entry block of 101 calls wrapped in two loops. *)
Definition many_nested_calls_text : string :=
  repeat_text 101 "3 * { ry 10 } 2 * { rz 5 } foo " ++ "rule foo { box }".

Definition box_in_two_loops : string := "{x 1}{y 1} box rule a { box }".

Definition foo_in_three_loops : string :=
  "{x 1} 2 * {y 1} {z 1} foo rule foo { box }".

Definition depth_30_text : string := "set maxdepth 30 foo rule foo { box }".

Definition depth_30_results : FileResults :=
  Eval vm_compute in
    match eisen_grammar.parseString depth_30_text with
    | Return r => r
    | Raise _ => mkFile "" [] []
    end.

(** The source [box { x 1 } foo] is an entry block and nothing else. *)
Definition entry_only_text : string := "box { x 1 } foo".

Definition same_target_twice_text : string :=
  "{x 1}{y 1} foo {x 2}{y 2} foo rule foo { box }".

Definition same_target_twice : FileResults :=
  Eval vm_compute in
    match eisen_grammar.parseString same_target_twice_text with
    | Return r => r
    | Raise _ => mkFile "" [] []
    end.

(** A rule definition may carry the very name the builder makes up, here
    [foo_00]. *)
Definition colliding_text : string :=
  "{x 1}{y 1} foo rule foo { box } rule foo_00 { sphere }".

Definition nl : string := String "010" EmptyString.

(** A directive after the first rule definition. *)
Definition directive_text : string :=
  "foo" ++ nl ++ "rule foo { box }" ++ nl ++
  "#define size 2" ++ nl ++ "rule bar { sphere }" ++ nl.

(** ** What the builder needs of the parse results *)

(** [pcall.rule_name[0]] can be read. *)
Definition has_rule_name (pcall : ParseResults) : bool :=
  match rule_name pcall with [] => false | _ :: _ => true end.

(** [p.name[0]] can be read. *)
Definition has_name (p : RuleResults) : bool :=
  match name p with [] => false | _ :: _ => true end.

(** Every index [es_xml2] takes is in range: the [rcall]s have a rule name,
    [rule_defs] has a first element, and each rule in it has a name. *)
Definition indexable (results : FileResults) : bool :=
  forallb (fun p => forallb has_rule_name (rcall p)) (entry_calls results) &&
  match rule_defs results with
  | [] => false
  | defs :: _ =>
      forallb (fun p => has_name p && forallb has_rule_name (rcall p)) defs
  end.

(** The tags of a rule's children: [a] instances, then [b] calls. *)
Definition instances_first (rule : Element) : Prop :=
  exists a b, map tag (children rule)
              = (repeat "instance" a ++ repeat "call" b)%list.

(** A rule call written before a shape call. *)
Definition call_before_shape_text : string := "a rule a w 2 md 3 > a { a box }".

Definition call_before_shape : FileResults :=
  Eval vm_compute in
    match eisen_grammar.parseString call_before_shape_text with
    | Return r => r
    | Raise _ => mkFile "" [] []
    end.

(** A rule with each modifier written twice. *)
Definition doubled_modifiers_text : string :=
  "a rule a md 1 > b w 2 md 3 w 4 { a box }".

Definition doubled_modifiers : FileResults :=
  Eval vm_compute in
    match eisen_grammar.parseString doubled_modifiers_text with
    | Return r => r
    | Raise _ => mkFile "" [] []
    end.

(** No call of the group is wrapped in two or more loops. *)
Definition flat (p : RuleResults) : bool :=
  forallb (fun c => negb (nested c)) (bcall p) &&
  forallb (fun c => negb (nested c)) (rcall p).

(** Three rule definitions, two of them under the same name. *)
Definition three_rules_text : string :=
  "2 * { x 1 } b rule b { box } rule a w 2 { { s 2 } b } rule b { sphere a }".

Definition three_rules : FileResults :=
  Eval vm_compute in
    match eisen_grammar.parseString three_rules_text with
    | Return r => r
    | Raise _ => mkFile "" [] []
    end.

(** ** The shape of a document *)

(** [e.get(k) is not None] *)
Definition has_attribute (e : Element) (k : string) : bool :=
  match elem_get e k with Some _ => true | None => false end.

(** An [instance] with its [shape], or a [call] with its [rule]; either
    with [transforms] and without children. *)
Definition call_element (c : Element) : bool :=
  match children c with [] => true | _ :: _ => false end &&
  has_attribute c "transforms" &&
  (((tag c =? "instance") && has_attribute c "shape" && negb (has_attribute c "rule")) ||
   ((tag c =? "call") && has_attribute c "rule" && negb (has_attribute c "shape"))).

(** A [rule] with its [name], holding call elements. *)
Definition rule_element (r : Element) : bool :=
  (tag r =? "rule") && has_attribute r "name" && forallb call_element (children r).

(** A shape call has at most one loop. *)
Definition one_loop_shapes (p : RuleResults) : Prop :=
  Forall (fun pc => length (loop pc) <= 1) (bcall p).

(** ** The transforms of a loop *)

(** What [trans_str] writes for one transform, without the space after it. *)
Definition item (t : Trans) : string :=
  code t ++ " " ++ Py.join " " (tvalues t).

(** A word of the characters [chars]. *)
Fixpoint made_of (chars : string) (w : string) : bool :=
  match w with
  | EmptyString => true
  | String c r => PP.mem c chars && made_of chars r
  end.

(** A token of [fnum]. *)
Definition fnum_word (v : string) : bool := Py.truthy v && made_of fnum_chars v.

(** A [gtrans] group as the grammar makes it: an identifier of [tid] and at
    least one value, all of them [fnum] tokens. *)
Definition gtrans_group (t : Trans) : bool :=
  Py.str_in (tid t) grammar_tids &&
  match tvalues t with [] => false | _ :: _ => true end &&
  forallb fnum_word (tvalues t).

(** A loop with colour transforms among the others. *)
Definition loop_with_colours : string :=
  "3 * { x 1 hue 20 s 2 color red rz 1/2 0 } box".

(** The last character is there and is not white space. *)
Fixpoint ends_black (s : string) : bool :=
  match s with
  | EmptyString => false
  | String c EmptyString => negb (Py.isspace c)
  | String _ r => ends_black r
  end.

(** The start of a text: a count, the star and the brace of a loop with
    nothing between them. *)
Definition count_star_brace (c rest : string) : string := c ++ "*{" ++ rest.

(** ** What is skipped before the first token *)

(** A parser that sees of a text only what [skip] leaves of it: on two
    texts with the same remainder it fails on both, or returns the same
    result and texts that again have the same remainder. *)
Definition blind {A : Type} (p : PP.Parser A) : Prop :=
  forall s s', PP.skip s = PP.skip s' ->
    match p s, p s' with
    | Some (a, r), Some (a', r') => a = a' /\ PP.skip r = PP.skip r'
    | None, None => True
    | _, _ => False
    end.

Definition commented_text : string :=
  "// a tree" ++ nl ++ "set seed 7" ++ nl ++ "  /* entry */ foo rule foo { box }".

(** ** The drivers *)

(** The document of the source file [es_filename], when it can be read,
    parses and builds. *)
Definition translation (fs : FileSystem) (es_filename : string) : option Element :=
  match dict_get (files fs) es_filename with
  | None => None
  | Some text =>
      match eisen_grammar.parseString text with
      | Raise _ => None
      | Return results =>
          match es_xml2 results with
          | Return xml => Some xml
          | Raise _ => None
          end
      end
  end.

(** A path [es_dir + base] with no slash in [base]: what [glob] returns for
    a pattern of the form [es_dir + '*.es']. *)
Definition is_example (path : string) : bool :=
  match PP.starts false Examples.es_dir path with
  | Some base => negb (PP.mem "/" base)
  | None => false
  end.

(** [open(path, 'w')] raises nothing. *)
Definition writable (fs : FileSystem) (path : string) : bool :=
  negb (Py.str_in path (dirs fs) || blocked fs path ||
        Py.str_in path (refused fs)).





(** Each path of [up] is shorter than the one before it, the first one
    shorter than [d]: the ancestors of a path are such a list. *)
Fixpoint descending (d : string) (up : list string) : Prop :=
  match up with
  | [] => True
  | head :: up' =>
      (String.length head < String.length d)%nat /\ descending head up'
  end.




(** * Properties *)

(** ** References into the tree *)

Lemma nth_error_middle (A : Type) (pre post : list A) (x : A) :
  nth_error (pre ++ x :: post) (length pre) = Some x.
Proof.
  induction pre as [|y pre IH]; simpl; [reflexivity | exact IH].
Qed.

Lemma update_nth_middle (A : Type) (f : A -> A) (pre post : list A) (x : A) :
  update_nth (length pre) f (pre ++ x :: post) = (pre ++ f x :: post)%list.
Proof.
  induction pre as [|y pre IH]; simpl; [reflexivity | now rewrite IH].
Qed.

Lemma deref_child (T : string) (A : list (string * string))
      (pre post : list Element) (x : Element) (p : Ref) :
  deref (Elem T A (pre ++ x :: post)) (length pre :: p) = deref x p.
Proof.
  simpl. now rewrite nth_error_middle.
Qed.

Lemma update_at_child (T : string) (A : list (string * string))
      (pre post : list Element) (x : Element) (p : Ref) (f : Element -> Element) :
  update_at (length pre :: p) f (Elem T A (pre ++ x :: post))
  = Elem T A (pre ++ update_at p f x :: post).
Proof.
  simpl. now rewrite update_nth_middle.
Qed.

(** ** What one call adds to the tree

    [es_call] computes [call_site]. *)

Lemma SubElement_run (T : string) (A : list (string * string))
      (pre post : list Element) (x : Element) (ct : string) (k : nat) :
  SubElement [length pre] ct (mkState (Elem T A (pre ++ x :: post)) k)
  = Return ([length pre; length (children x)],
            mkState (Elem T A (pre ++ elem_append (new_element ct) x :: post)) k).
Proof.
  unfold SubElement. cbn [top n]. rewrite deref_child, update_at_child.
  reflexivity.
Qed.

Lemma SubElement_top_run (T : string) (A : list (string * string))
      (ch : list Element) (ct : string) (k : nat) :
  SubElement [] ct (mkState (Elem T A ch) k)
  = Return ([length ch], mkState (Elem T A (ch ++ [new_element ct])) k).
Proof. reflexivity. Qed.

Lemma set_run2 (T : string) (A : list (string * string))
      (pre post : list Element) (t : string) (a : list (string * string))
      (c : list Element) (e : Element) (key v : string) (k : nat) :
  set [length pre; length c] key v
      (mkState (Elem T A (pre ++ Elem t a (c ++ [e]) :: post)) k)
  = Return (tt, mkState (Elem T A (pre ++ Elem t a (c ++ [elem_set key v e]) :: post)) k).
Proof.
  unfold set. cbn [top n].
  rewrite !deref_child, !update_at_child. reflexivity.
Qed.

Lemma set_run1 (T : string) (A : list (string * string))
      (pre post : list Element) (x : Element) (key v : string) (k : nat) :
  set [length pre] key v (mkState (Elem T A (pre ++ x :: post)) k)
  = Return (tt, mkState (Elem T A (pre ++ elem_set key v x :: post)) k).
Proof.
  unfold set. cbn [top n]. rewrite deref_child, update_at_child. reflexivity.
Qed.

Lemma set_top_run (T : string) (A : list (string * string))
      (ch : list Element) (key v : string) (k : nat) :
  set [] key v (mkState (Elem T A ch) k)
  = Return (tt, mkState (Elem T (dict_set A key v) ch) k).
Proof. reflexivity. Qed.

Lemma set_run2_first (T : string) (A : list (string * string))
      (pre post : list Element) (t : string) (a : list (string * string))
      (e : Element) (key v : string) (k : nat) :
  set [length pre; 0] key v
      (mkState (Elem T A (pre ++ Elem t a [e] :: post)) k)
  = Return (tt, mkState (Elem T A (pre ++ Elem t a [elem_set key v e] :: post)) k).
Proof. exact (set_run2 T A pre post t a [] e key v k). Qed.

Lemma Element_eta (e : Element) : e = Elem (tag e) (attrib e) (children e).
Proof. destruct e; reflexivity. Qed.

Ltac run_step :=
  try unfold bind at 1;
  first [ rewrite SubElement_run
        | rewrite SubElement_top_run
        | rewrite set_run2
        | rewrite set_run2_first
        | rewrite set_run1
        | rewrite set_top_run ];
  unfold elem_append, elem_set, new_element;
  cbn [tag attrib children app length].

Lemma es_call_run (T : string) (A : list (string * string))
      (pre post : list Element) (x : Element)
      (pcall : ParseResults) (is_bcall : bool) (v : string) (k : nat) :
  atr_value_of is_bcall pcall = Some v ->
  es_call [length pre] pcall is_bcall (mkState (Elem T A (pre ++ x :: post)) k)
  = let '(c, rs, k') := call_site is_bcall pcall v k in
    Return (tt, mkState (Elem T A (pre ++ elem_append c x :: post ++ rs)) k').
Proof.
  intros Hv. destruct x as [t a c].
  unfold es_call, call_site.
  assert (Hsub : forall ct,
    SubElement [length pre] ct (mkState (Elem T A (pre ++ Elem t a c :: post)) k)
    = Return ([length pre; length c],
              mkState (Elem T A (pre ++ Elem t a (c ++ [Elem ct [] []]) :: post)) k))
    by (intros ct; rewrite SubElement_run; reflexivity).
  destruct is_bcall; simpl in Hv.
  - injection Hv as <-.
    unfold bind at 1. unfold ret at 1. cbn beta iota.
    unfold bind at 1. rewrite Hsub. cbn beta iota.
    destruct (loop pcall) as [|loop0 [|loop1 more]].
    + run_step. unfold when. destruct (Py.truthy (count pcall)) eqn:Hc.
      * do 2 run_step. unfold mk_call. rewrite Hc. now rewrite app_nil_r.
      * unfold bind at 1, ret at 1. cbn beta iota. run_step.
        unfold mk_call. rewrite Hc. now rewrite app_nil_r.
    + run_step. unfold when. destruct (Py.truthy (count loop0)) eqn:Hc.
      * do 2 run_step. unfold mk_call. rewrite Hc. now rewrite app_nil_r.
      * unfold bind at 1, ret at 1. cbn beta iota. run_step.
        unfold mk_call. rewrite Hc. now rewrite app_nil_r.
    + unfold bind at 1, next_n at 1. cbn [top n]. cbn beta iota.
      run_step. unfold when, mk_call.
      destruct (Py.truthy (count loop0)) eqn:Hc0;
        destruct (Py.truthy (count loop1)) eqn:Hc1;
        repeat first [ run_step | unfold bind at 1, ret at 1; cbn beta iota ];
        rewrite <- app_assoc; reflexivity.
  - destruct (rule_name pcall) as [|v' names]; [discriminate|].
    simpl in Hv. injection Hv as <-.
    unfold bind at 1. unfold item0, bind at 1, ret at 1. cbn beta iota.
    unfold ret at 1. cbn beta iota.
    unfold bind at 1. rewrite Hsub. cbn beta iota.
    destruct (loop pcall) as [|loop0 [|loop1 more]].
    + run_step. unfold when. destruct (Py.truthy (count pcall)) eqn:Hc.
      * do 2 run_step. unfold mk_call. rewrite Hc. now rewrite app_nil_r.
      * unfold bind at 1, ret at 1. cbn beta iota. run_step.
        unfold mk_call. rewrite Hc. now rewrite app_nil_r.
    + run_step. unfold when. destruct (Py.truthy (count loop0)) eqn:Hc.
      * do 2 run_step. unfold mk_call. rewrite Hc. now rewrite app_nil_r.
      * unfold bind at 1, ret at 1. cbn beta iota. run_step.
        unfold mk_call. rewrite Hc. now rewrite app_nil_r.
    + unfold bind at 1, next_n at 1. cbn [top n]. cbn beta iota.
      run_step. unfold when, mk_call.
      destruct (Py.truthy (count loop0)) eqn:Hc0;
        destruct (Py.truthy (count loop1)) eqn:Hc1;
        repeat first [ run_step | unfold bind at 1, ret at 1; cbn beta iota ];
        rewrite <- app_assoc; reflexivity.
Qed.

(** ** The sequence number of a synthesized name *)

Lemma decode_zeros (j k : nat) :
  decode (Py.zeros j ++ Py.str_of_nat k) = Some k.
Proof.
  unfold decode, Py.str_of_nat. induction j as [|j IH]; simpl.
  - rewrite NilEmpty.usu. cbn [option_map]. now rewrite Unsigned.of_to.
  - destruct (NilEmpty.uint_of_string
                (Py.zeros j ++ NilEmpty.string_of_uint (Nat.to_uint k)))
      as [d|]; [|discriminate].
    simpl in *. exact IH.
Qed.

Lemma format_02d_inj (a b : nat) : Py.format_02d a = Py.format_02d b -> a = b.
Proof.
  intros H. assert (E : Some a = Some b); [|now injection E].
  rewrite <- (decode_zeros (2 - String.length (Py.str_of_nat a)) a).
  rewrite <- (decode_zeros (2 - String.length (Py.str_of_nat b)) b).
  unfold Py.format_02d, Py.zfill in H. now rewrite H.
Qed.

Lemma all_digits_app (s t : string) :
  all_digits (s ++ t) = all_digits s && all_digits t.
Proof.
  induction s as [|c s IH]; simpl; [reflexivity|].
  now rewrite IH, andb_assoc.
Qed.

Lemma all_digits_uint (d : Decimal.uint) :
  all_digits (NilEmpty.string_of_uint d) = true.
Proof. induction d; simpl; auto. Qed.

Lemma all_digits_zeros (j : nat) : all_digits (Py.zeros j) = true.
Proof. induction j; simpl; auto. Qed.

Lemma format_02d_digits (k : nat) : all_digits (Py.format_02d k) = true.
Proof.
  unfold Py.format_02d, Py.zfill, Py.str_of_nat.
  now rewrite all_digits_app, all_digits_zeros, all_digits_uint.
Qed.

Lemma string_length_app (s t : string) :
  String.length (s ++ t) = String.length s + String.length t.
Proof. induction s as [|c s IH]; simpl; [reflexivity | now rewrite IH]. Qed.

Lemma length_zeros (j : nat) : String.length (Py.zeros j) = j.
Proof. induction j; simpl; auto. Qed.

Lemma format_02d_width (k : nat) : 2 <= String.length (Py.format_02d k).
Proof.
  unfold Py.format_02d, Py.zfill. rewrite string_length_app, length_zeros. lia.
Qed.

Lemma format_02d_two_digits (k : nat) :
  k < 100 -> String.length (Py.format_02d k) = 2.
Proof.
  intros H. apply Nat.eqb_eq. change (two_wide k = true).
  assert (A : forallb two_wide (seq 0 100) = true) by (vm_compute; reflexivity).
  rewrite forallb_forall in A. apply A. apply in_seq. lia.
Qed.

(** A name [v_NN] determines [NN]: the digits after the last underscore. *)
Lemma synthesized_name_inj (v1 v2 d1 d2 : string) :
  all_digits d1 = true -> all_digits d2 = true ->
  v1 ++ "_" ++ d1 = v2 ++ "_" ++ d2 -> v1 = v2 /\ d1 = d2.
Proof.
  intros H1 H2. revert v2.
  induction v1 as [|c v1 IH]; intros [|c2 v2] E; simpl in E.
  - injection E as E. now split.
  - injection E as Ec E. subst d1.
    rewrite all_digits_app in H1. simpl in H1.
    rewrite andb_false_r in H1. discriminate.
  - injection E as Ec E. subst d2.
    rewrite all_digits_app in H2. simpl in H2.
    rewrite andb_false_r in H2. discriminate.
  - injection E as Ec E. subst c2. destruct (IH _ E) as [-> ->]. now split.
Qed.

Lemma synthesized_name_counter (v1 v2 : string) (k1 k2 : nat) :
  v1 ++ "_" ++ Py.format_02d k1 = v2 ++ "_" ++ Py.format_02d k2 -> k1 = k2.
Proof.
  intros E. apply format_02d_inj.
  apply (synthesized_name_inj v1 v2); auto using format_02d_digits.
Qed.

(** ** The transform normaliser *)

Lemma string_app_assoc (a b c : string) : (a ++ b) ++ c = a ++ b ++ c.
Proof. induction a as [|x a IH]; simpl; [reflexivity | now rewrite IH]. Qed.

Lemma string_app_nil_r (a : string) : a ++ "" = a.
Proof. induction a as [|x a IH]; simpl; [reflexivity | now rewrite IH]. Qed.

Lemma tvalues_retag (t : Trans) : tvalues (retag t) = tvalues t.
Proof.
  unfold retag, set_tid.
  destruct ((tid t =? "s") && (len_trans t =? 2)%nat); cbn [tid tvalues];
    repeat match goal with |- context [if ?b then _ else _] => destruct b end;
    reflexivity.
Qed.

(** The assignments to [t.tid] are not seen by a second call. *)
Lemma retag_idempotent (t : Trans) : retag (retag t) = retag t.
Proof.
  destruct t as [i v]. unfold retag, set_tid, len_trans. cbn [tid tvalues].
  destruct ((i =? "s") && (S (length v) =? 2)%nat) eqn:E1; cbn [tid tvalues].
  - reflexivity.
  - destruct (Py.str_in i ["x"; "y"; "z"]) eqn:E2; cbn [tid tvalues].
    + unfold Py.str_in in E2. simpl in E2.
      destruct (i =? "x") eqn:X; [apply String.eqb_eq in X; subst; reflexivity|].
      destruct (i =? "y") eqn:Y; [apply String.eqb_eq in Y; subst; reflexivity|].
      destruct (i =? "z") eqn:Z; [apply String.eqb_eq in Z; subst; reflexivity|].
      discriminate.
    + rewrite E1. cbn [tid tvalues]. now rewrite E2.
Qed.

Lemma trans_str_loop_effect (l : list Trans) (acc : string) :
  trans_str_loop (trans_str_effect l) acc = trans_str_loop l acc.
Proof.
  revert acc. induction l as [|t l IH]; intros acc; simpl; [reflexivity|].
  now rewrite retag_idempotent, IH.
Qed.

Lemma trans_str_again (l : list Trans) :
  trans_str (trans_str_effect l) = trans_str l.
Proof. unfold trans_str. now rewrite trans_str_loop_effect. Qed.

Lemma trans_str_loop_pieces (l : list Trans) (acc : string) :
  trans_str_loop l acc = acc ++ String.concat "" (map piece l).
Proof.
  revert acc. induction l as [|t l IH]; intros acc; simpl.
  - now rewrite string_app_nil_r.
  - rewrite IH, tvalues_retag. fold (code t). fold (piece t).
    rewrite string_app_assoc. f_equal.
    destruct l as [|t' l]; simpl; [now rewrite string_app_nil_r | reflexivity].
Qed.

Lemma code_of_grammar_tid (t : Trans) :
  In (tid t) grammar_tids ->
  In (code t) ["tx"; "ty"; "tz"; "s"; "sa"; "rx"; "ry"; "rz"].
Proof.
  unfold code, retag. destruct t as [i v]. simpl.
  intros [<-|[<-|[<-|[<-|[<-|[<-|[<-|[]]]]]]]]; simpl; auto 10.
  destruct v as [|a [|b v]]; simpl; auto 10.
Qed.

Lemma lstrip_pieces (l : list Trans) :
  Forall (fun t => In (tid t) grammar_tids) l ->
  Py.lstrip (String.concat "" (map piece l)) = String.concat "" (map piece l).
Proof.
  intros H. destruct H as [|t l Ht Hl]; [reflexivity|].
  assert (E : exists c r, String.concat "" (map piece (t :: l)) = String c r
                          /\ Py.isspace c = false).
  { apply code_of_grammar_tid in Ht.
    assert (P : exists c r, piece t = String c r /\ Py.isspace c = false).
    { unfold piece. simpl in Ht.
      destruct Ht as [<-|[<-|[<-|[<-|[<-|[<-|[<-|[<-|[]]]]]]]]];
        simpl; eauto. }
    destruct P as (c & r & Hp & Hc). simpl.
    destruct (map piece l) as [|p ps]; rewrite Hp; simpl; eauto. }
  destruct E as (c & r & -> & Hc). simpl. now rewrite Hc.
Qed.

Lemma from_grammar_Forall (l : list Trans) :
  from_grammar l = true -> Forall (fun t => In (tid t) grammar_tids) l.
Proof.
  unfold from_grammar. rewrite forallb_forall, Forall_forall.
  intros H t Ht. specialize (H t Ht). unfold Py.str_in in H.
  apply existsb_exists in H. destruct H as (x & Hx & E).
  apply String.eqb_eq in E. now subst x.
Qed.

(** C4. [trans_str] writes [sa] for an [s] with one value and [s] for an
    [s] with three, [tx], [ty], [tz] for [x], [y], [z], and leaves [rx],
    [ry], [rz] as they are; its result is, for the transforms in their
    order, the code, a space, the values joined by single spaces and a
    space, all appended, with the white space at the end trimmed. *)
Theorem trans_str_normalizes (trans_list : list Trans) :
  from_grammar trans_list = true ->
  (forall v, code (mkTrans "s" [v]) = "sa") /\
  (forall a b c, code (mkTrans "s" [a; b; c]) = "s") /\
  (forall vs, code (mkTrans "x" vs) = "tx" /\
              code (mkTrans "y" vs) = "ty" /\
              code (mkTrans "z" vs) = "tz") /\
  (forall vs, code (mkTrans "rx" vs) = "rx" /\
              code (mkTrans "ry" vs) = "ry" /\
              code (mkTrans "rz" vs) = "rz") /\
  trans_str trans_list
  = Py.rstrip (String.concat "" (map piece trans_list)).
Proof.
  intros H. repeat split; try reflexivity.
  unfold trans_str, Py.strip. rewrite trans_str_loop_pieces. simpl.
  now rewrite lstrip_pieces by now apply from_grammar_Forall.
Qed.

Lemma trans_str_normalizes_witness :
  trans_str [mkTrans "s" ["2"]; mkTrans "x" ["1"; "0.5"]; mkTrans "rz" ["90"]]
  = "sa 2 tx 1 0.5 rz 90".
Proof.
  destruct (trans_str_normalizes
              [mkTrans "s" ["2"]; mkTrans "x" ["1"; "0.5"]; mkTrans "rz" ["90"]])
    as (_ & _ & _ & _ & E).
  - reflexivity.
  - rewrite E. reflexivity.
Defined.

(** ** Calls wrapped in two loops *)

Lemma mk_call_get (ct an : string) (l : ParseResults) (target : string) :
  an = "shape" \/ an = "rule" ->
  tag (mk_call ct an l target) = ct /\
  children (mk_call ct an l target) = [] /\
  elem_get (mk_call ct an l target) "transforms" = Some (trans_str (trans l)) /\
  elem_get (mk_call ct an l target) "count"
  = (if Py.truthy (count l) then Some (count l) else None) /\
  elem_get (mk_call ct an l target) an = Some target.
Proof.
  intros Han. unfold mk_call, elem_get.
  destruct (Py.truthy (count l)); destruct Han as [-> | ->]; simpl; auto.
Qed.

Lemma atr_name_cases (is_bcall : bool) :
  atr_name_of is_bcall = "shape" \/ atr_name_of is_bcall = "rule".
Proof. destruct is_bcall; simpl; auto. Qed.

(** C1 (as amended). A call wrapped in exactly two loops adds exactly one
    rule to the end of [top]; its name is the target, an underscore and the
    counter's value in decimal, padded with zeros to at least two digits
    (two digits exactly below one hundred). The call added to the current
    rule has the outer loop's transforms and count and targets the new name;
    the new rule has one [call], with the inner loop's transforms and count
    and the original target. *)
Theorem es_call_two_loops
        (T : string) (A : list (string * string)) (pre post : list Element)
        (x : Element) (pcall outer inner : ParseResults) (is_bcall : bool)
        (v : string) (k : nat) :
  loop pcall = [outer; inner] ->
  atr_value_of is_bcall pcall = Some v ->
  exists call newcall : Element,
    es_call [length pre] pcall is_bcall (mkState (Elem T A (pre ++ x :: post)) k)
    = Return (tt, mkState
                    (Elem T A (pre ++ elem_append call x :: post ++
                               [Elem "rule" [("name", v ++ "_" ++ Py.format_02d k)]
                                     [newcall]]))
                    (S k)) /\
    2 <= String.length (Py.format_02d k) /\
    (k < 100 -> String.length (Py.format_02d k) = 2) /\
    all_digits (Py.format_02d k) = true /\
    decode (Py.format_02d k) = Some k /\
    tag call = call_type_of is_bcall /\
    elem_get call "transforms" = Some (trans_str (trans outer)) /\
    elem_get call "count"
    = (if Py.truthy (count outer) then Some (count outer) else None) /\
    elem_get call (atr_name_of is_bcall) = Some (v ++ "_" ++ Py.format_02d k) /\
    tag newcall = "call" /\
    elem_get newcall "transforms" = Some (trans_str (trans inner)) /\
    elem_get newcall "count"
    = (if Py.truthy (count inner) then Some (count inner) else None) /\
    elem_get newcall (atr_name_of is_bcall) = Some v.
Proof.
  intros Hl Hv.
  pose proof (es_call_run T A pre post x pcall is_bcall v k Hv) as R.
  unfold call_site in R. rewrite Hl in R.
  destruct (mk_call_get (call_type_of is_bcall) (atr_name_of is_bcall) outer
              (v ++ "_" ++ Py.format_02d k) (atr_name_cases is_bcall))
    as (C1 & _ & C2 & C3 & C4).
  destruct (mk_call_get "call" (atr_name_of is_bcall) inner v
              (atr_name_cases is_bcall))
    as (N1 & _ & N2 & N3 & N4).
  eexists; eexists. split; [exact R|].
  repeat split; auto using format_02d_width, format_02d_two_digits,
                  format_02d_digits.
  exact (decode_zeros _ k).
Qed.

Lemma es_call_two_loops_witness :
  exists call newcall : Element,
    es_call [0] (two_loops_to "foo") false
            (mkState (Elem "rules" [] [Elem "rule" [("name", "entry")] []]) 0)
    = Return (tt, mkState
                    (Elem "rules" []
                          [elem_append call (Elem "rule" [("name", "entry")] []);
                           Elem "rule" [("name", "foo_00")] [newcall]])
                    1) /\
    elem_get call "transforms" = Some "ry 10" /\
    elem_get call "count" = Some "3" /\
    elem_get call "rule" = Some "foo_00" /\
    elem_get newcall "transforms" = Some "rz 5" /\
    elem_get newcall "count" = Some "2" /\
    elem_get newcall "rule" = Some "foo".
Proof.
  destruct (es_call_two_loops "rules" [] [] []
              (Elem "rule" [("name", "entry")] [])
              (two_loops_to "foo") _ _ false "foo" 0 eq_refl eq_refl)
    as (call & newcall & R & _ & _ & _ & _ & _ & C2 & C3 & C4 & _ & N2 & N3 & N4).
  exists call, newcall. repeat split; assumption.
Defined.

(** Against C1 as stated: the hundred and first synthesized name of a
    document is [foo_100], whose number has three digits. *)
Lemma synthesized_name_three_digits :
  exists (results : FileResults) (doc : Element),
    eisen_grammar.parseString many_nested_calls_text = Return results /\
    es_xml2 results = Return doc /\
    nth_error (rule_names doc) 100 = Some (Some "foo_99") /\
    nth_error (rule_names doc) 101 = Some (Some "foo_100") /\
    ~ (exists d : string, String.length d = 2 /\ "foo_100" = "foo" ++ "_" ++ d).
Proof.
  eexists. eexists.
  split; [vm_compute; reflexivity|].
  split; [vm_compute; reflexivity|].
  split; [vm_compute; reflexivity|].
  split; [vm_compute; reflexivity|].
  intros (d & Hd & He). simpl in He. injection He as <-. discriminate.
Qed.

(** The scenario of a rule body that calls [foo] in two loops. (The loop
    multiplier needs white space before its star: [fnum] takes the star
    of [3*] into the number.) *)
Example two_loops_round_trip :
  match eisen_grammar.parseString
          "a rule a { 3 * { ry 10 } 2 * { rz 5 } foo }" with
  | Return results => es_xml2 results
  | Raise e => Raise e
  end
  = Return
      (Elem "rules" [("max_depth", "1000")]
         [Elem "rule" [("name", "entry")]
               [Elem "call" [("transforms", ""); ("rule", "a")] []];
          Elem "rule" [("name", "a")]
               [Elem "call" [("transforms", "ry 10"); ("count", "3");
                             ("rule", "foo_00")] []];
          Elem "rule" [("name", "foo_00")]
               [Elem "call" [("transforms", "rz 5"); ("count", "2");
                             ("rule", "foo")] []]]).
Proof. vm_compute. reflexivity. Qed.

(** ** What the grammar returns for a call *)

Ltac split_match H :=
  repeat match type of H with
         | context [match ?x with _ => _ end] =>
             let E := fresh "E" in destruct x eqn:E; try discriminate H
         end.

Lemma shape_call_names (s r : string) (b : bool) (pc : ParseResults) :
  eisen_grammar.shape_call s = Some ((b, pc), r) ->
  b = true /\ trans pc = [] /\ count pc = "" /\ rule_name pc = [] /\
  length (loop pc) <= 1.
Proof.
  unfold eisen_grammar.shape_call, PP.pbind, PP.Optional, PP.MatchFirst, PP.pret.
  intros H. split_match H. injection H as <- <- <-. simpl.
  repeat split; auto.
  destruct (eisen_grammar.loop s) as [[a r']|];
    match goal with E : _ = Some (_, _) |- _ => injection E as <- <- end;
    simpl; auto.
Qed.

Lemma rule_call_names (s r : string) (b : bool) (pc : ParseResults) :
  eisen_grammar.rule_call s = Some ((b, pc), r) ->
  b = false /\ trans pc = [] /\ count pc = "" /\ shape pc = "" /\
  exists nm, rule_name pc = [nm].
Proof.
  unfold eisen_grammar.rule_call, PP.pbind, PP.pret.
  intros H. split_match H. injection H as <- <- <-. simpl.
  repeat split; eauto.
Qed.

Lemma call_names (s r : string) (b : bool) (pc : ParseResults) :
  eisen_grammar.call s = Some ((b, pc), r) ->
  trans pc = [] /\ count pc = "" /\
  (b = true -> length (loop pc) <= 1) /\
  exists v, atr_value_of b pc = Some v.
Proof.
  unfold eisen_grammar.call, PP.MatchFirst. intros H.
  destruct (eisen_grammar.shape_call s) as [[[b' pc'] r']|] eqn:E.
  - injection H as -> -> ->.
    destruct (shape_call_names _ _ _ _ E) as (-> & Ht & Hc & _ & Hl).
    repeat split; auto. simpl. eauto.
  - destruct (rule_call_names _ _ _ _ H) as (-> & Ht & Hc & _ & nm & Hn).
    repeat split; auto; [discriminate|]. simpl. rewrite Hn. simpl. eauto.
Qed.

(** ** Calls without a loop *)

(** C7. A call the grammar returns without a loop adds one element to the
    current rule and nothing else: its [transforms] is the empty string, it
    has no [count], and its [shape] or [rule] is the call's own shape or
    rule name. *)
Theorem call_without_loop
        (s r : string) (is_bcall : bool) (pcall : ParseResults)
        (T : string) (A : list (string * string)) (pre post : list Element)
        (x : Element) (k : nat) :
  eisen_grammar.call s = Some ((is_bcall, pcall), r) ->
  loop pcall = [] ->
  exists (v : string) (call : Element),
    atr_value_of is_bcall pcall = Some v /\
    es_call [length pre] pcall is_bcall (mkState (Elem T A (pre ++ x :: post)) k)
    = Return (tt, mkState (Elem T A (pre ++ elem_append call x :: post)) k) /\
    call = Elem (call_type_of is_bcall)
                [("transforms", ""); (atr_name_of is_bcall, v)] [] /\
    elem_get call "transforms" = Some "" /\
    elem_get call "count" = None /\
    elem_get call (atr_name_of is_bcall) = Some v.
Proof.
  intros Hp Hl.
  destruct (call_names _ _ _ _ Hp) as (Ht & Hc & _ & v & Hv).
  pose proof (es_call_run T A pre post x pcall is_bcall v k Hv) as R.
  unfold call_site in R. rewrite Hl in R. rewrite app_nil_r in R.
  unfold mk_call in R. rewrite Ht, Hc in R. simpl in R.
  exists v. eexists. split; [exact Hv|]. split; [exact R|].
  split; [reflexivity|]. unfold elem_get. destruct is_bcall; simpl; auto.
Qed.

Lemma call_without_loop_witness :
  exists (v : string) (call : Element),
    es_call [0] (mkResults [] [] "" "" ["foo"]) false
            (mkState (Elem "rules" [] [Elem "rule" [("name", "entry")] []]) 0)
    = Return (tt, mkState (Elem "rules" []
                [elem_append call (Elem "rule" [("name", "entry")] [])]) 0) /\
    call = Elem "call" [("transforms", ""); ("rule", "foo")] [] /\
    v = "foo".
Proof.
  destruct (call_without_loop "foo rule foo { box }" " rule foo { box }" false
              (mkResults [] [] "" "" ["foo"])
              "rules" [] [] [] (Elem "rule" [("name", "entry")] []) 0)
    as (v & call & Hv & R & E & _).
  - vm_compute. reflexivity.
  - reflexivity.
  - exists v, call. injection Hv as <-. repeat split; assumption.
Defined.

(** ** The first character of a loop, a shape and a rule name *)

Lemma starts_first (caseless : bool) (a : ascii) (m x r : string) :
  PP.starts caseless (String a m) x = Some r ->
  exists c rest, x = String c rest /\
                 (if caseless then PP.upper a = PP.upper c else a = c) /\
                 PP.starts caseless m rest = Some r.
Proof.
  destruct x as [|c rest]; simpl; [discriminate|].
  destruct caseless.
  - destruct (Ascii.eqb (PP.upper a) (PP.upper c)) eqn:E; [|discriminate].
    apply Ascii.eqb_eq in E. eauto.
  - destruct (Ascii.eqb a c) eqn:E; [|discriminate].
    apply Ascii.eqb_eq in E. eauto.
Qed.

Lemma Word_first (init body x w r : string) :
  PP.Word init body x = Some (w, r) ->
  exists c rest, x = String c rest /\ PP.mem c init = true.
Proof.
  unfold PP.Word. destruct x as [|c rest]; [discriminate|].
  destruct (PP.mem c init) eqn:E; [eauto | discriminate].
Qed.

Lemma loop_first_char (s r : string) (l : ParseResults) :
  eisen_grammar.loop s = Some (l, r) ->
  exists c rest, PP.skip s = String c rest /\
                 (PP.mem c fnum_chars = true \/ c = "{"%char).
Proof.
  unfold eisen_grammar.loop, PP.pbind, PP.Optional, PP.MatchFirst, PP.pret.
  intros H.
  destruct (eisen_grammar.loop_multiplier s) as [[c0 r0]|] eqn:M.
  - unfold eisen_grammar.loop_multiplier, PP.pbind, eisen_grammar.fnum, PP.tok in M.
    destruct (PP.Word _ _ (PP.skip s)) as [[w rw]|] eqn:W; [|discriminate].
    destruct (Word_first _ _ _ _ _ W) as (c & rest & E & Hc). eauto.
  - unfold PP.tok at 1 in H. unfold PP.Literal in H.
    destruct (PP.starts false "{" (PP.skip s)) as [r0|] eqn:L; [|discriminate].
    destruct (starts_first _ _ _ _ _ L) as (c & rest & E & Hc & _). subst c. eauto.
Qed.

Lemma shape_symbols :
  PP.oneOf_symbols eisen_grammar.shape_words = ["box"; "grid"; "sphere"; "line"].
Proof. reflexivity. Qed.

Lemma first_of_starts (syms : list string) (x w r : string) :
  PP.first_of syms x = Some (w, r) ->
  In w syms /\ PP.starts true w x = Some r.
Proof.
  induction syms as [|m syms IH]; simpl; [discriminate|].
  unfold PP.MatchFirst, PP.CaselessLiteral.
  destruct (PP.starts true m x) as [r0|] eqn:E.
  - intros H. injection H as <- <-. auto.
  - intros H. destruct (IH H). auto.
Qed.

Lemma shape_word_here (s w r : string) :
  eisen_grammar.shape s = Some (w, r) ->
  exists w0 r0, In w0 eisen_grammar.shape_words /\
                PP.starts true w0 (PP.skip s) = Some r0.
Proof.
  unfold eisen_grammar.shape, PP.tok, PP.pbind, PP.oneOf_at.
  rewrite shape_symbols.
  destruct (PP.first_of _ (PP.skip s)) as [[w0 r0]|] eqn:F; [|discriminate].
  intros _. destruct (first_of_starts _ _ _ _ F). eauto.
Qed.

Lemma shape_first_char (s w r : string) :
  eisen_grammar.shape s = Some (w, r) ->
  exists c rest, PP.skip s = String c rest /\ opens_shape c = true.
Proof.
  intros H. destruct (shape_word_here _ _ _ H) as (w0 & r0 & Hin & St).
  simpl in Hin.
  destruct Hin as [<-|[<-|[<-|[<-|[]]]]];
    destruct (starts_first _ _ _ _ _ St) as (c & rest & E & Hc & _);
    exists c, rest; (split; [exact E|]); unfold opens_shape; rewrite <- Hc;
    reflexivity.
Qed.

(** A property of characters holds when it holds of all 256. *)
Lemma ascii_all (P : ascii -> bool) :
  forallb P (map ascii_of_nat (seq 0 256)) = true -> forall c, P c = true.
Proof.
  intros H c. rewrite forallb_forall in H. apply H.
  rewrite <- (ascii_nat_embedding c). apply in_map. apply in_seq.
  pose proof (nat_ascii_bounded c). lia.
Qed.

Lemma opens_shape_facts (c : ascii) :
  opens_shape c = true ->
  PP.mem c fnum_chars = false /\ c <> "{"%char /\
  PP.mem c PP.alphas = true /\
  Ascii.eqb (PP.upper "r") (PP.upper c) = false.
Proof.
  intros H.
  pose proof (ascii_all
    (fun c => implb (opens_shape c)
                (negb (PP.mem c fnum_chars) && negb (Ascii.eqb c "{") &&
                 PP.mem c PP.alphas &&
                 negb (Ascii.eqb (PP.upper "r") (PP.upper c))))
    ltac:(vm_compute; reflexivity) c) as A.
  cbv beta in A. rewrite H in A. simpl in A.
  apply andb_prop in A as [A A4]. apply andb_prop in A as [A A3].
  apply andb_prop in A as [A1 A2].
  apply negb_true_iff in A1, A2, A4. apply Ascii.eqb_neq in A2. auto.
Qed.

Lemma shape_after_loop_fails (s r : string) (l : ParseResults) :
  eisen_grammar.loop s = Some (l, r) -> eisen_grammar.shape s = None.
Proof.
  intros L. destruct (eisen_grammar.shape s) as [[w r']|] eqn:S; [|reflexivity].
  destruct (loop_first_char _ _ _ L) as (c & rest & E & Hc).
  destruct (shape_first_char _ _ _ S) as (c' & rest' & E' & Hc').
  rewrite E in E'. injection E' as <- <-.
  destruct (opens_shape_facts _ Hc') as (F1 & F2 & _).
  destruct Hc as [Hc | Hc]; congruence.
Qed.

Lemma rule_name_at_shape (s w r : string) :
  eisen_grammar.shape s = Some (w, r) ->
  exists nm r', eisen_grammar.rule_name s = Some (nm, r').
Proof.
  intros S. destruct (shape_first_char _ _ _ S) as (c & rest & E & Hc).
  destruct (opens_shape_facts _ Hc) as (_ & _ & Ha & Hr).
  unfold eisen_grammar.rule_name, PP.pbind, PP.NotAny, PP.tok.
  rewrite E. unfold PP.CaselessKeyword. cbn [PP.starts]. rewrite Hr.
  rewrite E. unfold PP.Word. rewrite Ha.
  destruct (PP.span _ rest) as [b r']. eauto.
Qed.

Lemma letter_in_body (d : ascii) :
  PP.mem (PP.upper d) upper_letters = true ->
  PP.mem d PP.alphas = true /\ PP.mem d (PP.alphanums ++ "_") = true.
Proof.
  intros H.
  pose proof (ascii_all
    (fun d => implb (PP.mem (PP.upper d) upper_letters)
                (PP.mem d PP.alphas && PP.mem d (PP.alphanums ++ "_")))
    ltac:(vm_compute; reflexivity) d) as A.
  cbv beta in A. rewrite H in A. simpl in A. now apply andb_prop in A.
Qed.

Lemma span_starts (m t r : string) :
  letters m = true ->
  PP.starts true m t = Some r ->
  exists r', PP.starts true m (fst (PP.span (PP.alphanums ++ "_") t)) = Some r'.
Proof.
  revert t. induction m as [|a m IH]; intros t Hm St.
  - simpl. eauto.
  - destruct (starts_first _ _ _ _ _ St) as (d & t' & -> & Hu & St').
    cbn [letters] in Hm. apply andb_prop in Hm as [Ha Hm].
    rewrite Hu in Ha. destruct (letter_in_body _ Ha) as [_ Hb].
    cbn [PP.span]. rewrite Hb.
    destruct (PP.span (PP.alphanums ++ "_") t') as [w rest] eqn:Sp.
    cbn [fst PP.starts]. rewrite Hu, Ascii.eqb_refl.
    destruct (IH t' Hm St') as [r' Hr']. rewrite Sp in Hr'. eauto.
Qed.

Lemma rule_name_begins_with_shape_word (s w r nm r' : string) :
  eisen_grammar.shape s = Some (w, r) ->
  eisen_grammar.rule_name s = Some (nm, r') ->
  exists w0 r0, In w0 eisen_grammar.shape_words /\
                PP.starts true w0 nm = Some r0.
Proof.
  intros S N.
  destruct (shape_word_here _ _ _ S) as (w0 & r0 & Hin & St).
  exists w0.
  assert (Hl : letters w0 = true)
    by (simpl in Hin; destruct Hin as [<-|[<-|[<-|[<-|[]]]]]; reflexivity).
  assert (Hne : exists a m, w0 = String a m)
    by (simpl in Hin; destruct Hin as [<-|[<-|[<-|[<-|[]]]]]; eauto).
  destruct Hne as (a & m & ->).
  destruct (starts_first _ _ _ _ _ St) as (c & rest & E & Hu & St').
  unfold eisen_grammar.rule_name, PP.pbind, PP.NotAny, PP.tok in N.
  destruct (PP.CaselessKeyword "rule" (PP.skip s)); [discriminate|].
  rewrite E in N. unfold PP.Word in N.
  destruct (PP.mem c PP.alphas); [|discriminate].
  destruct (PP.span (PP.alphanums ++ "_") rest) as [b rb] eqn:Sp.
  injection N as <- <-.
  cbn [letters] in Hl. apply andb_prop in Hl as [_ Hm].
  destruct (span_starts m rest r0) as [r1 Hr1]; auto.
  rewrite Sp in Hr1. simpl in Hr1.
  exists r1. cbn [PP.starts]. now rewrite Hu, Ascii.eqb_refl.
Qed.

(** ** Repetition *)

Lemma many_two (A : Type) (p : PP.Parser A) (fuel : nat) (s r : string) (l : list A) :
  PP.many p fuel s = (l, r) -> 2 <= length l ->
  exists a r0 b r1 rest,
    p s = Some (a, r0) /\ p r0 = Some (b, r1) /\ l = a :: b :: rest.
Proof.
  intros H Hl.
  destruct fuel as [|fuel]; simpl in H.
  { injection H as <- <-. simpl in Hl. lia. }
  destruct (p s) as [[a r0]|] eqn:P1.
  2:{ injection H as <- <-. simpl in Hl. lia. }
  destruct (PP.many p fuel r0) as [l1 r1'] eqn:M. injection H as <- <-.
  destruct fuel as [|fuel]; simpl in M.
  { injection M as <- <-. simpl in Hl. lia. }
  destruct (p r0) as [[b r1]|] eqn:P2.
  2:{ injection M as <- <-. simpl in Hl. lia. }
  destruct (PP.many p fuel r1) as [l2 r2]. injection M as <- <-.
  exists a, r0, b, r1, l2. auto.
Qed.

Lemma nested_call_is_rule_call (s r r2 nm : string) (ls : list ParseResults) :
  PP.ZeroOrMore eisen_grammar.loop s = Some (ls, r) ->
  2 <= length ls ->
  eisen_grammar.rule_name r = Some (nm, r2) ->
  eisen_grammar.shape_call s = None /\
  eisen_grammar.call s = Some ((false, mkResults ls [] "" "" [nm]), r2).
Proof.
  intros Z Hl N.
  assert (Z' := Z). unfold PP.ZeroOrMore in Z'. injection Z' as Z'.
  destruct (many_two _ _ _ _ _ _ Z' Hl) as (a & r0 & b & r1 & rest & L1 & L2 & ->).
  assert (S : eisen_grammar.shape_call s = None).
  { unfold eisen_grammar.shape_call, PP.pbind, PP.Optional, PP.MatchFirst.
    rewrite L1. cbn [PP.pret]. now rewrite (shape_after_loop_fails _ _ _ L2). }
  split; [exact S|].
  unfold eisen_grammar.call, PP.MatchFirst. rewrite S.
  unfold eisen_grammar.rule_call, PP.pbind. rewrite Z, N. reflexivity.
Qed.

Lemma mk_call_rule_no_shape (ct : string) (l : ParseResults) (target : string) :
  elem_get (mk_call ct "rule" l target) "shape" = None.
Proof.
  unfold mk_call, elem_get. destruct (Py.truthy (count l)); reflexivity.
Qed.

(** ** Two or more loops before a shape word *)

(** C10. When two or more loops stand before a shape word, [shape_call]
    fails (it takes one loop, and what follows is a loop, not a shape) and
    the call is read as a rule call whose name begins with the shape word;
    the builder then writes [call] elements with a [rule] attribute (the
    synthesized name at the call site, the word itself in the new rule) and
    no [shape] attribute. *)
Theorem loops_before_shape_word
        (s r r1 w : string) (ls : list ParseResults)
        (T : string) (A : list (string * string)) (pre post : list Element)
        (x : Element) (k : nat) :
  PP.ZeroOrMore eisen_grammar.loop s = Some (ls, r) ->
  2 <= length ls ->
  eisen_grammar.shape r = Some (w, r1) ->
  exists (nm r2 w0 r0 : string) (call newcall : Element),
    In w0 eisen_grammar.shape_words /\
    PP.starts true w0 nm = Some r0 /\
    eisen_grammar.shape_call s = None /\
    eisen_grammar.call s = Some ((false, mkResults ls [] "" "" [nm]), r2) /\
    es_call [length pre] (mkResults ls [] "" "" [nm]) false
            (mkState (Elem T A (pre ++ x :: post)) k)
    = Return (tt, mkState
                    (Elem T A (pre ++ elem_append call x :: post ++
                               [Elem "rule" [("name", nm ++ "_" ++ Py.format_02d k)]
                                     [newcall]]))
                    (S k)) /\
    tag call = "call" /\
    elem_get call "rule" = Some (nm ++ "_" ++ Py.format_02d k) /\
    elem_get call "shape" = None /\
    tag newcall = "call" /\
    elem_get newcall "rule" = Some nm /\
    elem_get newcall "shape" = None.
Proof.
  intros Z Hl S.
  destruct (rule_name_at_shape _ _ _ S) as (nm & r2 & N).
  destruct (rule_name_begins_with_shape_word _ _ _ _ _ S N) as (w0 & r0 & Hin & St).
  destruct (nested_call_is_rule_call _ _ _ _ _ Z Hl N) as (Sc & C).
  destruct ls as [|outer [|inner more]]; simpl in Hl; try lia.
  pose proof (es_call_run T A pre post x
                (mkResults (outer :: inner :: more) [] "" "" [nm]) false nm k
                eq_refl) as R.
  unfold call_site in R. cbn [loop call_type_of atr_name_of] in R.
  destruct (mk_call_get "call" "rule" outer (nm ++ "_" ++ Py.format_02d k))
    as (C1 & _ & _ & _ & C4); auto.
  destruct (mk_call_get "call" "rule" inner nm) as (N1 & _ & _ & _ & N4); auto.
  exists nm, r2, w0, r0. eexists; eexists.
  repeat split; try eassumption; auto using mk_call_rule_no_shape.
Qed.

Lemma loops_before_shape_word_witness :
  exists (nm r2 : string) (ls : list ParseResults) (call newcall : Element),
    eisen_grammar.call box_in_two_loops
    = Some ((false, mkResults ls [] "" "" [nm]), r2) /\
    nm = "box" /\
    es_call [0] (mkResults ls [] "" "" [nm]) false
            (mkState (Elem "rules" [] [Elem "rule" [("name", "entry")] []]) 0)
    = Return (tt, mkState
                    (Elem "rules" []
                       [elem_append call (Elem "rule" [("name", "entry")] []);
                        Elem "rule" [("name", nm ++ "_" ++ Py.format_02d 0)]
                             [newcall]])
                    1) /\
    elem_get call "rule" = Some "box_00" /\
    elem_get newcall "rule" = Some "box".
Proof.
  destruct (loops_before_shape_word
              box_in_two_loops " box rule a { box }" " rule a { box }" "box"
              [mkResults [] [mkTrans "x" ["1"]] "" "" [];
               mkResults [] [mkTrans "y" ["1"]] "" "" []]
              "rules" [] [] [] (Elem "rule" [("name", "entry")] []) 0)
    as (nm & r2 & w0 & r0 & call & newcall & _ & _ & _ & C & R & _ & C4 & _ & _ & N4 & _).
  - vm_compute. reflexivity.
  - simpl. lia.
  - vm_compute. reflexivity.
  - assert (E : nm = "box").
    { vm_compute in C. now injection C as <- _. }
    exists nm, r2. eexists. exists call, newcall.
    split; [exact C|]. split; [exact E|]. split; [exact R|].
    rewrite C4, N4, E. split; reflexivity.
Defined.

(** ** Three or more loops *)

(** C9. A rule call wrapped in three or more loops is accepted by the
    grammar, and the builder treats it as the call with its first two
    loops alone: the first loop at the call site, the second in the one
    synthesized rule, the others unused, and no exception. *)
Theorem three_or_more_loops
        (s r r2 nm : string) (ls : list ParseResults)
        (T : string) (A : list (string * string)) (pre post : list Element)
        (x : Element) (k : nat) :
  PP.ZeroOrMore eisen_grammar.loop s = Some (ls, r) ->
  3 <= length ls ->
  eisen_grammar.rule_name r = Some (nm, r2) ->
  exists (outer inner : ParseResults) (more : list ParseResults)
         (call newcall : Element),
    ls = outer :: inner :: more /\ more <> [] /\
    eisen_grammar.call s = Some ((false, mkResults ls [] "" "" [nm]), r2) /\
    es_call [length pre] (mkResults ls [] "" "" [nm]) false
            (mkState (Elem T A (pre ++ x :: post)) k)
    = es_call [length pre] (mkResults [outer; inner] [] "" "" [nm]) false
              (mkState (Elem T A (pre ++ x :: post)) k) /\
    es_call [length pre] (mkResults ls [] "" "" [nm]) false
            (mkState (Elem T A (pre ++ x :: post)) k)
    = Return (tt, mkState
                    (Elem T A (pre ++ elem_append call x :: post ++
                               [Elem "rule" [("name", nm ++ "_" ++ Py.format_02d k)]
                                     [newcall]]))
                    (S k)) /\
    call = mk_call "call" "rule" outer (nm ++ "_" ++ Py.format_02d k) /\
    elem_get call "transforms" = Some (trans_str (trans outer)) /\
    elem_get call "count"
    = (if Py.truthy (count outer) then Some (count outer) else None) /\
    newcall = mk_call "call" "rule" inner nm /\
    elem_get newcall "transforms" = Some (trans_str (trans inner)) /\
    elem_get newcall "count"
    = (if Py.truthy (count inner) then Some (count inner) else None).
Proof.
  intros Z Hl N.
  assert (Hl2 : 2 <= length ls) by lia.
  destruct (nested_call_is_rule_call _ _ _ _ _ Z Hl2 N) as (_ & C).
  destruct ls as [|outer [|inner [|third more]]]; simpl in Hl; try lia.
  pose proof (es_call_run T A pre post x
                (mkResults (outer :: inner :: third :: more) [] "" "" [nm])
                false nm k eq_refl) as R.
  pose proof (es_call_run T A pre post x
                (mkResults [outer; inner] [] "" "" [nm])
                false nm k eq_refl) as R2.
  unfold call_site in R, R2. cbn [loop call_type_of atr_name_of] in R, R2.
  destruct (mk_call_get "call" "rule" outer (nm ++ "_" ++ Py.format_02d k))
    as (_ & _ & C2 & C3 & _); auto.
  destruct (mk_call_get "call" "rule" inner nm) as (_ & _ & N2 & N3 & _); auto.
  exists outer, inner, (third :: more). eexists; eexists.
  split; [reflexivity|]. split; [discriminate|]. split; [exact C|].
  split; [now rewrite R, R2|]. split; [exact R|].
  repeat split; assumption.
Qed.

Lemma three_or_more_loops_witness :
  exists (r2 : string) (ls : list ParseResults) (call newcall : Element),
    eisen_grammar.call foo_in_three_loops
    = Some ((false, mkResults ls [] "" "" ["foo"]), r2) /\
    length ls = 3 /\
    es_call [0] (mkResults ls [] "" "" ["foo"]) false
            (mkState (Elem "rules" [] [Elem "rule" [("name", "entry")] []]) 0)
    = Return (tt, mkState
                    (Elem "rules" []
                       [elem_append call (Elem "rule" [("name", "entry")] []);
                        Elem "rule" [("name", "foo_00")] [newcall]])
                    1) /\
    elem_get call "transforms" = Some "tx 1" /\
    elem_get newcall "transforms" = Some "ty 1" /\
    elem_get newcall "count" = Some "2".
Proof.
  destruct (three_or_more_loops
              foo_in_three_loops " foo rule foo { box }" " rule foo { box }" "foo"
              [mkResults [] [mkTrans "x" ["1"]] "" "" [];
               mkResults [] [mkTrans "y" ["1"]] "2" "" [];
               mkResults [] [mkTrans "z" ["1"]] "" "" []]
              "rules" [] [] [] (Elem "rule" [("name", "entry")] []) 0)
    as (outer & inner & more & call & newcall & E & _ & C & _ & R & _ & C2 & _ & _ & N2 & N3).
  - vm_compute. reflexivity.
  - simpl. lia.
  - vm_compute. reflexivity.
  - injection E as <- <- <-.
    exists " rule foo { box }". eexists. exists call, newcall.
    split; [exact C|]. split; [reflexivity|]. split; [exact R|].
    rewrite C2, N2, N3. repeat split; reflexivity.
Defined.

(** ** The document [es_xml2] builds

    The loops of [es_xml2] compute [calls_site], [group_site], [def_site]
    and, in the end, [document]. *)

Lemma es_call_raise (pcall : ParseResults) (is_bcall : bool) (rule : Ref)
      (st : BuildState) :
  atr_value_of is_bcall pcall = None ->
  es_call rule pcall is_bcall st = Raise IndexError.
Proof.
  destruct is_bcall; simpl; [discriminate|].
  destruct (rule_name pcall) eqn:E; [|discriminate].
  intros _. unfold es_call. rewrite E. reflexivity.
Qed.

Lemma add_calls_append (x c : Element) (cs : list Element) :
  add_calls (elem_append c x) cs = add_calls x (c :: cs).
Proof. unfold add_calls, elem_append. simpl. now rewrite <- app_assoc. Qed.

Lemma add_calls_nil (x : Element) : add_calls x [] = x.
Proof. destruct x. unfold add_calls. simpl. now rewrite app_nil_r. Qed.

Lemma add_calls_app (x : Element) (cs1 cs2 : list Element) :
  add_calls (add_calls x cs1) cs2 = add_calls x (cs1 ++ cs2).
Proof. unfold add_calls. simpl. now rewrite app_assoc. Qed.

Lemma calls_run (is_bcall : bool) (pcalls : list ParseResults)
      (T : string) (A : list (string * string)) (pre post : list Element)
      (x : Element) (k : nat) :
  for_each pcalls (fun c => es_call [length pre] c is_bcall)
           (mkState (Elem T A (pre ++ x :: post)) k)
  = match calls_site is_bcall pcalls k with
    | Return (cs, rs, k') =>
        Return (tt, mkState (Elem T A (pre ++ add_calls x cs :: post ++ rs)) k')
    | Raise e => Raise e
    end.
Proof.
  revert x post k. induction pcalls as [|pc rest IH]; intros x post k.
  - simpl. unfold ret. now rewrite add_calls_nil, app_nil_r.
  - cbn [for_each calls_site]. unfold bind at 1.
    destruct (atr_value_of is_bcall pc) as [v|] eqn:V.
    + rewrite (es_call_run T A pre post x pc is_bcall v k V).
      destruct (call_site is_bcall pc v k) as [[c rs] k1].
      rewrite IH.
      destruct (calls_site is_bcall rest k1) as [[[cs rs'] k2]|e]; [|reflexivity].
      now rewrite add_calls_append, <- app_assoc.
    + now rewrite es_call_raise.
Qed.

Lemma group_run (p : RuleResults)
      (T : string) (A : list (string * string)) (pre post : list Element)
      (x : Element) (k : nat) :
  (for_each (bcall p) (fun c => es_call [length pre] c true) ;;;
   for_each (rcall p) (fun c => es_call [length pre] c false))
    (mkState (Elem T A (pre ++ x :: post)) k)
  = match group_site p k with
    | Return (cs, rs, k') =>
        Return (tt, mkState (Elem T A (pre ++ add_calls x cs :: post ++ rs)) k')
    | Raise e => Raise e
    end.
Proof.
  unfold bind, group_site. rewrite calls_run.
  destruct (calls_site true (bcall p) k) as [[[cs1 rs1] k1]|e]; [|reflexivity].
  rewrite calls_run.
  destruct (calls_site false (rcall p) k1) as [[[cs2 rs2] k2]|e]; [|reflexivity].
  now rewrite add_calls_app, <- app_assoc.
Qed.

Lemma groups_run (ps : list RuleResults)
      (T : string) (A : list (string * string)) (pre post : list Element)
      (x : Element) (k : nat) :
  for_each ps (fun p =>
    for_each (bcall p) (fun c => es_call [length pre] c true) ;;;
    for_each (rcall p) (fun c => es_call [length pre] c false))
    (mkState (Elem T A (pre ++ x :: post)) k)
  = match groups_site ps k with
    | Return (cs, rs, k') =>
        Return (tt, mkState (Elem T A (pre ++ add_calls x cs :: post ++ rs)) k')
    | Raise e => Raise e
    end.
Proof.
  revert x post k. induction ps as [|p rest IH]; intros x post k.
  - simpl. unfold ret. now rewrite add_calls_nil, app_nil_r.
  - cbn [for_each groups_site]. unfold bind at 1. rewrite group_run.
    destruct (group_site p k) as [[[cs rs] k1]|e]; [|reflexivity].
    rewrite IH.
    destruct (groups_site rest k1) as [[[cs' rs'] k2]|e]; [|reflexivity].
    now rewrite add_calls_app, <- app_assoc.
Qed.

Lemma def_run (p : RuleResults) (T : string) (A : list (string * string))
      (ch : list Element) (k : nat) :
  def_body p (mkState (Elem T A ch) k)
  = match def_site p k with
    | Return (els, k') => Return (tt, mkState (Elem T A (ch ++ els)) k')
    | Raise e => Raise e
    end.
Proof.
  unfold def_body, def_site. unfold bind at 1. rewrite SubElement_top_run.
  unfold bind at 1. destruct (name p) as [|nm names]; [reflexivity|].
  unfold item0, ret at 1.
  unfold bind at 1. rewrite set_run1.
  assert (H : forall e,
    (when (named_truthy (wm p)) (set [length ch] "weight" (named_str (wm p))) ;;;
     when (named_truthy (md p)) (set [length ch] "max_depth" (named_str (md p))) ;;;
     match successor_rule p with
     | [] => ret tt
     | s :: _ => set [length ch] "successor" s
     end ;;;
     for_each (bcall p) (fun c => es_call [length ch] c true) ;;;
     for_each (rcall p) (fun c => es_call [length ch] c false))
      (mkState (Elem T A (ch ++ [e])) k)
    = (for_each (bcall p) (fun c => es_call [length ch] c true) ;;;
       for_each (rcall p) (fun c => es_call [length ch] c false))
        (mkState
           (Elem T A
              (ch ++
               [let e1 := if named_truthy (wm p)
                          then elem_set "weight" (named_str (wm p)) e else e in
                let e2 := if named_truthy (md p)
                          then elem_set "max_depth" (named_str (md p)) e1 else e1 in
                match successor_rule p with
                | [] => e2
                | s :: _ => elem_set "successor" s e2
                end])) k)).
  { intros e. unfold when.
    destruct (named_truthy (wm p)); destruct (named_truthy (md p));
      destruct (successor_rule p) as [|s ss];
      repeat (unfold bind at 1;
              first [ rewrite set_run1 | unfold ret at 1 ]; cbn beta iota);
      reflexivity. }
  rewrite H. rewrite group_run. fold (rule_header p nm).
  destruct (group_site p k) as [[[cs rs] k']|e]; reflexivity.
Qed.

Lemma defs_run (defs : list RuleResults) (T : string) (A : list (string * string))
      (ch : list Element) (k : nat) :
  for_each defs def_body (mkState (Elem T A ch) k)
  = match defs_site defs k with
    | Return (els, k') => Return (tt, mkState (Elem T A (ch ++ els)) k')
    | Raise e => Raise e
    end.
Proof.
  revert ch k. induction defs as [|p rest IH]; intros ch k.
  - simpl. unfold ret. now rewrite app_nil_r.
  - cbn [for_each defs_site]. unfold bind at 1. rewrite def_run.
    destruct (def_site p k) as [[els k1]|e]; [|reflexivity].
    rewrite IH.
    destruct (defs_site rest k1) as [[els' k2]|e]; [|reflexivity].
    now rewrite app_assoc.
Qed.

Lemma es_xml2_document (results : FileResults) :
  es_xml2 results = document results.
Proof.
  unfold es_xml2, document.
  change (es_xml2_body results)
    with ((if Py.truthy (global_md results)
           then set [] "max_depth" (global_md results)
           else set [] "max_depth" "1000") ;;;
          entry <- SubElement [] "rule" ;;
          set entry "name" "entry" ;;;
          for_each (entry_calls results) (fun p =>
            for_each (bcall p) (fun c => es_call entry c true) ;;;
            for_each (rcall p) (fun c => es_call entry c false)) ;;;
          defs <- item0 (rule_defs results) ;;
          for_each defs def_body).
  unfold bind at 1.
  assert (H : (if Py.truthy (global_md results)
               then set [] "max_depth" (global_md results)
               else set [] "max_depth" "1000")
                (mkState (new_element "rules") 0)
              = Return (tt, mkState
                              (Elem "rules"
                                    [("max_depth",
                                      if Py.truthy (global_md results)
                                      then global_md results else "1000")] []) 0))
    by (destruct (Py.truthy (global_md results)); reflexivity).
  rewrite H. clear H.
  unfold bind at 1. rewrite SubElement_top_run.
  unfold bind at 1. rewrite set_run1.
  unfold bind at 1.
  rewrite (groups_run (entry_calls results) "rules" _ [] []).
  destruct (groups_site (entry_calls results) 0) as [[[cs rs] k]|e]; [|reflexivity].
  unfold bind at 1. destruct (rule_defs results) as [|defs more]; [reflexivity|].
  unfold item0, ret at 1. rewrite defs_run.
  destruct (defs_site defs k) as [[els k']|e]; reflexivity.
Qed.

(** ** What the grammar returns for a file *)

Lemma many_Forall (A : Type) (P : A -> Prop) (p : PP.Parser A) :
  (forall s a r, p s = Some (a, r) -> P a) ->
  forall fuel s l r, PP.many p fuel s = (l, r) -> Forall P l.
Proof.
  intros Hp. induction fuel as [|fuel IH]; intros s l r H; simpl in H.
  - injection H as <- <-. constructor.
  - destruct (p s) as [[a r0]|] eqn:E.
    + destruct (PP.many p fuel r0) as [l' r'] eqn:M. injection H as <- <-.
      constructor; eauto.
    + injection H as <- <-. constructor.
Qed.

Lemma OneOrMore_Forall (A : Type) (P : A -> Prop) (p : PP.Parser A) :
  (forall s a r, p s = Some (a, r) -> P a) ->
  forall s l r, PP.OneOrMore p s = Some (l, r) -> Forall P l /\ l <> [].
Proof.
  intros Hp s l r H. unfold PP.OneOrMore, PP.pbind, PP.ZeroOrMore, PP.pret in H.
  destruct (p s) as [[a r0]|] eqn:E; [|discriminate].
  destruct (PP.many p (String.length r0) r0) as [l' r'] eqn:M.
  injection H as <- <-. split; [|discriminate].
  constructor; eauto using many_Forall.
Qed.

Lemma named_has_target (b : bool) (calls : list (bool * ParseResults)) :
  Forall (fun c => has_target (fst c) (snd c)) calls ->
  Forall (has_target b) (eisen_grammar.named b calls).
Proof.
  unfold eisen_grammar.named. induction 1 as [|[b' pc] calls H _ IH]; simpl.
  - constructor.
  - destruct (Bool.eqb b' b) eqn:E; simpl; [|exact IH].
    apply Bool.eqb_prop in E. subst b'. constructor; assumption.
Qed.

Lemma calls_have_targets (s r : string) (calls : list (bool * ParseResults)) :
  PP.OneOrMore eisen_grammar.call s = Some (calls, r) ->
  Forall (fun c => has_target (fst c) (snd c)) calls.
Proof.
  intros H.
  apply (OneOrMore_Forall _ (fun c => has_target (fst c) (snd c))
                          eisen_grammar.call) in H; [tauto|].
  intros s0 [b pc] r0 C. destruct (call_names _ _ _ _ C) as (_ & _ & _ & V).
  exact V.
Qed.

Lemma entry_wf (s r : string) (e : RuleResults) :
  eisen_grammar.entry s = Some (e, r) -> wf_group e.
Proof.
  unfold eisen_grammar.entry, PP.pbind, PP.pret. intros H.
  destruct (PP.OneOrMore eisen_grammar.call s) as [[calls r0]|] eqn:C;
    [|discriminate].
  injection H as <- <-. apply calls_have_targets in C.
  split; simpl; now apply named_has_target.
Qed.

Lemma rule_wf (s r : string) (p : RuleResults) :
  eisen_grammar.rule s = Some (p, r) ->
  wf_group p /\ exists nm, name p = [nm].
Proof.
  unfold eisen_grammar.rule, PP.pbind, PP.pret. intros H.
  destruct (PP.tok (PP.CaselessKeyword "rule") s) as [[? r0]|]; [|discriminate].
  destruct (eisen_grammar.rule_name r0) as [[nm r1]|]; [|discriminate].
  destruct (eisen_grammar.modifiers r1) as [[ms r2]|]; [|discriminate].
  destruct (PP.tok (PP.Literal "{") r2) as [[? r3]|]; [|discriminate].
  destruct (PP.OneOrMore eisen_grammar.call r3) as [[calls r4]|] eqn:C;
    [|discriminate].
  destruct (PP.tok (PP.Literal "}") r4) as [[? r5]|]; [|discriminate].
  injection H as <- <-. apply calls_have_targets in C.
  split; [|simpl; eauto].
  split; simpl; now apply named_has_target.
Qed.

Lemma file_def_wf (text r : string) (results : FileResults) :
  eisen_grammar.file_def text = Some (results, r) ->
  exists e p defs,
    entry_calls results = [e] /\ wf_group e /\
    rule_defs results = [p :: defs] /\ Forall wf_rule (p :: defs).
Proof.
  unfold eisen_grammar.file_def, PP.pbind, PP.pret. intros H.
  destruct (PP.Optional eisen_grammar.global_md "" text) as [[g r0]|];
    [|discriminate].
  destruct (eisen_grammar.entry r0) as [[e r1]|] eqn:E; [|discriminate].
  destruct (eisen_grammar.main r1) as [[m r2]|] eqn:M; [|discriminate].
  injection H as <- <-. simpl.
  apply (OneOrMore_Forall _ wf_rule eisen_grammar.rule) in M;
    [|exact (fun s a r => rule_wf s r a)].
  destruct M as [F N]. destruct m as [|p defs]; [congruence|].
  exists e, p, defs. eauto using entry_wf.
Qed.

(** ** The builder raises nothing on what the grammar returns *)

Lemma calls_site_total (b : bool) (pcalls : list ParseResults) (k : nat) :
  Forall (has_target b) pcalls ->
  exists cs rs k',
    calls_site b pcalls k = Return (cs, rs, k') /\
    map tag cs = repeat (call_type_of b) (length pcalls).
Proof.
  intros H. revert k. induction H as [|pc rest [v V] _ IH]; intros k.
  - simpl. eauto.
  - simpl. rewrite V.
    destruct (call_site b pc v k) as [[c rs] k1] eqn:C.
    destruct (IH k1) as (cs & rs' & k2 & -> & T).
    exists (c :: cs), (rs ++ rs')%list, k2. split; [reflexivity|].
    simpl. rewrite T. f_equal.
    unfold call_site in C.
    destruct (loop pc) as [|l0 [|l1 more]]; injection C as <- _ _; reflexivity.
Qed.

Lemma group_site_total (p : RuleResults) (k : nat) :
  wf_group p ->
  exists cs rs k',
    group_site p k = Return (cs, rs, k') /\
    map tag cs = (repeat "instance" (length (bcall p)) ++
                  repeat "call" (length (rcall p)))%list.
Proof.
  intros [Hb Hr]. unfold group_site.
  destruct (calls_site_total true (bcall p) k Hb) as (cs1 & rs1 & k1 & -> & T1).
  destruct (calls_site_total false (rcall p) k1 Hr) as (cs2 & rs2 & k2 & -> & T2).
  exists (cs1 ++ cs2)%list, (rs1 ++ rs2)%list, k2. split; [reflexivity|].
  now rewrite map_app, T1, T2.
Qed.

Lemma defs_site_total (defs : list RuleResults) (k : nat) :
  Forall wf_rule defs ->
  exists els k', defs_site defs k = Return (els, k') /\ length defs <= length els.
Proof.
  intros H. revert k. induction H as [|p rest [G [nm N]] _ IH]; intros k.
  - simpl. eauto.
  - simpl. unfold def_site. rewrite N.
    destruct (group_site_total p k G) as (cs & rs & k1 & -> & _).
    destruct (IH k1) as (els & k2 & -> & L).
    eexists; eexists. split; [reflexivity|]. simpl. rewrite length_app. lia.
Qed.

Lemma es_xml2_total (text : string) (results : FileResults) :
  eisen_grammar.parseString text = Return results ->
  exists doc, es_xml2 results = Return doc.
Proof.
  unfold eisen_grammar.parseString.
  destruct (eisen_grammar.file_def text) as [[res r]|] eqn:F; [|discriminate].
  intros H. injection H as ->.
  destruct (file_def_wf _ _ _ F) as (e & p & defs & He & We & Hd & Wd).
  rewrite es_xml2_document. unfold document. rewrite He, Hd.
  cbn [groups_site].
  destruct (group_site_total e 0 We) as (cs & rs & k & -> & _).
  destruct (defs_site_total (p :: defs) k Wd) as (els & k' & -> & _).
  eauto.
Qed.

(** ** The document's max_depth *)

Lemma fnum_truthy (s v r : string) :
  eisen_grammar.fnum s = Some (v, r) -> Py.truthy v = true.
Proof.
  unfold eisen_grammar.fnum, PP.tok, PP.Word.
  destruct (PP.skip s) as [|c rest]; [discriminate|].
  destruct (PP.mem c _); [|discriminate].
  destruct (PP.span _ rest). intros H. injection H as <- _. reflexivity.
Qed.

Lemma global_md_truthy (s v r : string) :
  eisen_grammar.global_md s = Some (v, r) -> Py.truthy v = true.
Proof.
  unfold eisen_grammar.global_md, PP.pbind. intros H.
  destruct (PP.tok (PP.CaselessKeyword "set") s) as [[? r0]|]; [|discriminate].
  destruct (eisen_grammar.md r0) as [[? r1]|]; [|discriminate].
  eauto using fnum_truthy.
Qed.

Lemma file_def_global_md (text r : string) (results : FileResults) :
  eisen_grammar.file_def text = Some (results, r) ->
  global_md results = match global_setting text with Some v => v | None => "" end
  /\ Py.truthy (global_md results)
     = match global_setting text with Some _ => true | None => false end.
Proof.
  unfold eisen_grammar.file_def, PP.pbind, PP.pret, PP.Optional, PP.MatchFirst,
    global_setting.
  intros H.
  destruct (eisen_grammar.global_md text) as [[v r0]|] eqn:G;
    unfold PP.pret in H; cbn beta iota in H.
  - destruct (eisen_grammar.entry r0) as [[e r1]|]; [|discriminate].
    destruct (eisen_grammar.main r1) as [[m r2]|]; [|discriminate].
    injection H as <- <-. simpl. eauto using global_md_truthy.
  - destruct (eisen_grammar.entry text) as [[e r1]|]; [|discriminate].
    destruct (eisen_grammar.main r1) as [[m r2]|]; [|discriminate].
    injection H as <- <-. simpl. auto.
Qed.

Lemma document_max_depth (results : FileResults) (doc : Element) :
  es_xml2 results = Return doc ->
  tag doc = "rules" /\
  attrib doc = [("max_depth", if Py.truthy (global_md results)
                              then global_md results else "1000")].
Proof.
  rewrite es_xml2_document. unfold document.
  destruct (groups_site _ 0) as [[[cs rs] k]|]; [|discriminate].
  destruct (rule_defs results) as [|defs more]; [discriminate|].
  destruct (defs_site defs k) as [[els k']|]; [|discriminate].
  intros H. injection H as <-. auto.
Qed.

(** C6. For a source that parses, the document is built, and its
    [max_depth] is the value of the global [set md|maxdepth] setting when
    the text has one, and [1000] when it has none. *)
Theorem max_depth_setting (text : string) (results : FileResults) :
  eisen_grammar.parseString text = Return results ->
  exists doc : Element,
    es_xml2 results = Return doc /\
    elem_get doc "max_depth"
    = Some (match global_setting text with
            | Some v => v
            | None => "1000"
            end).
Proof.
  intros P. destruct (es_xml2_total _ _ P) as [doc D]. exists doc.
  split; [exact D|].
  unfold eisen_grammar.parseString in P.
  destruct (eisen_grammar.file_def text) as [[res r]|] eqn:F; [|discriminate].
  injection P as ->.
  destruct (file_def_global_md _ _ _ F) as [G Tr].
  destruct (document_max_depth _ _ D) as [_ A].
  unfold elem_get. rewrite A, Tr, G. simpl.
  destruct (global_setting text); reflexivity.
Qed.

Lemma max_depth_setting_witness :
  exists doc : Element,
    es_xml2 depth_30_results = Return doc /\
    elem_get doc "max_depth" = Some "30".
Proof.
  destruct (max_depth_setting depth_30_text depth_30_results) as (doc & D & M).
  - vm_compute. reflexivity.
  - exists doc. split; [exact D|]. rewrite M. vm_compute. reflexivity.
Defined.

Example max_depth_default :
  exists doc : Element,
    match eisen_grammar.parseString "foo rule foo { box }" with
    | Return r => es_xml2 r
    | Raise e => Raise e
    end = Return doc /\
    elem_get doc "max_depth" = Some "1000".
Proof. eexists. split; vm_compute; reflexivity. Qed.

(** ** The entry rule *)

Lemma main_needs_a_rule (r : string) :
  PP.skip r = "" -> eisen_grammar.main r = None.
Proof.
  intros H.
  unfold eisen_grammar.main, PP.OneOrMore, PP.pbind, eisen_grammar.rule, PP.pbind.
  unfold PP.tok at 1. rewrite H. reflexivity.
Qed.

(** Against C5 as stated: a source that is an entry block and nothing
    else does not parse. *)
Lemma entry_only_is_rejected :
  (exists e, eisen_grammar.entry entry_only_text = Some (e, "")) /\
  eisen_grammar.parseString entry_only_text = Raise ParseException.
Proof.
  split; [eexists|]; vm_compute; reflexivity.
Qed.

(** C5 (as amended). The grammar wants at least one rule definition after
    the entry block: a text that ends after its entry block (but for white
    space and ignored text) is rejected with a parse error. For a text that
    parses, the document is built, its first rule is named [entry] and
    holds one element for each call of the entry block (the shape calls,
    then the rule calls), and the rules of the definitions follow. *)
Theorem entry_rule_first :
  (forall (text g r0 r1 : string) (e : RuleResults),
      PP.Optional eisen_grammar.global_md "" text = Some (g, r0) ->
      eisen_grammar.entry r0 = Some (e, r1) ->
      PP.skip r1 = "" ->
      eisen_grammar.parseString text = Raise ParseException) /\
  (forall (text : string) (results : FileResults),
      eisen_grammar.parseString text = Return results ->
      exists (doc : Element) (e p : RuleResults) (defs : list RuleResults)
             (calls rs others : list Element) (k : nat),
        es_xml2 results = Return doc /\
        entry_calls results = [e] /\
        rule_defs results = [p :: defs] /\
        group_site e 0 = Return (calls, rs, k) /\
        children doc = Elem "rule" [("name", "entry")] calls :: others /\
        map tag calls = (repeat "instance" (length (bcall e)) ++
                         repeat "call" (length (rcall e)))%list /\
        length (p :: defs) <= length others).
Proof.
  split.
  - intros text g r0 r1 e G E S.
    unfold eisen_grammar.parseString, eisen_grammar.file_def, PP.pbind.
    rewrite G, E, (main_needs_a_rule _ S). reflexivity.
  - intros text results P.
    destruct (es_xml2_total _ _ P) as [doc D].
    unfold eisen_grammar.parseString in P.
    destruct (eisen_grammar.file_def text) as [[res r]|] eqn:F; [|discriminate].
    injection P as ->.
    destruct (file_def_wf _ _ _ F) as (e & p & defs & He & We & Hd & Wd).
    destruct (group_site_total e 0 We) as (cs & rs & k & G & Tg).
    destruct (defs_site_total (p :: defs) k Wd) as (els & k' & Ds & L).
    rewrite es_xml2_document in D. unfold document in D.
    rewrite He, Hd in D. cbn [groups_site] in D. rewrite G, Ds in D.
    injection D as <-.
    exists (Elem "rules"
              [("max_depth",
                if Py.truthy (global_md results) then global_md results
                else "1000")]
              (Elem "rule" [("name", "entry")] (cs ++ []) :: (rs ++ []) ++ els)),
      e, p, defs, cs, rs, (rs ++ els)%list, k.
    rewrite !app_nil_r. repeat split; auto.
    + now rewrite es_xml2_document; unfold document; rewrite He, Hd;
        cbn [groups_site]; rewrite G, Ds, !app_nil_r.
    + rewrite length_app. lia.
Qed.

Lemma entry_rule_first_witness :
  eisen_grammar.parseString entry_only_text = Raise ParseException /\
  exists doc others,
    es_xml2 depth_30_results = Return doc /\
    children doc
    = Elem "rule" [("name", "entry")]
           [Elem "call" [("transforms", ""); ("rule", "foo")] []] :: others /\
    1 <= length others.
Proof.
  split.
  - apply (proj1 entry_rule_first entry_only_text "" entry_only_text ""
                 (mkRule [] [] [] []
                    [mkResults [] [] "" "box" []]
                    [mkResults [mkResults [] [mkTrans "x" ["1"]] "" "" []]
                               [] "" "" ["foo"]]));
      vm_compute; reflexivity.
  - destruct (proj2 entry_rule_first depth_30_text depth_30_results)
      as (doc & e & p & defs & calls & rs & others & k &
          D & He & Hd & G & C & _ & L).
    + vm_compute. reflexivity.
    + exists doc, others. split; [exact D|].
      vm_compute in He. injection He as <-.
      vm_compute in G. injection G as <- _ _.
      split; [exact C|]. simpl in L. lia.
Defined.

(** ** Rule names *)

Lemma Marked_app (k k1 k2 : nat) (o1 o2 : list Origin) (e1 e2 : list Element) :
  Marked k k1 o1 e1 -> Marked k1 k2 o2 e2 -> Marked k k2 (o1 ++ o2) (e1 ++ e2).
Proof.
  induction 1; intros H2; simpl; [assumption | |]; constructor; auto.
Qed.

Lemma Marked_length (k k' : nat) (os : list Origin) (els : list Element) :
  Marked k k' os els -> length os = length els.
Proof. induction 1; simpl; congruence. Qed.

Lemma Marked_nth (k k' : nat) (os : list Origin) (els : list Element) :
  Marked k k' os els ->
  forall i, nth_error os i = Some Synthesized ->
  exists v c,
    nth_error els i
    = Some (Elem "rule"
                 [("name", v ++ "_" ++ Py.format_02d (k + synthesized_before os i))]
                 [c]).
Proof.
  induction 1 as [k | k k' os e els _ IH | k k' os v c els _ IH]; intros i Hi.
  - destruct i; discriminate.
  - destruct i as [|i]; [discriminate|]. simpl in Hi.
    destruct (IH i Hi) as (v & c & E). exists v, c. exact E.
  - destruct i as [|i].
    + exists v, c. simpl. now rewrite Nat.add_0_r.
    + simpl in Hi. destruct (IH i Hi) as (v' & c' & E). exists v', c'.
      cbn [nth_error synthesized_before]. rewrite <- Nat.add_succ_comm. exact E.
Qed.

Lemma synthesized_before_lt (os : list Origin) (i j : nat) :
  i < j -> nth_error os i = Some Synthesized ->
  synthesized_before os i < synthesized_before os j.
Proof.
  revert i j. induction os as [|o os IH]; intros i j Hij Hi.
  - destruct i; discriminate.
  - destruct j as [|j]; [lia|]. destruct i as [|i].
    + simpl in Hi. injection Hi as ->. simpl. lia.
    + simpl in Hi. assert (L : i < j) by lia. specialize (IH i j L Hi).
      destruct o; simpl; lia.
Qed.

Lemma call_site_marked (b : bool) (pc : ParseResults) (v : string) (k : nat)
      (c : Element) (rs : list Element) (k' : nat) :
  call_site b pc v k = (c, rs, k') ->
  Marked k k' (nested_calls [pc]) rs.
Proof.
  unfold call_site, nested_calls, nested. simpl.
  destruct (loop pc) as [|l0 [|l1 more]]; intros H; injection H as <- <- <-;
    simpl; repeat constructor.
Qed.

Lemma nested_calls_cons (pc : ParseResults) (rest : list ParseResults) :
  nested_calls (pc :: rest) = (nested_calls [pc] ++ nested_calls rest)%list.
Proof.
  unfold nested_calls. simpl. destruct (nested pc); reflexivity.
Qed.

Lemma calls_site_marked (b : bool) (pcalls : list ParseResults) (k : nat)
      (cs rs : list Element) (k' : nat) :
  calls_site b pcalls k = Return (cs, rs, k') ->
  Marked k k' (nested_calls pcalls) rs.
Proof.
  revert k cs rs k'. induction pcalls as [|pc rest IH]; intros k cs rs k' H.
  - simpl in H. injection H as <- <- <-. constructor.
  - simpl in H. destruct (atr_value_of b pc) as [v|]; [|discriminate].
    destruct (call_site b pc v k) as [[c rs1] k1] eqn:C.
    destruct (calls_site b rest k1) as [[[cs' rs'] k2]|] eqn:R; [|discriminate].
    injection H as <- <- <-. rewrite nested_calls_cons.
    eauto using Marked_app, call_site_marked.
Qed.

Lemma group_site_marked (p : RuleResults) (k : nat)
      (cs rs : list Element) (k' : nat) :
  group_site p k = Return (cs, rs, k') ->
  Marked k k' (group_origins p) rs.
Proof.
  unfold group_site, group_origins.
  destruct (calls_site true (bcall p) k) as [[[cs1 rs1] k1]|] eqn:B; [|discriminate].
  destruct (calls_site false (rcall p) k1) as [[[cs2 rs2] k2]|] eqn:R; [|discriminate].
  intros H. injection H as <- <- <-.
  eauto using Marked_app, calls_site_marked.
Qed.

Lemma groups_site_marked (ps : list RuleResults) (k : nat)
      (cs rs : list Element) (k' : nat) :
  groups_site ps k = Return (cs, rs, k') ->
  Marked k k' (flat_map group_origins ps) rs.
Proof.
  revert k cs rs k'. induction ps as [|p rest IH]; intros k cs rs k' H.
  - simpl in H. injection H as <- <- <-. constructor.
  - simpl in H.
    destruct (group_site p k) as [[[cs1 rs1] k1]|] eqn:G; [|discriminate].
    destruct (groups_site rest k1) as [[[cs2 rs2] k2]|] eqn:R; [|discriminate].
    injection H as <- <- <-. simpl.
    eauto using Marked_app, group_site_marked.
Qed.

Lemma defs_site_marked (defs : list RuleResults) (k : nat)
      (els : list Element) (k' : nat) :
  defs_site defs k = Return (els, k') ->
  Marked k k' (flat_map (fun p => Explicit :: group_origins p) defs) els.
Proof.
  revert k els k'. induction defs as [|p rest IH]; intros k els k' H.
  - simpl in H. injection H as <- <-. constructor.
  - simpl in H. unfold def_site in H.
    destruct (name p) as [|nm names]; [discriminate|].
    destruct (group_site p k) as [[[cs rs] k1]|] eqn:G; [|discriminate].
    destruct (defs_site rest k1) as [[els' k2]|] eqn:R; [|discriminate].
    injection H as <- <-. simpl.
    constructor. eauto using Marked_app, group_site_marked.
Qed.

Lemma document_marked (results : FileResults) (doc : Element) :
  es_xml2 results = Return doc ->
  exists k', Marked 0 k' (origins results) (children doc).
Proof.
  rewrite es_xml2_document. unfold document, origins.
  destruct (groups_site _ 0) as [[[cs rs] k]|] eqn:G; [|discriminate].
  destruct (rule_defs results) as [|defs more]; [discriminate|].
  destruct (defs_site defs k) as [[els k']|] eqn:D; [|discriminate].
  intros H. injection H as <-. exists k'. simpl.
  constructor. eauto using Marked_app, groups_site_marked, defs_site_marked.
Qed.

Lemma rule_names_nth (doc : Element) (i : nat) (e : Element) :
  nth_error (children doc) i = Some e ->
  nth_error (rule_names doc) i = Some (elem_get e "name").
Proof. intros H. unfold rule_names. now rewrite nth_error_map, H. Qed.

Lemma contains_app_mid (c : ascii) (a b : string) :
  Py.contains c (a ++ String c b) = true.
Proof.
  induction a as [|x a IH]; simpl.
  - now rewrite Ascii.eqb_refl.
  - rewrite IH. apply orb_true_r.
Qed.

(** A synthesized name has an underscore, the entry rule's name has none. *)
Lemma synthesized_name_not_entry (v : string) (k : nat) :
  v ++ "_" ++ Py.format_02d k <> "entry".
Proof.
  intros E.
  pose proof (contains_app_mid "_" v (Py.format_02d k)) as C.
  change (v ++ String "_" (Py.format_02d k))
    with (v ++ "_" ++ Py.format_02d k) in C.
  rewrite E in C. discriminate C.
Qed.

Lemma document_first_rule (results : FileResults) (doc : Element) :
  es_xml2 results = Return doc ->
  nth_error (rule_names doc) 0 = Some (Some "entry").
Proof.
  rewrite es_xml2_document. unfold document.
  destruct (groups_site _ 0) as [[[cs rs] k]|]; [|discriminate].
  destruct (rule_defs results) as [|defs more]; [discriminate|].
  destruct (defs_site defs k) as [[els k']|]; [|discriminate].
  intros H. injection H as <-. reflexivity.
Qed.

(** C2 (as amended). The rules of a document line up with their origins,
    and each synthesized rule is named with the number of synthesized rules
    before it: the counter never repeats, so two synthesized rules never
    have the same name. The first rule of the document is the entry rule,
    named [entry], and no synthesized rule has that name. (Nothing keeps a
    synthesized name apart from the name of a rule definition, nor two
    definitions apart.) *)
Theorem synthesized_names_distinct (results : FileResults) (doc : Element) :
  es_xml2 results = Return doc ->
  length (origins results) = length (children doc) /\
  (forall i, nth_error (origins results) i = Some Synthesized ->
             exists v,
               nth_error (rule_names doc) i
               = Some (Some (v ++ "_" ++
                             Py.format_02d (synthesized_before (origins results) i)))) /\
  (forall i j, i <> j ->
               nth_error (origins results) i = Some Synthesized ->
               nth_error (origins results) j = Some Synthesized ->
               nth_error (rule_names doc) i <> nth_error (rule_names doc) j) /\
  nth_error (rule_names doc) 0 = Some (Some "entry") /\
  (forall i, nth_error (origins results) i = Some Synthesized ->
             nth_error (rule_names doc) i <> Some (Some "entry")).
Proof.
  intros D. destruct (document_marked _ _ D) as [k' M].
  pose proof (document_first_rule _ _ D) as First.
  remember (origins results) as os eqn:Hos. clear Hos.
  assert (N : forall i, nth_error os i = Some Synthesized ->
              exists v,
                nth_error (rule_names doc) i
                = Some (Some (v ++ "_" ++
                        Py.format_02d (synthesized_before os i)))).
  { intros i Hi. destruct (Marked_nth _ _ _ _ M i Hi) as (v & c & E).
    exists v. now rewrite (rule_names_nth _ _ _ E). }
  split; [exact (Marked_length _ _ _ _ M)|]. split; [exact N|].
  split; [|split; [exact First|]].
  - intros i j Hij Hi Hj E.
    destruct (N i Hi) as [vi Ei]. destruct (N j Hj) as [vj Ej].
    rewrite Ei, Ej in E. injection E as E.
    apply synthesized_name_counter in E.
    destruct (Nat.lt_total i j) as [L | [L | L]]; [|congruence|].
    + pose proof (synthesized_before_lt _ _ _ L Hi). lia.
    + pose proof (synthesized_before_lt _ _ _ L Hj). lia.
  - intros i Hi E. destruct (N i Hi) as [v Ev].
    rewrite Ev in E. injection E as E.
    exact (synthesized_name_not_entry _ _ E).
Qed.

Lemma synthesized_names_distinct_witness :
  exists doc : Element,
    es_xml2 same_target_twice = Return doc /\
    rule_names doc = [Some "entry"; Some "foo_00"; Some "foo_01"; Some "foo"] /\
    nth_error (rule_names doc) 1 <> nth_error (rule_names doc) 2 /\
    nth_error (rule_names doc) 1 <> Some (Some "entry").
Proof.
  destruct (es_xml2 same_target_twice) as [doc|e] eqn:D;
    [|vm_compute in D; discriminate].
  exists doc. split; [reflexivity|]. split; [|split].
  - vm_compute in D. injection D as <-. reflexivity.
  - destruct (synthesized_names_distinct same_target_twice doc D)
      as (_ & _ & N & _).
    apply N; [discriminate | reflexivity | reflexivity].
  - destruct (synthesized_names_distinct same_target_twice doc D)
      as (_ & _ & _ & _ & N).
    apply N. reflexivity.
Defined.

(** Against C2 as stated: a rule definition named [foo_00] and the rule
    synthesized for a nested call of [foo] have the same name. *)
Lemma synthesized_name_collides :
  exists (results : FileResults) (doc : Element),
    eisen_grammar.parseString colliding_text = Return results /\
    es_xml2 results = Return doc /\
    rule_names doc = [Some "entry"; Some "foo_00"; Some "foo"; Some "foo_00"] /\
    ~ NoDup (rule_names doc).
Proof.
  eexists. eexists.
  split; [vm_compute; reflexivity|].
  split; [vm_compute; reflexivity|].
  split; [vm_compute; reflexivity|].
  intros H. vm_compute in H.
  inversion H as [|a l _ Hrest]. inversion Hrest as [|b l' Hnot _].
  apply Hnot. simpl. auto.
Qed.

(** ** The output file *)

Lemma parseString_raises (text : string) (e : PyError) :
  eisen_grammar.parseString text = Raise e -> e = ParseException.
Proof.
  unfold eisen_grammar.parseString.
  destruct (eisen_grammar.file_def text) as [[r s]|]; [discriminate|].
  intros H. now injection H.
Qed.

(** What making the directory and opening the file leave as it was. *)

Lemma mkdir_spec (fs : FileSystem) (d : string) :
  files (fst (mkdir fs d)) = files fs /\
  refused (fst (mkdir fs d)) = refused fs /\
  match snd (mkdir fs d) with
  | Return _ => dirs (fst (mkdir fs d)) = d :: dirs fs
  | Raise e => e = IOError /\ fst (mkdir fs d) = fs
  end.
Proof.
  unfold mkdir.
  destruct (os_path.exists_ fs d || blocked fs d || Py.str_in d (refused fs));
    cbn [fst snd files refused dirs]; auto.
Qed.

Lemma makedirs_from_keeps (up : list string) (fs : FileSystem) (d : string) :
  files (fst (makedirs_from fs d up)) = files fs /\
  refused (fst (makedirs_from fs d up)) = refused fs /\
  forall e, snd (makedirs_from fs d up) = Raise e -> e = IOError.
Proof.
  revert fs d. induction up as [|head up IH]; intros fs d; cbn [makedirs_from].
  - destruct (mkdir_spec fs d) as (F & R & O).
    split; [exact F|]. split; [exact R|].
    intros e E. rewrite E in O. tauto.
  - destruct (negb (os_path.exists_ fs head)).
    + destruct (IH fs head) as (F & R & O).
      destruct (makedirs_from fs head up) as [fs' [u|e']]; cbn [fst snd] in *.
      * destruct (mkdir_spec fs' d) as (F' & R' & O').
        split; [congruence|]. split; [congruence|].
        intros e E. rewrite E in O'. tauto.
      * auto.
    + destruct (mkdir_spec fs d) as (F & R & O).
      split; [exact F|]. split; [exact R|].
      intros e E. rewrite E in O. tauto.
Qed.

Lemma with_xml_dir_keeps (fs : FileSystem) (xml_dir : string) :
  files (fst (with_xml_dir fs xml_dir)) = files fs /\
  refused (fst (with_xml_dir fs xml_dir)) = refused fs /\
  forall e, snd (with_xml_dir fs xml_dir) = Raise e -> e = IOError.
Proof.
  unfold with_xml_dir.
  destruct (Py.truthy xml_dir);
    [destruct (negb (os_path.exists_ fs xml_dir))|];
    try (cbn [fst snd]; repeat split; auto; discriminate).
  apply makedirs_from_keeps.
Qed.




(** ** Preprocessor directives *)

(** C3 (the code at the failing input). A directive after the first rule
    definition does not make the parse fail: [OneOrMore(rule)] stops in
    front of it, [parseString] returns what was read, and the document is
    built from that. The directive and the rule [bar] after it are dropped
    without a word. *)
Lemma directive_after_rule_is_dropped :
  exists (results : FileResults) (doc : Element),
    eisen_grammar.parseString directive_text = Return results /\
    es_xml2 results = Return doc /\
    doc = Elem "rules" [("max_depth", "1000")]
            [Elem "rule" [("name", "entry")]
                  [Elem "call" [("transforms", ""); ("rule", "foo")] []];
             Elem "rule" [("name", "foo")]
                  [Elem "instance" [("transforms", ""); ("shape", "box")] []]].
Proof.
  eexists. eexists. split; [vm_compute; reflexivity|].
  split; vm_compute; reflexivity.
Qed.

(** A text whose first token would be a directive does not parse, whatever
    white space and ignored text come before it. *)
Lemma directive_before_entry_is_rejected (text rest : string) :
  PP.skip text = String "#" rest ->
  eisen_grammar.parseString text = Raise ParseException.
Proof.
  intros H.
  assert (F : eisen_grammar.fnum text = None)
    by (unfold eisen_grammar.fnum, PP.tok; rewrite H; reflexivity).
  assert (B : PP.tok (PP.Literal "{") text = None)
    by (unfold PP.tok; rewrite H; reflexivity).
  assert (L : eisen_grammar.loop text = None).
  { unfold eisen_grammar.loop, PP.pbind at 1, PP.Optional, PP.MatchFirst,
      eisen_grammar.loop_multiplier, PP.pbind at 1.
    rewrite F. unfold PP.pret at 1. unfold PP.pbind at 1. now rewrite B. }
  assert (S : eisen_grammar.shape text = None)
    by (unfold eisen_grammar.shape, PP.tok; rewrite H; reflexivity).
  assert (N : eisen_grammar.rule_name text = None).
  { unfold eisen_grammar.rule_name, PP.pbind, PP.NotAny, PP.tok.
    rewrite H.
    replace (PP.CaselessKeyword "rule" (String "#" rest))
      with (@None (string * string)) by reflexivity.
    rewrite H. reflexivity. }
  assert (M : PP.many eisen_grammar.loop (String.length text) text = ([], text))
    by (destruct (String.length text); simpl; rewrite ?L; reflexivity).
  assert (C : eisen_grammar.call text = None).
  { unfold eisen_grammar.call, PP.MatchFirst, eisen_grammar.shape_call,
      eisen_grammar.rule_call, PP.pbind, PP.Optional, PP.MatchFirst,
      PP.ZeroOrMore.
    rewrite L. unfold PP.pret at 1. rewrite S, M, N. reflexivity. }
  assert (G : eisen_grammar.global_md text = None).
  { unfold eisen_grammar.global_md, PP.pbind. unfold PP.tok at 1.
    rewrite H. reflexivity. }
  unfold eisen_grammar.parseString, eisen_grammar.file_def, PP.pbind at 1,
    PP.Optional, PP.MatchFirst.
  rewrite G. unfold PP.pret at 1.
  unfold PP.pbind at 1, eisen_grammar.entry, PP.pbind at 1, PP.OneOrMore,
    PP.pbind at 1.
  rewrite C. reflexivity.
Qed.

(** ** The rounds of a repetition

    [many] stops for lack of fuel only where pyparsing would go on. That
    never happens: each repeated expression of the grammar uses up at
    least one character when it matches, so the fuel [String.length s] is
    never the reason [many] stops, and more fuel changes nothing. *)

Lemma consuming_shrinking (A : Type) (p : PP.Parser A) :
  consuming p -> shrinking p.
Proof. intros H s a r E. specialize (H s a r E). lia. Qed.

Lemma many_fuel (A : Type) (p : PP.Parser A) :
  consuming p ->
  forall fuel s, String.length s <= fuel ->
                 PP.many p fuel s = PP.many p (String.length s) s.
Proof.
  intros Hp.
  assert (G : forall m s f1 f2,
             String.length s <= m -> m <= f1 -> m <= f2 ->
             PP.many p f1 s = PP.many p f2 s).
  { induction m as [|m IH]; intros s f1 f2 Hs H1 H2.
    - assert (N : p s = None).
      { destruct (p s) as [[a r]|] eqn:E; [|reflexivity].
        specialize (Hp s a r E). lia. }
      destruct f1, f2; simpl; rewrite ?N; reflexivity.
    - destruct f1 as [|f1]; [lia|]. destruct f2 as [|f2]; [lia|].
      simpl. destruct (p s) as [[a r]|] eqn:E; [|reflexivity].
      specialize (Hp s a r E).
      rewrite (IH r f1 f2); [reflexivity | lia | lia | lia]. }
  intros fuel s Hs. apply (G (String.length s)); lia.
Qed.

Lemma many_shrinking (A : Type) (p : PP.Parser A) :
  shrinking p ->
  forall fuel s l r, PP.many p fuel s = (l, r) ->
                     String.length r <= String.length s.
Proof.
  intros Hp. induction fuel as [|fuel IH]; intros s l r H; simpl in H.
  - injection H as <- <-. lia.
  - destruct (p s) as [[a r0]|] eqn:E.
    + destruct (PP.many p fuel r0) as [l' r'] eqn:M. injection H as <- <-.
      specialize (Hp s a r0 E). specialize (IH r0 l' r' M). lia.
    + injection H as <- <-. lia.
Qed.

Lemma ZeroOrMore_shrinking (A : Type) (p : PP.Parser A) :
  shrinking p -> shrinking (PP.ZeroOrMore p).
Proof.
  intros Hp s l r H. unfold PP.ZeroOrMore in H. injection H as H.
  eauto using many_shrinking.
Qed.

Lemma pbind_consuming_l (A B : Type) (p : PP.Parser A) (k : A -> PP.Parser B) :
  consuming p -> (forall a, shrinking (k a)) -> consuming (PP.pbind p k).
Proof.
  intros Hp Hk s b r H. unfold PP.pbind in H.
  destruct (p s) as [[a r0]|] eqn:E; [|discriminate].
  specialize (Hp s a r0 E). specialize (Hk a r0 b r H). lia.
Qed.

Lemma pbind_consuming_r (A B : Type) (p : PP.Parser A) (k : A -> PP.Parser B) :
  shrinking p -> (forall a, consuming (k a)) -> consuming (PP.pbind p k).
Proof.
  intros Hp Hk s b r H. unfold PP.pbind in H.
  destruct (p s) as [[a r0]|] eqn:E; [|discriminate].
  specialize (Hp s a r0 E). specialize (Hk a r0 b r H). lia.
Qed.

Lemma pbind_shrinking (A B : Type) (p : PP.Parser A) (k : A -> PP.Parser B) :
  shrinking p -> (forall a, shrinking (k a)) -> shrinking (PP.pbind p k).
Proof.
  intros Hp Hk s b r H. unfold PP.pbind in H.
  destruct (p s) as [[a r0]|] eqn:E; [|discriminate].
  specialize (Hp s a r0 E). specialize (Hk a r0 b r H). lia.
Qed.

Lemma pret_shrinking (A : Type) (a : A) : shrinking (PP.pret a).
Proof. intros s b r H. injection H as _ <-. lia. Qed.

Lemma MatchFirst_consuming (A : Type) (p q : PP.Parser A) :
  consuming p -> consuming q -> consuming (PP.MatchFirst p q).
Proof.
  intros Hp Hq s a r H. unfold PP.MatchFirst in H.
  destruct (p s) as [[a' r']|] eqn:E; [injection H as <- <-|]; eauto.
Qed.

Lemma MatchFirst_shrinking (A : Type) (p q : PP.Parser A) :
  shrinking p -> shrinking q -> shrinking (PP.MatchFirst p q).
Proof.
  intros Hp Hq s a r H. unfold PP.MatchFirst in H.
  destruct (p s) as [[a' r']|] eqn:E; [injection H as <- <-|]; eauto.
Qed.

Lemma Optional_shrinking (A : Type) (p : PP.Parser A) (d : A) :
  shrinking p -> shrinking (PP.Optional p d).
Proof. intros Hp. apply MatchFirst_shrinking; auto using pret_shrinking. Qed.

Lemma NotAny_shrinking (A : Type) (p : PP.Parser A) : shrinking (PP.NotAny p).
Proof.
  intros s a r H. unfold PP.NotAny in H.
  destruct (p s); [discriminate|]. injection H as _ <-. lia.
Qed.

Lemma OneOrMore_consuming (A : Type) (p : PP.Parser A) :
  consuming p -> consuming (PP.OneOrMore p).
Proof.
  intros Hp. unfold PP.OneOrMore. apply pbind_consuming_l; [assumption|].
  intros a. apply pbind_shrinking; auto using pret_shrinking.
  apply ZeroOrMore_shrinking. now apply consuming_shrinking.
Qed.

Lemma skip_white_le (s : string) :
  String.length (PP.skip_white s) <= String.length s.
Proof.
  induction s as [|c s IH]; simpl; [lia|].
  destruct (PP.white c); simpl; lia.
Qed.

Lemma starts_length (caseless : bool) (m s r : string) :
  PP.starts caseless m s = Some r ->
  String.length s = String.length m + String.length r.
Proof.
  revert s. induction m as [|a m IH]; intros s H; simpl in H.
  - injection H as <-. reflexivity.
  - destruct s as [|b s]; [discriminate|].
    destruct (if caseless then _ else _); [|discriminate].
    simpl. now rewrite (IH s H).
Qed.

Lemma span_le (chars s w r : string) :
  PP.span chars s = (w, r) -> String.length r <= String.length s.
Proof.
  revert w r. induction s as [|c s IH]; intros w r H; simpl in H.
  - injection H as <- <-. simpl. lia.
  - destruct (PP.mem c chars).
    + destruct (PP.span chars s) as [w' r'] eqn:E. injection H as <- <-.
      specialize (IH w' r' eq_refl). simpl. lia.
    + injection H as <- <-. simpl. lia.
Qed.

Lemma Word_consuming (init body : string) : consuming (PP.Word init body).
Proof.
  intros s w r H. unfold PP.Word in H. destruct s as [|c s]; [discriminate|].
  destruct (PP.mem c init); [|discriminate].
  destruct (PP.span body s) as [w' r'] eqn:E. injection H as <- <-.
  apply span_le in E. simpl. lia.
Qed.

Lemma Literal_consuming (a : ascii) (m : string) :
  consuming (PP.Literal (String a m)).
Proof.
  intros s w r H. unfold PP.Literal in H.
  destruct (PP.starts false (String a m) s) as [r0|] eqn:E; [|discriminate].
  injection H as <- <-. apply starts_length in E. simpl in E. lia.
Qed.

Lemma CaselessLiteral_length (m s w r : string) :
  PP.CaselessLiteral m s = Some (w, r) ->
  String.length s = String.length m + String.length r.
Proof.
  unfold PP.CaselessLiteral.
  destruct (PP.starts true m s) as [r0|] eqn:E; [|discriminate].
  intros H. injection H as <- <-. now apply starts_length in E.
Qed.

Lemma CaselessKeyword_consuming (a : ascii) (m : string) :
  consuming (PP.CaselessKeyword (String a m)).
Proof.
  intros s w r H. unfold PP.CaselessKeyword in H.
  destruct (PP.starts true (String a m) s) as [r0|] eqn:E; [|discriminate].
  apply starts_length in E. simpl in E.
  destruct r0 as [|c r0]; [|destruct (PP.mem (PP.upper c) PP.identChars)];
    try discriminate; injection H as <- <-; lia.
Qed.

Lemma first_of_consuming (syms : list string) :
  forallb Py.truthy syms = true -> consuming (PP.first_of syms).
Proof.
  induction syms as [|m syms IH]; simpl; intros F.
  - intros s a r H. discriminate.
  - apply andb_prop in F as [Hm F].
    apply MatchFirst_consuming; [|exact (IH F)].
    intros s w r H. apply CaselessLiteral_length in H.
    destruct m; [discriminate|]. simpl in H. lia.
Qed.

Lemma block_end_lt (s r : string) :
  PP.block_end s = Some r -> String.length r < String.length s.
Proof.
  revert r. induction s as [|c s IH]; intros r H; [discriminate|].
  assert (D : (exists s', c = "*"%char /\ s = String "/" s' /\ r = s')
              \/ PP.block_end s = Some r).
  { simpl in H.
    destruct (Ascii.eqb c "*") eqn:Ec.
    - apply Ascii.eqb_eq in Ec. subst c.
      destruct s as [|d s']; [right; exact H|].
      destruct (Ascii.eqb d "/") eqn:Ed.
      + apply Ascii.eqb_eq in Ed. subst d. left. exists s'.
        injection H as <-. auto.
      + right. destruct d as [[] [] [] [] [] [] [] []];
          try discriminate Ed; exact H.
    - right. destruct c as [[] [] [] [] [] [] [] []];
        try discriminate Ec; exact H. }
  destruct D as [(s' & -> & -> & ->) | D].
  - simpl. lia.
  - specialize (IH r D). simpl. lia.
Qed.

Lemma line_end_le (b : bool) (s : string) :
  String.length (PP.line_end b s) <= String.length s.
Proof.
  revert b. induction s as [|c s IH]; intros b; simpl; [lia|].
  destruct (Ascii.eqb c "010").
  - destruct b; [specialize (IH false)|]; simpl; lia.
  - specialize (IH (Ascii.eqb c "\")). lia.
Qed.

Lemma cppStyleComment_consuming : consuming PP.cppStyleComment.
Proof.
  intros s a r H. unfold PP.cppStyleComment in H.
  destruct s as [|c s]; [discriminate|].
  destruct s as [|d s].
  { destruct c as [[] [] [] [] [] [] [] []]; discriminate. }
  assert (D : (PP.block_end s = Some r) \/ r = PP.line_end false s).
  { destruct (Ascii.eqb c "/") eqn:Ec.
    - apply Ascii.eqb_eq in Ec. subst c.
      destruct (Ascii.eqb d "*") eqn:Ed.
      + apply Ascii.eqb_eq in Ed. subst d. left.
        destruct (PP.block_end s); [|discriminate]. now injection H as _ <-.
      + destruct (Ascii.eqb d "/") eqn:Ed2.
        * apply Ascii.eqb_eq in Ed2. subst d. right. now injection H as _ <-.
        * destruct d as [[] [] [] [] [] [] [] []];
            try discriminate Ed; try discriminate Ed2; discriminate H.
    - destruct c as [[] [] [] [] [] [] [] []];
        try discriminate Ec; discriminate H. }
  destruct D as [D | ->].
  - apply block_end_lt in D. simpl. lia.
  - pose proof (line_end_le false s). simpl. lia.
Qed.

Lemma restOfLine_end_le (s : string) :
  String.length (PP.restOfLine_end s) <= String.length s.
Proof.
  induction s as [|c s IH]; simpl; [lia|].
  destruct (Ascii.eqb c "010"); simpl; lia.
Qed.

Lemma set_ignore_consuming : consuming PP.set_ignore.
Proof.
  intros s a r H. unfold PP.set_ignore, PP.pbind, PP.restOfLine in H.
  destruct (PP.CaselessKeyword "set" (PP.skip_white s)) as [[w r0]|] eqn:K;
    [|discriminate].
  destruct (PP.oneOf_at PP.set_words (PP.skip_white r0)) as [[w1 r1]|] eqn:W;
    [|discriminate].
  injection H as _ <-.
  apply CaselessKeyword_consuming in K.
  assert (C : consuming (PP.oneOf_at PP.set_words))
    by (unfold PP.oneOf_at; apply first_of_consuming; vm_compute; reflexivity).
  apply C in W.
  pose proof (skip_white_le s). pose proof (skip_white_le r0).
  pose proof (restOfLine_end_le r1). lia.
Qed.

Lemma skip_ignorables_le (fuel : nat) (s : string) :
  String.length (PP.skip_ignorables fuel s) <= String.length s.
Proof.
  revert s. induction fuel as [|fuel IH]; intros s; simpl; [lia|].
  destruct (PP.cppStyleComment (PP.skip_white s)) as [[u r]|] eqn:C.
  - apply cppStyleComment_consuming in C.
    pose proof (skip_white_le s). specialize (IH r). lia.
  - destruct (PP.set_ignore s) as [[u r]|] eqn:S; [|lia].
    apply set_ignore_consuming in S. specialize (IH r). lia.
Qed.

Lemma skip_le (s : string) : String.length (PP.skip s) <= String.length s.
Proof.
  unfold PP.skip.
  pose proof (skip_white_le (PP.skip_ignorables (String.length s) s)).
  pose proof (skip_ignorables_le (String.length s) s). lia.
Qed.

Lemma tok_consuming (A : Type) (p : PP.Parser A) :
  consuming p -> consuming (PP.tok p).
Proof.
  intros Hp s a r H. unfold PP.tok in H. specialize (Hp _ a r H).
  pose proof (skip_le s). lia.
Qed.

Lemma oneOf_consuming (strs : string) :
  forallb Py.truthy (PP.oneOf_symbols (PP.split strs)) = true ->
  consuming (PP.oneOf strs).
Proof.
  intros H. unfold PP.oneOf, PP.oneOf_at. apply tok_consuming.
  now apply first_of_consuming.
Qed.

Lemma fnum_consuming : consuming eisen_grammar.fnum.
Proof. apply tok_consuming, Word_consuming. Qed.

Lemma tvalues_shrinking : shrinking eisen_grammar.tvalues.
Proof.
  apply consuming_shrinking, OneOrMore_consuming, fnum_consuming.
Qed.

Lemma trans_consuming : consuming eisen_grammar.trans.
Proof.
  unfold eisen_grammar.trans.
  repeat apply MatchFirst_consuming.
  - apply pbind_consuming_l; [now apply oneOf_consuming|].
    intros t. apply pbind_shrinking; [exact tvalues_shrinking|].
    intros v. apply pret_shrinking.
  - apply pbind_consuming_l; [now apply oneOf_consuming|].
    intros t. apply pbind_shrinking; [exact tvalues_shrinking|].
    intros v. apply pret_shrinking.
  - apply pbind_consuming_l;
      [apply tok_consuming, CaselessKeyword_consuming|].
    intros _. apply pbind_shrinking;
      [apply consuming_shrinking, tok_consuming, Word_consuming|].
    intros _. apply pret_shrinking.
  - apply pbind_consuming_l;
      [apply tok_consuming, CaselessKeyword_consuming|].
    intros _. apply pbind_shrinking;
      [apply consuming_shrinking, tok_consuming, Word_consuming|].
    intros _. apply pbind_shrinking;
      [apply consuming_shrinking, fnum_consuming|].
    intros _. apply pret_shrinking.
Qed.

Lemma loop_consuming : consuming eisen_grammar.loop.
Proof.
  unfold eisen_grammar.loop.
  apply pbind_consuming_r.
  - apply Optional_shrinking. unfold eisen_grammar.loop_multiplier.
    apply pbind_shrinking; [apply consuming_shrinking, fnum_consuming|].
    intros c. apply pbind_shrinking;
      [apply consuming_shrinking, tok_consuming, Literal_consuming|].
    intros _. apply pret_shrinking.
  - intros c. apply pbind_consuming_l;
      [apply tok_consuming, Literal_consuming|].
    intros _. apply pbind_shrinking;
      [apply ZeroOrMore_shrinking, consuming_shrinking, trans_consuming|].
    intros ts. apply pbind_shrinking;
      [apply consuming_shrinking, tok_consuming, Literal_consuming|].
    intros _. apply pret_shrinking.
Qed.

Lemma rule_name_consuming : consuming eisen_grammar.rule_name.
Proof.
  unfold eisen_grammar.rule_name.
  apply pbind_consuming_r; [apply NotAny_shrinking|].
  intros _. apply tok_consuming, Word_consuming.
Qed.

Lemma shape_consuming : consuming eisen_grammar.shape.
Proof.
  unfold eisen_grammar.shape. apply tok_consuming.
  apply pbind_consuming_l.
  - unfold PP.oneOf_at. now apply first_of_consuming.
  - intros w. apply pbind_shrinking.
    + apply Optional_shrinking, consuming_shrinking, Word_consuming.
    + intros x. apply pret_shrinking.
Qed.

Lemma call_consuming : consuming eisen_grammar.call.
Proof.
  unfold eisen_grammar.call. apply MatchFirst_consuming.
  - unfold eisen_grammar.shape_call. apply pbind_consuming_r.
    + apply Optional_shrinking. apply pbind_shrinking;
        [apply consuming_shrinking, loop_consuming|].
      intros x. apply pret_shrinking.
    + intros l. apply pbind_consuming_l; [exact shape_consuming|].
      intros s. apply pret_shrinking.
  - unfold eisen_grammar.rule_call. apply pbind_consuming_r.
    + apply ZeroOrMore_shrinking, consuming_shrinking, loop_consuming.
    + intros l. apply pbind_consuming_l; [exact rule_name_consuming|].
      intros r. apply pret_shrinking.
Qed.

Lemma each_round_shrinking (A : Type) (exprs : list (PP.LoopExpr A)) :
  Forall (fun e => shrinking (snd e)) exprs ->
  forall s got failed r,
    PP.each_round exprs s = (got, failed, r) ->
    String.length r <= String.length s /\
    Forall (fun e => shrinking (snd e)) failed.
Proof.
  induction 1 as [|e rest He _ IH]; intros s got failed r; cbn [PP.each_round].
  - intros E. injection E as _ <- <-. auto.
  - destruct (snd e s) as [[a r0]|] eqn:P.
    + destruct (PP.each_round rest r0) as [[g f] r1] eqn:R.
      intros E. injection E as _ <- <-.
      destruct (IH _ _ _ _ R) as [L F]. apply He in P. split; [lia|exact F].
    + destruct (PP.each_round rest s) as [[g f] r1] eqn:R.
      intros E. injection E as _ <- <-.
      destruct (IH _ _ _ _ R) as [L F]. split; [exact L|]. now constructor.
Qed.

Lemma each_rounds_shrinking (A : Type) (fuel : nat) :
  forall exprs : list (PP.LoopExpr A),
    Forall (fun e => shrinking (snd e)) exprs ->
    forall s got remaining r,
      PP.each_rounds fuel exprs s = (got, remaining, r) ->
      String.length r <= String.length s /\
      Forall (fun e => shrinking (snd e)) remaining.
Proof.
  induction fuel as [|fuel IH]; intros exprs F s got remaining r;
    cbn [PP.each_rounds].
  - intros E. injection E as _ <- <-. auto.
  - destruct (PP.each_round exprs s) as [[g f] r0] eqn:R.
    destruct (each_round_shrinking _ _ F _ _ _ _ R) as [L Ff].
    destruct (length f =? length exprs)%nat.
    + intros E. injection E as _ <- <-. auto.
    + destruct (PP.each_rounds fuel f r0) as [[g' f'] r1] eqn:R'.
      intros E. injection E as _ <- <-.
      destruct (IH _ Ff _ _ _ _ R') as [L' F']. split; [lia|exact F'].
Qed.

Lemma in_order_shrinking (A : Type) (ps : list (PP.Parser (list A))) :
  Forall shrinking ps ->
  forall s l r, PP.in_order ps s = Some (l, r) ->
                String.length r <= String.length s.
Proof.
  induction 1 as [|p ps Hp _ IH]; intros s l r; cbn [PP.in_order].
  - intros E. now injection E as _ <-.
  - destruct (p s) as [[a r0]|] eqn:P; [|discriminate].
    destruct (PP.in_order ps r0) as [[l' r1]|] eqn:R; [|discriminate].
    intros E. injection E as _ <-.
    apply Hp in P. apply IH in R. lia.
Qed.

Lemma Each_Optional_shrinking (A : Type) (es : list (PP.Parser (list A))) :
  Forall shrinking es -> shrinking (PP.Each_Optional es).
Proof.
  intros F s a r. unfold PP.Each_Optional.
  destruct (PP.each_rounds _ _ s) as [[got remaining] r0] eqn:R.
  apply each_rounds_shrinking in R.
  - destruct R as [L Fr].
    destruct (PP.in_order _ r0) as [[got' r1]|] eqn:I; [|discriminate].
    intros E. injection E as _ <-.
    apply in_order_shrinking in I; [lia|].
    apply Forall_forall. intros p Hp. apply in_map_iff in Hp.
    destruct Hp as (e & <- & He). apply filter_In in He. destruct He as [He _].
    rewrite Forall_forall in Fr. apply Optional_shrinking. now apply Fr.
  - apply Forall_app. split; apply Forall_forall; intros e He;
      apply in_map_iff in He; destruct He as (p & <- & Hp);
      rewrite Forall_forall in F; cbn [snd];
      [|apply Optional_shrinking]; now apply F.
Qed.

Lemma md_mod_shrinking : shrinking eisen_grammar.md_mod.
Proof.
  unfold eisen_grammar.md_mod.
  apply pbind_shrinking;
    [now apply consuming_shrinking, oneOf_consuming|].
  intros _. apply pbind_shrinking;
    [apply consuming_shrinking, fnum_consuming|].
  intros d. apply pbind_shrinking; [|intros x; apply pret_shrinking].
  apply Optional_shrinking. apply pbind_shrinking;
    [apply consuming_shrinking, tok_consuming, Literal_consuming|].
  intros _. apply pbind_shrinking;
    [apply consuming_shrinking, rule_name_consuming|].
  intros x. apply pret_shrinking.
Qed.

Lemma w_mod_shrinking : shrinking eisen_grammar.w_mod.
Proof.
  unfold eisen_grammar.w_mod.
  apply pbind_shrinking;
    [now apply consuming_shrinking, oneOf_consuming|].
  intros _. apply consuming_shrinking, fnum_consuming.
Qed.

Lemma modifiers_shrinking : shrinking eisen_grammar.modifiers.
Proof.
  unfold eisen_grammar.modifiers. apply Each_Optional_shrinking.
  constructor; [|constructor; [|constructor]].
  - apply pbind_shrinking; [exact md_mod_shrinking|].
    intros [d succ]. apply pret_shrinking.
  - apply pbind_shrinking; [exact w_mod_shrinking|].
    intros w. apply pret_shrinking.
Qed.

Lemma rule_consuming : consuming eisen_grammar.rule.
Proof.
  intros s p r H. unfold eisen_grammar.rule, PP.pbind in H.
  destruct (PP.tok (PP.CaselessKeyword "rule") s) as [[w r0]|] eqn:K;
    [|discriminate].
  apply (tok_consuming _ _ (CaselessKeyword_consuming _ _)) in K.
  destruct (eisen_grammar.rule_name r0) as [[nm r1]|] eqn:N; [|discriminate].
  apply rule_name_consuming in N.
  destruct (eisen_grammar.modifiers r1) as [[ms r2]|] eqn:Mo; [|discriminate].
  apply modifiers_shrinking in Mo.
  destruct (PP.tok (PP.Literal "{") r2) as [[b r3]|] eqn:L; [|discriminate].
  apply (tok_consuming _ _ (Literal_consuming _ _)) in L.
  destruct (PP.OneOrMore eisen_grammar.call r3) as [[calls r4]|] eqn:C;
    [|discriminate].
  apply (OneOrMore_consuming _ _ call_consuming) in C.
  destruct (PP.tok (PP.Literal "}") r4) as [[b' r5]|] eqn:R; [|discriminate].
  apply (tok_consuming _ _ (Literal_consuming _ _)) in R.
  injection H as _ <-. lia.
Qed.

(** Every repetition of the grammar is over a consuming expression. *)
Lemma grammar_repetitions_consume :
  consuming eisen_grammar.fnum /\ consuming eisen_grammar.trans /\
  consuming eisen_grammar.loop /\ consuming eisen_grammar.call /\
  consuming eisen_grammar.rule.
Proof.
  auto using fnum_consuming, trans_consuming, loop_consuming, call_consuming,
    rule_consuming.
Qed.

(** The same for what is skipped before a token. *)
Lemma skip_ignorables_fuel (fuel : nat) (s : string) :
  String.length s <= fuel ->
  PP.skip_ignorables fuel s = PP.skip_ignorables (String.length s) s.
Proof.
  assert (G : forall m s f1 f2,
             String.length s <= m -> m <= f1 -> m <= f2 ->
             PP.skip_ignorables f1 s = PP.skip_ignorables f2 s).
  { induction m as [|m IH]; intros t f1 f2 Hs H1 H2.
    - destruct t as [|c t]; [|simpl in Hs; lia].
      destruct f1, f2; reflexivity.
    - destruct f1 as [|f1]; [lia|]. destruct f2 as [|f2]; [lia|].
      simpl.
      destruct (PP.cppStyleComment (PP.skip_white t)) as [[u r]|] eqn:C.
      + apply cppStyleComment_consuming in C.
        pose proof (skip_white_le t). apply IH; lia.
      + destruct (PP.set_ignore t) as [[u r]|] eqn:S; [|reflexivity].
        apply set_ignore_consuming in S. apply IH; lia. }
  intros Hs. apply (G (String.length s)); lia.
Qed.

(** ** The indices [es_xml2] takes, and the rules it makes *)

Lemma calls_site_bcall (pcalls : list ParseResults) (k : nat) :
  exists x, calls_site true pcalls k = Return x.
Proof.
  revert k. induction pcalls as [|pc rest IH]; intros k; simpl; [eauto|].
  destruct (call_site true pc (shape pc) k) as [[c rs] k1].
  destruct (IH k1) as [[[cs rs'] k2] ->]. eauto.
Qed.

Lemma calls_site_rcall (pcalls : list ParseResults) (k : nat) :
  match calls_site false pcalls k with
  | Return _ => forallb has_rule_name pcalls = true
  | Raise e => e = IndexError /\ forallb has_rule_name pcalls = false
  end.
Proof.
  revert k. induction pcalls as [|pc rest IH]; intros k; simpl; [reflexivity|].
  unfold has_rule_name at 1 3.
  destruct (rule_name pc) as [|v vs]; simpl; [auto|].
  destruct (call_site false pc v k) as [[c rs] k1].
  specialize (IH k1).
  destruct (calls_site false rest k1) as [[[cs rs'] k2]|e]; exact IH.
Qed.

Lemma group_site_cases (p : RuleResults) (k : nat) :
  match group_site p k with
  | Return _ => forallb has_rule_name (rcall p) = true
  | Raise e => e = IndexError /\ forallb has_rule_name (rcall p) = false
  end.
Proof.
  unfold group_site.
  destruct (calls_site_bcall (bcall p) k) as [[[cs1 rs1] k1] ->].
  pose proof (calls_site_rcall (rcall p) k1) as H.
  destruct (calls_site false (rcall p) k1) as [[[cs2 rs2] k2]|e]; exact H.
Qed.

Lemma groups_site_cases (ps : list RuleResults) (k : nat) :
  match groups_site ps k with
  | Return _ => forallb (fun p => forallb has_rule_name (rcall p)) ps = true
  | Raise e => e = IndexError /\
               forallb (fun p => forallb has_rule_name (rcall p)) ps = false
  end.
Proof.
  revert k. induction ps as [|p rest IH]; intros k; simpl; [reflexivity|].
  pose proof (group_site_cases p k) as H.
  destruct (group_site p k) as [[[cs rs] k1]|e].
  - rewrite H. simpl. specialize (IH k1).
    destruct (groups_site rest k1) as [[[cs' rs'] k2]|e]; exact IH.
  - destruct H as [-> ->]. auto.
Qed.

Lemma defs_site_cases (defs : list RuleResults) (k : nat) :
  match defs_site defs k with
  | Return _ =>
      forallb (fun p => has_name p && forallb has_rule_name (rcall p)) defs = true
  | Raise e =>
      e = IndexError /\
      forallb (fun p => has_name p && forallb has_rule_name (rcall p)) defs = false
  end.
Proof.
  revert k. induction defs as [|p rest IH]; intros k; simpl; [reflexivity|].
  unfold def_site, has_name at 1 3.
  destruct (name p) as [|nm nms]; simpl; [auto|].
  pose proof (group_site_cases p k) as H.
  destruct (group_site p k) as [[[cs rs] k1]|e].
  - rewrite H. simpl. specialize (IH k1).
    destruct (defs_site rest k1) as [[els' k2]|e]; exact IH.
  - destruct H as [-> ->]. auto.
Qed.

(** X1. [es_xml2] raises nothing but [IndexError], and it raises it exactly
    when an index it takes is out of range: an [rcall] without a rule name,
    an empty [rule_defs], or a rule definition without a name. *)
Theorem es_xml2_index_error (results : FileResults) :
  match es_xml2 results with
  | Return _ => indexable results = true
  | Raise e => e = IndexError /\ indexable results = false
  end.
Proof.
  rewrite es_xml2_document. unfold document, indexable.
  pose proof (groups_site_cases (entry_calls results) 0) as G.
  destruct (groups_site (entry_calls results) 0) as [[[cs rs] k]|e].
  - rewrite G. simpl.
    destruct (rule_defs results) as [|defs more]; [auto|].
    pose proof (defs_site_cases defs k) as D.
    destruct (defs_site defs k) as [[els k']|e]; exact D.
  - destruct G as [-> ->]. auto.
Qed.

Lemma call_site_shape (b : bool) (pc : ParseResults) (v : string) (k : nat)
      (c : Element) (rs : list Element) (k' : nat) :
  call_site b pc v k = (c, rs, k') ->
  tag c = call_type_of b /\ children c = [] /\ Forall instances_first rs.
Proof.
  unfold call_site.
  destruct (loop pc) as [|l0 [|l1 more]]; intros H; injection H as <- <- _;
    repeat split; auto.
  constructor; [|constructor]. exists 0, 1. reflexivity.
Qed.

Lemma calls_site_shape (b : bool) (pcalls : list ParseResults) (k : nat)
      (cs rs : list Element) (k' : nat) :
  calls_site b pcalls k = Return (cs, rs, k') ->
  map tag cs = repeat (call_type_of b) (length pcalls) /\
  Forall instances_first rs.
Proof.
  revert k cs rs k'. induction pcalls as [|pc rest IH]; intros k cs rs k'; simpl.
  - intros H. injection H as <- <- _. auto.
  - destruct (atr_value_of b pc) as [v|]; [|discriminate].
    destruct (call_site b pc v k) as [[c rs0] k1] eqn:C.
    destruct (calls_site b rest k1) as [[[cs' rs'] k2]|e] eqn:R; [|discriminate].
    intros H. injection H as <- <- _.
    destruct (call_site_shape _ _ _ _ _ _ _ C) as (T & _ & F).
    destruct (IH _ _ _ _ R) as [T' F'].
    split; [simpl; now rewrite T, T'|].
    apply Forall_app. auto.
Qed.

Lemma group_site_shape (p : RuleResults) (k : nat)
      (cs rs : list Element) (k' : nat) :
  group_site p k = Return (cs, rs, k') ->
  map tag cs = (repeat "instance" (length (bcall p)) ++
                repeat "call" (length (rcall p)))%list /\
  Forall instances_first rs.
Proof.
  unfold group_site.
  destruct (calls_site true (bcall p) k) as [[[cs1 rs1] k1]|e] eqn:B; [|discriminate].
  destruct (calls_site false (rcall p) k1) as [[[cs2 rs2] k2]|e] eqn:R; [|discriminate].
  intros H. injection H as <- <- _.
  destruct (calls_site_shape _ _ _ _ _ _ B) as [T1 F1].
  destruct (calls_site_shape _ _ _ _ _ _ R) as [T2 F2].
  split; [now rewrite map_app, T1, T2 | apply Forall_app; auto].
Qed.

Lemma rule_header_children (p : RuleResults) (nm : string) :
  tag (rule_header p nm) = "rule" /\ children (rule_header p nm) = [].
Proof.
  unfold rule_header.
  destruct (named_truthy (wm p)), (named_truthy (md p)), (successor_rule p); auto.
Qed.

Lemma def_site_shape (p : RuleResults) (k : nat) (els : list Element) (k' : nat) :
  def_site p k = Return (els, k') -> Forall instances_first els.
Proof.
  unfold def_site. destruct (name p) as [|nm nms]; [discriminate|].
  destruct (group_site p k) as [[[cs rs] k1]|e] eqn:G; [|discriminate].
  intros H. injection H as <- _.
  destruct (group_site_shape _ _ _ _ _ G) as [T F].
  constructor; [|exact F].
  exists (length (bcall p)), (length (rcall p)).
  unfold add_calls. cbn [children].
  destruct (rule_header_children p nm) as [_ ->]. exact T.
Qed.

Lemma defs_site_shape (defs : list RuleResults) (k : nat)
      (els : list Element) (k' : nat) :
  defs_site defs k = Return (els, k') -> Forall instances_first els.
Proof.
  revert k els k'. induction defs as [|p rest IH]; intros k els k'; simpl.
  - intros H. injection H as <- _. constructor.
  - destruct (def_site p k) as [[els0 k1]|e] eqn:D; [|discriminate].
    destruct (defs_site rest k1) as [[els1 k2]|e] eqn:R; [|discriminate].
    intros H. injection H as <- _.
    apply Forall_app. eauto using def_site_shape.
Qed.

(** X2. In the document of a source text, every rule lists its [instance]
    elements before its [call] elements: the builder goes through the shape
    calls of a rule first and through its rule calls afterwards, whatever
    their order in the source. *)
Theorem instances_before_calls (text : string) (results : FileResults)
        (doc : Element) :
  eisen_grammar.parseString text = Return results ->
  es_xml2 results = Return doc ->
  Forall instances_first (children doc).
Proof.
  unfold eisen_grammar.parseString.
  destruct (eisen_grammar.file_def text) as [[res r]|] eqn:F; [|discriminate].
  intros H. injection H as ->.
  destruct (file_def_wf _ _ _ F) as (e & p & defs & He & _ & Hd & _).
  rewrite es_xml2_document. unfold document. rewrite He, Hd.
  cbn [groups_site].
  destruct (group_site e 0) as [[[cs rs] k]|x] eqn:G; [|discriminate].
  destruct (defs_site (p :: defs) k) as [[els k']|x] eqn:D; [|discriminate].
  intros H. injection H as <-. cbn [children].
  destruct (group_site_shape _ _ _ _ _ G) as [T Fr].
  rewrite !app_nil_r.
  constructor.
  - exists (length (bcall e)), (length (rcall e)). exact T.
  - apply Forall_app. eauto using defs_site_shape.
Qed.

Lemma instances_before_calls_witness :
  exists doc,
    es_xml2 call_before_shape = Return doc /\
    map (fun rule => map tag (children rule)) (children doc)
    = [["call"]; ["instance"; "call"]] /\
    Forall instances_first (children doc).
Proof.
  eexists. split; [vm_compute; reflexivity|]. split; [reflexivity|].
  apply (instances_before_calls call_before_shape_text call_before_shape);
    vm_compute; reflexivity.
Defined.

Lemma rule_header_get (p : RuleResults) (nm : string) :
  elem_get (rule_header p nm) "name" = Some nm /\
  elem_get (rule_header p nm) "weight"
  = (if named_truthy (wm p) then Some (named_str (wm p)) else None) /\
  elem_get (rule_header p nm) "max_depth"
  = (if named_truthy (md p) then Some (named_str (md p)) else None) /\
  elem_get (rule_header p nm) "successor" = hd_error (successor_rule p).
Proof.
  unfold rule_header.
  destruct (named_truthy (wm p)), (named_truthy (md p)), (successor_rule p);
    repeat split; reflexivity.
Qed.

Lemma calls_site_length (b : bool) (pcalls : list ParseResults) (k : nat)
      (cs rs : list Element) (k' : nat) :
  calls_site b pcalls k = Return (cs, rs, k') -> length cs = length pcalls.
Proof.
  intros H. apply calls_site_shape in H. destruct H as [T _].
  rewrite <- (length_map tag), T. apply repeat_length.
Qed.

Lemma defs_site_members (defs : list RuleResults) (k : nat)
      (els : list Element) (k' : nat) :
  defs_site defs k = Return (els, k') ->
  forall p, In p defs ->
  exists nm nms cs,
    name p = nm :: nms /\ In (add_calls (rule_header p nm) cs) els /\
    map tag cs = (repeat "instance" (length (bcall p)) ++
                  repeat "call" (length (rcall p)))%list.
Proof.
  revert k els k'. induction defs as [|q rest IH]; intros k els k'; simpl.
  - intros _ p [].
  - destruct (def_site q k) as [[els0 k1]|e] eqn:D; [|discriminate].
    destruct (defs_site rest k1) as [[els1 k2]|e] eqn:R; [|discriminate].
    intros H. injection H as <- _. intros p [<-|I].
    + unfold def_site in D. destruct (name q) as [|nm nms]; [discriminate|].
      destruct (group_site q k) as [[[cs rs] k3]|e] eqn:G; [|discriminate].
      injection D as <- _.
      exists nm, nms, cs. split; [reflexivity|].
      split; [left; reflexivity|].
      exact (proj1 (group_site_shape _ _ _ _ _ G)).
    + destruct (IH _ _ _ R p I) as (nm & nms & cs & N & M & T).
      exists nm, nms, cs. split; [exact N|]. split; [|exact T].
      apply in_or_app. right. exact M.
Qed.

(** X3. Every rule definition of the parse results has its rule element in
    the document: the element is named after the definition and holds one
    element for each of the definition's calls; it has the attributes
    [weight] and [max_depth] exactly when the definition has the modifier,
    with the modifier's value or, for a modifier that [Each] has read
    twice, with the text of the list of both values; and it has
    [successor] exactly when a successor is given, with the first one. *)
Theorem definition_has_rule
        (results : FileResults) (doc : Element)
        (defs : list RuleResults) (more : list (list RuleResults))
        (p : RuleResults) :
  es_xml2 results = Return doc ->
  rule_defs results = defs :: more ->
  In p defs ->
  exists rule : Element,
    In rule (children doc) /\
    tag rule = "rule" /\
    elem_get rule "name" = hd_error (name p) /\
    elem_get rule "weight"
    = match wm p with
      | [] => None
      | [w] => if Py.truthy w then Some w else None
      | _ :: _ :: _ => Some (Py.str_list (wm p))
      end /\
    elem_get rule "max_depth"
    = match md p with
      | [] => None
      | [d] => if Py.truthy d then Some d else None
      | _ :: _ :: _ => Some (Py.str_list (md p))
      end /\
    elem_get rule "successor" = hd_error (successor_rule p) /\
    map tag (children rule)
    = (repeat "instance" (length (bcall p)) ++ repeat "call" (length (rcall p)))%list.
Proof.
  rewrite es_xml2_document. unfold document. intros H Hd I. rewrite Hd in H.
  destruct (groups_site (entry_calls results) 0) as [[[cs rs] k]|x]; [|discriminate].
  destruct (defs_site defs k) as [[els k']|x] eqn:D; [|discriminate].
  injection H as <-. cbn [children].
  destruct (defs_site_members _ _ _ _ D p I) as (nm & nms & cs' & N & M & T).
  exists (add_calls (rule_header p nm) cs').
  destruct (rule_header_get p nm) as (G1 & G2 & G3 & G4).
  destruct (rule_header_children p nm) as [Tg Ch].
  split; [right; apply in_or_app; right; exact M|].
  rewrite N. unfold add_calls, elem_get. cbn [tag attrib children hd_error].
  rewrite Ch. unfold elem_get in G1, G2, G3, G4.
  split; [exact Tg|]. split; [exact G1|].
  split; [rewrite G2; destruct (wm p) as [|w [|w' ws]]; reflexivity|].
  split; [rewrite G3; destruct (md p) as [|d [|d' ds]]; reflexivity|].
  split; [exact G4 | exact T].
Qed.

Lemma definition_has_rule_witness :
  exists doc rule : Element,
    es_xml2 doubled_modifiers = Return doc /\
    In rule (children doc) /\
    elem_get rule "name" = Some "a" /\
    elem_get rule "weight" = Some "['2', '4']" /\
    elem_get rule "max_depth" = Some "['1', '3']" /\
    elem_get rule "successor" = Some "b" /\
    map tag (children rule) = ["instance"; "call"].
Proof.
  destruct (es_xml2 doubled_modifiers) as [doc|e] eqn:X;
    [|vm_compute in X; discriminate].
  destruct (definition_has_rule doubled_modifiers doc
              [mkRule ["a"] ["2"; "4"] ["1"; "3"] ["b"]
                 [mkResults [] [] "" "box" []]
                 [mkResults [] [] "" "" ["a"]]]
              []
              (mkRule ["a"] ["2"; "4"] ["1"; "3"] ["b"]
                 [mkResults [] [] "" "box" []]
                 [mkResults [] [] "" "" ["a"]])
              X eq_refl (or_introl eq_refl))
    as (rule & I & _ & N & W & M & S & C).
  exists doc, rule. repeat split; assumption.
Defined.

(** X4. A call wrapped in exactly one loop adds one element to the rule it
    is called from, with the transforms and the count of that loop and the
    call's own target; no rule is added to the document and the counter is
    not advanced. *)
Theorem es_call_one_loop
        (T : string) (A : list (string * string)) (pre post : list Element)
        (x : Element) (pcall only : ParseResults) (is_bcall : bool)
        (v : string) (k : nat) :
  loop pcall = [only] ->
  atr_value_of is_bcall pcall = Some v ->
  exists call : Element,
    es_call [length pre] pcall is_bcall (mkState (Elem T A (pre ++ x :: post)) k)
    = Return (tt, mkState (Elem T A (pre ++ elem_append call x :: post)) k) /\
    tag call = call_type_of is_bcall /\
    children call = [] /\
    elem_get call "transforms" = Some (trans_str (trans only)) /\
    elem_get call "count"
    = (if Py.truthy (count only) then Some (count only) else None) /\
    elem_get call (atr_name_of is_bcall) = Some v.
Proof.
  intros L V.
  exists (mk_call (call_type_of is_bcall) (atr_name_of is_bcall) only v).
  split.
  - rewrite (es_call_run T A pre post x pcall is_bcall v k V).
    unfold call_site. rewrite L. now rewrite app_nil_r.
  - destruct (mk_call_get (call_type_of is_bcall) (atr_name_of is_bcall) only v
                (atr_name_cases is_bcall)) as (H1 & H2 & H3 & H4 & H5).
    repeat split; assumption.
Qed.

Lemma es_call_one_loop_witness :
  exists call : Element,
    es_call [0] (mkResults [mkResults [] [mkTrans "x" ["1"]] "4" "" []] [] "" "box" [])
            true
            (mkState (Elem "rules" [] [Elem "rule" [("name", "entry")] []]) 7)
    = Return (tt, mkState (Elem "rules" []
                [elem_append call (Elem "rule" [("name", "entry")] [])]) 7) /\
    tag call = "instance" /\
    elem_get call "transforms" = Some "tx 1" /\
    elem_get call "count" = Some "4" /\
    elem_get call "shape" = Some "box".
Proof.
  destruct (es_call_one_loop "rules" [] [] [] (Elem "rule" [("name", "entry")] [])
              (mkResults [mkResults [] [mkTrans "x" ["1"]] "4" "" []] [] "" "box" [])
              (mkResults [] [mkTrans "x" ["1"]] "4" "" []) true "box" 7
              eq_refl eq_refl)
    as (call & R & T & _ & Tr & C & S).
  exists call. repeat split; assumption.
Defined.

(** ** Documents without made-up rules *)

Lemma calls_site_flat (b : bool) (pcalls : list ParseResults) (k : nat)
      (cs rs : list Element) (k' : nat) :
  forallb (fun c => negb (nested c)) pcalls = true ->
  calls_site b pcalls k = Return (cs, rs, k') -> rs = [] /\ k' = k.
Proof.
  revert k cs rs k'. induction pcalls as [|pc rest IH]; intros k cs rs k' F; simpl.
  - intros H. injection H as _ <- <-. auto.
  - cbn [forallb] in F. apply andb_prop in F as [Fp Fr].
    destruct (atr_value_of b pc) as [v|]; [|discriminate].
    unfold call_site. unfold nested in Fp.
    destruct (loop pc) as [|l0 [|l1 more]]; [| |discriminate];
      (destruct (calls_site b rest k) as [[[cs' rs'] k2]|e] eqn:R; [|discriminate]);
      intros H; injection H as _ <- <-; exact (IH _ _ _ _ Fr R).
Qed.

Lemma group_site_flat (p : RuleResults) (k : nat)
      (cs rs : list Element) (k' : nat) :
  flat p = true -> group_site p k = Return (cs, rs, k') -> rs = [] /\ k' = k.
Proof.
  unfold flat, group_site. intros F. apply andb_prop in F as [Fb Fr].
  destruct (calls_site true (bcall p) k) as [[[cs1 rs1] k1]|e] eqn:B; [|discriminate].
  destruct (calls_site false (rcall p) k1) as [[[cs2 rs2] k2]|e] eqn:R; [|discriminate].
  intros H. injection H as _ <- <-.
  destruct (calls_site_flat _ _ _ _ _ _ Fb B) as [-> ->].
  destruct (calls_site_flat _ _ _ _ _ _ Fr R) as [-> ->]. auto.
Qed.

Lemma groups_site_flat (ps : list RuleResults) (k : nat)
      (cs rs : list Element) (k' : nat) :
  forallb flat ps = true ->
  groups_site ps k = Return (cs, rs, k') -> rs = [] /\ k' = k.
Proof.
  revert k cs rs k'. induction ps as [|p rest IH]; intros k cs rs k' F; simpl.
  - intros H. injection H as _ <- <-. auto.
  - cbn [forallb] in F. apply andb_prop in F as [Fp Fr].
    destruct (group_site p k) as [[[cs0 rs0] k1]|e] eqn:G; [|discriminate].
    destruct (groups_site rest k1) as [[[cs1 rs1] k2]|e] eqn:R; [|discriminate].
    intros H. injection H as _ <- <-.
    destruct (group_site_flat _ _ _ _ _ Fp G) as [-> ->].
    destruct (IH _ _ _ _ Fr R) as [-> ->]. auto.
Qed.

Lemma defs_site_flat (defs : list RuleResults) (k : nat)
      (els : list Element) (k' : nat) :
  forallb flat defs = true ->
  defs_site defs k = Return (els, k') ->
  map (fun r => elem_get r "name") els = map (fun p => hd_error (name p)) defs /\
  k' = k.
Proof.
  revert k els k'. induction defs as [|p rest IH]; intros k els k' F; simpl.
  - intros H. injection H as <- <-. auto.
  - cbn [forallb] in F. apply andb_prop in F as [Fp Fr].
    unfold def_site. destruct (name p) as [|nm nms]; [discriminate|].
    destruct (group_site p k) as [[[cs rs] k1]|e] eqn:G; [|discriminate].
    destruct (defs_site rest k1) as [[els1 k2]|e] eqn:R; [|discriminate].
    intros H. injection H as <- <-.
    destruct (group_site_flat _ _ _ _ _ Fp G) as [-> ->].
    destruct (IH _ _ _ Fr R) as [E ->].
    split; [|reflexivity].
    cbn [app map hd_error]. rewrite E. f_equal.
    unfold add_calls, elem_get. cbn [attrib].
    exact (proj1 (rule_header_get p nm)).
Qed.

(** X5. When no call is wrapped in two or more loops, the document has the
    entry rule and one rule for each rule definition, in the order of the
    source and under the names of the source; no name is made up. *)
Theorem rules_without_nesting
        (results : FileResults) (doc : Element)
        (defs : list RuleResults) (more : list (list RuleResults)) :
  es_xml2 results = Return doc ->
  rule_defs results = defs :: more ->
  forallb flat (entry_calls results) = true ->
  forallb flat defs = true ->
  rule_names doc = Some "entry" :: map (fun p => hd_error (name p)) defs.
Proof.
  rewrite es_xml2_document. unfold document. intros H Hd Fe Fd. rewrite Hd in H.
  destruct (groups_site (entry_calls results) 0) as [[[cs rs] k]|x] eqn:G;
    [|discriminate].
  destruct (defs_site defs k) as [[els k']|x] eqn:D; [|discriminate].
  injection H as <-.
  destruct (groups_site_flat _ _ _ _ _ Fe G) as [-> ->].
  destruct (defs_site_flat _ _ _ _ Fd D) as [E _].
  unfold rule_names. cbn [children map app]. now rewrite E.
Qed.

Lemma rules_without_nesting_witness :
  exists doc,
    es_xml2 three_rules = Return doc /\
    rule_names doc = [Some "entry"; Some "b"; Some "a"; Some "b"].
Proof.
  destruct (es_xml2 three_rules) as [doc|e] eqn:X; [|vm_compute in X; discriminate].
  exists doc. split; [reflexivity|].
  exact (rules_without_nesting three_rules doc _ [] X eq_refl eq_refl eq_refl).
Defined.

(** ** The shape of the document of a source text *)

Lemma named_Forall (P : bool -> ParseResults -> Prop) (b : bool)
      (calls : list (bool * ParseResults)) :
  Forall (fun c => P (fst c) (snd c)) calls ->
  Forall (P b) (eisen_grammar.named b calls).
Proof.
  unfold eisen_grammar.named. induction 1 as [|[b' pc] calls H _ IH]; simpl.
  - constructor.
  - destruct (Bool.eqb b' b) eqn:E; simpl; [|exact IH].
    apply Bool.eqb_prop in E. subst b'. constructor; assumption.
Qed.

Lemma calls_one_loop_shapes (s r : string) (calls : list (bool * ParseResults)) :
  PP.OneOrMore eisen_grammar.call s = Some (calls, r) ->
  Forall (fun pc => length (loop pc) <= 1) (eisen_grammar.named true calls).
Proof.
  intros H.
  apply (OneOrMore_Forall _ (fun c => fst c = true -> length (loop (snd c)) <= 1)
                          eisen_grammar.call) in H.
  - destruct H as [F _].
    apply (named_Forall (fun b pc => b = true -> length (loop pc) <= 1) true) in F.
    rewrite Forall_forall in *. auto.
  - intros s0 [b pc] r0 C. destruct (call_names _ _ _ _ C) as (_ & _ & L & _).
    exact L.
Qed.

Lemma entry_one_loop_shapes (s r : string) (e : RuleResults) :
  eisen_grammar.entry s = Some (e, r) -> one_loop_shapes e.
Proof.
  unfold eisen_grammar.entry, PP.pbind, PP.pret. intros H.
  destruct (PP.OneOrMore eisen_grammar.call s) as [[calls r0]|] eqn:C;
    [|discriminate].
  injection H as <- <-. exact (calls_one_loop_shapes _ _ _ C).
Qed.

Lemma rule_one_loop_shapes (s r : string) (p : RuleResults) :
  eisen_grammar.rule s = Some (p, r) -> one_loop_shapes p.
Proof.
  unfold eisen_grammar.rule, PP.pbind, PP.pret. intros H.
  destruct (PP.tok (PP.CaselessKeyword "rule") s) as [[? r0]|]; [|discriminate].
  destruct (eisen_grammar.rule_name r0) as [[nm r1]|]; [|discriminate].
  destruct (eisen_grammar.modifiers r1) as [[ms r2]|]; [|discriminate].
  destruct (PP.tok (PP.Literal "{") r2) as [[? r3]|]; [|discriminate].
  destruct (PP.OneOrMore eisen_grammar.call r3) as [[calls r4]|] eqn:C;
    [|discriminate].
  destruct (PP.tok (PP.Literal "}") r4) as [[? r5]|]; [|discriminate].
  injection H as <- <-. exact (calls_one_loop_shapes _ _ _ C).
Qed.

Lemma file_def_one_loop_shapes (text r : string) (results : FileResults) :
  eisen_grammar.file_def text = Some (results, r) ->
  exists e defs,
    entry_calls results = [e] /\ one_loop_shapes e /\
    rule_defs results = [defs] /\ Forall one_loop_shapes defs.
Proof.
  unfold eisen_grammar.file_def, PP.pbind, PP.pret. intros H.
  destruct (PP.Optional eisen_grammar.global_md "" text) as [[g r0]|];
    [|discriminate].
  destruct (eisen_grammar.entry r0) as [[e r1]|] eqn:E; [|discriminate].
  destruct (eisen_grammar.main r1) as [[m r2]|] eqn:M; [|discriminate].
  injection H as <- <-. simpl.
  apply (OneOrMore_Forall _ one_loop_shapes eisen_grammar.rule) in M;
    [|exact (fun s a r => rule_one_loop_shapes s r a)].
  destruct M as [F _].
  exists e, m. eauto using entry_one_loop_shapes.
Qed.

Lemma mk_call_call_element (b : bool) (l : ParseResults) (v : string) :
  call_element (mk_call (call_type_of b) (atr_name_of b) l v) = true.
Proof.
  unfold call_element, has_attribute, elem_get, mk_call.
  destruct b, (Py.truthy (count l)); reflexivity.
Qed.

Lemma call_site_schema (b : bool) (pc : ParseResults) (v : string) (k : nat)
      (c : Element) (rs : list Element) (k' : nat) :
  (b = true -> length (loop pc) <= 1) ->
  call_site b pc v k = (c, rs, k') ->
  call_element c = true /\ forallb rule_element rs = true.
Proof.
  unfold call_site. intros L.
  destruct (loop pc) as [|l0 [|l1 more]]; intros H; injection H as <- <- _.
  - split; [apply mk_call_call_element|reflexivity].
  - split; [apply mk_call_call_element|reflexivity].
  - destruct b; [specialize (L eq_refl); simpl in L; lia|].
    split; [apply (mk_call_call_element false)|].
    pose proof (mk_call_call_element false l1 v) as M.
    change (call_type_of false) with "call" in M.
    cbn [forallb]. unfold rule_element. cbn [tag children forallb].
    rewrite M. reflexivity.
Qed.

Lemma calls_site_schema (b : bool) (pcalls : list ParseResults) (k : nat)
      (cs rs : list Element) (k' : nat) :
  Forall (fun pc => b = true -> length (loop pc) <= 1) pcalls ->
  calls_site b pcalls k = Return (cs, rs, k') ->
  forallb call_element cs = true /\ forallb rule_element rs = true.
Proof.
  intros F. revert k cs rs k'.
  induction F as [|pc rest L _ IH]; intros k cs rs k'; simpl.
  - intros H. injection H as <- <- _. auto.
  - destruct (atr_value_of b pc) as [v|]; [|discriminate].
    destruct (call_site b pc v k) as [[c rs0] k1] eqn:C.
    destruct (calls_site b rest k1) as [[[cs' rs'] k2]|e] eqn:R; [|discriminate].
    intros H. injection H as <- <- _.
    destruct (call_site_schema _ _ _ _ _ _ _ L C) as [Hc Hr].
    destruct (IH _ _ _ _ R) as [Hcs Hrs].
    cbn [forallb]. rewrite Hc, Hcs, forallb_app, Hr, Hrs. auto.
Qed.

Lemma group_site_schema (p : RuleResults) (k : nat)
      (cs rs : list Element) (k' : nat) :
  one_loop_shapes p ->
  group_site p k = Return (cs, rs, k') ->
  forallb call_element cs = true /\ forallb rule_element rs = true.
Proof.
  unfold group_site, one_loop_shapes. intros O.
  destruct (calls_site true (bcall p) k) as [[[cs1 rs1] k1]|e] eqn:B; [|discriminate].
  destruct (calls_site false (rcall p) k1) as [[[cs2 rs2] k2]|e] eqn:R; [|discriminate].
  intros H. injection H as <- <- _.
  assert (Fb : Forall (fun pc => true = true -> length (loop pc) <= 1) (bcall p))
    by (rewrite Forall_forall in *; auto).
  assert (Fr : Forall (fun pc => false = true -> length (loop pc) <= 1) (rcall p))
    by (apply Forall_forall; intros; discriminate).
  destruct (calls_site_schema true _ _ _ _ _ Fb B) as [C1 R1].
  destruct (calls_site_schema false _ _ _ _ _ Fr R) as [C2 R2].
  rewrite !forallb_app, C1, C2, R1, R2. auto.
Qed.

Lemma defs_site_schema (defs : list RuleResults) (k : nat)
      (els : list Element) (k' : nat) :
  Forall one_loop_shapes defs ->
  defs_site defs k = Return (els, k') ->
  forallb rule_element els = true.
Proof.
  intros F. revert k els k'.
  induction F as [|p rest O _ IH]; intros k els k'; simpl.
  - intros H. injection H as <- _. reflexivity.
  - unfold def_site. destruct (name p) as [|nm nms]; [discriminate|].
    destruct (group_site p k) as [[[cs rs] k1]|e] eqn:G; [|discriminate].
    destruct (defs_site rest k1) as [[els1 k2]|e] eqn:R; [|discriminate].
    intros H. injection H as <- _.
    destruct (group_site_schema _ _ _ _ _ O G) as [C Rs].
    cbn [app forallb]. rewrite forallb_app, Rs, (IH _ _ _ R).
    unfold rule_element at 1, has_attribute, add_calls, elem_get.
    cbn [tag attrib children].
    destruct (rule_header_children p nm) as [-> ->].
    change (elem_get (rule_header p nm) "name") with
      (dict_get (attrib (rule_header p nm)) "name").
    pose proof (proj1 (rule_header_get p nm)) as N. unfold elem_get in N.
    rewrite N. cbn [app]. rewrite C. reflexivity.
Qed.

(** X6. The document of a source text has the shape its readers expect: the
    root [rules] holds [rule] elements with a [name]; a rule holds
    [instance] elements, each with [transforms] and [shape], and [call]
    elements, each with [transforms] and [rule]; these have no children. *)
Theorem document_shape (text : string) (results : FileResults) (doc : Element) :
  eisen_grammar.parseString text = Return results ->
  es_xml2 results = Return doc ->
  tag doc = "rules" /\ has_attribute doc "max_depth" = true /\
  forallb rule_element (children doc) = true.
Proof.
  unfold eisen_grammar.parseString.
  destruct (eisen_grammar.file_def text) as [[res r]|] eqn:F; [|discriminate].
  intros H. injection H as ->.
  destruct (file_def_one_loop_shapes _ _ _ F) as (e & defs & He & Oe & Hd & Od).
  rewrite es_xml2_document. unfold document. rewrite He, Hd.
  cbn [groups_site].
  destruct (group_site e 0) as [[[cs rs] k]|x] eqn:G; [|discriminate].
  destruct (defs_site defs k) as [[els k']|x] eqn:D; [|discriminate].
  intros H. injection H as <-.
  destruct (group_site_schema _ _ _ _ _ Oe G) as [C Rs].
  split; [reflexivity|]. split; [reflexivity|].
  cbn [children forallb]. rewrite !app_nil_r, forallb_app, Rs.
  rewrite (defs_site_schema _ _ _ _ Od D).
  unfold rule_element. cbn [tag children]. rewrite C. reflexivity.
Qed.

Lemma document_shape_witness :
  exists doc,
    es_xml2 three_rules = Return doc /\
    tag doc = "rules" /\ has_attribute doc "max_depth" = true /\
    forallb rule_element (children doc) = true.
Proof.
  destruct (es_xml2 three_rules) as [doc|e] eqn:X; [|vm_compute in X; discriminate].
  exists doc. split; [reflexivity|].
  apply (document_shape three_rules_text three_rules doc); [|exact X].
  vm_compute. reflexivity.
Defined.

(** ** The transforms of a loop, joined *)

(** X7. [trans_str] changes the identifiers of its argument in place; called
    again on the list it has changed, it returns the same string and
    changes nothing more. *)
Theorem trans_str_twice (trans_list : list Trans) :
  trans_str (trans_str_effect trans_list) = trans_str trans_list /\
  trans_str_effect (trans_str_effect trans_list) = trans_str_effect trans_list.
Proof.
  split.
  - unfold trans_str. now rewrite trans_str_loop_effect.
  - unfold trans_str_effect. rewrite map_map. apply map_ext.
    intros t. apply retag_idempotent.
Qed.

Lemma span_made_of (chars s w r : string) :
  PP.span chars s = (w, r) -> made_of chars w = true.
Proof.
  revert w r. induction s as [|c s IH]; intros w r; simpl.
  - intros H. injection H as <- _. reflexivity.
  - destruct (PP.mem c chars) eqn:M.
    + destruct (PP.span chars s) as [w' r'] eqn:S.
      intros H. injection H as <- _. simpl. rewrite M. eauto.
    + intros H. injection H as <- _. reflexivity.
Qed.

Lemma fnum_fnum_word (s v r : string) :
  eisen_grammar.fnum s = Some (v, r) -> fnum_word v = true.
Proof.
  unfold eisen_grammar.fnum, PP.tok, PP.Word.
  destruct (PP.skip s) as [|c x]; [discriminate|].
  destruct (PP.mem c _) eqn:M; [|discriminate].
  destruct (PP.span _ x) as [w r'] eqn:S.
  intros H. injection H as <- _.
  unfold fnum_word, fnum_chars. cbn [Py.truthy made_of andb]. rewrite M.
  exact (span_made_of _ _ _ _ S).
Qed.

Lemma tid_grammar_tids (s w r : string) :
  eisen_grammar.tid s = Some (w, r) -> Py.str_in w grammar_tids = true.
Proof.
  unfold eisen_grammar.tid, PP.oneOf, PP.tok, PP.oneOf_at.
  intros H. apply first_of_starts in H. destruct H as [I _].
  assert (E : PP.oneOf_symbols (PP.split "x y z s rx ry rz") = grammar_tids)
    by (vm_compute; reflexivity).
  rewrite E in I. simpl in I.
  destruct I as [<-|[<-|[<-|[<-|[<-|[<-|[<-|[]]]]]]]]; reflexivity.
Qed.

Lemma gtrans_gtrans_group (s r : string) (o : option Trans) :
  eisen_grammar.gtrans s = Some (o, r) ->
  exists t, o = Some t /\ gtrans_group t = true.
Proof.
  unfold eisen_grammar.gtrans, PP.pbind, PP.pret.
  destruct (eisen_grammar.tid s) as [[w r0]|] eqn:T; [|discriminate].
  destruct (eisen_grammar.tvalues r0) as [[vs r1]|] eqn:V; [|discriminate].
  intros H. injection H as <- _.
  exists (mkTrans w vs). split; [reflexivity|].
  destruct (OneOrMore_Forall _ (fun v => fnum_word v = true) eisen_grammar.fnum
              (fun s a r => fnum_fnum_word s a r) _ _ _ V) as [F N].
  unfold gtrans_group. cbn [tid tvalues].
  rewrite (tid_grammar_tids _ _ _ T).
  destruct vs as [|v vs]; [congruence|].
  cbn [andb]. apply forallb_forall. apply Forall_forall. exact F.
Qed.

Lemma colour_trans_dropped (s r : string) (o : option Trans) :
  PP.MatchFirst eisen_grammar.ctrans
    (PP.MatchFirst eisen_grammar.c2trans eisen_grammar.c3trans) s = Some (o, r) ->
  o = None.
Proof.
  unfold PP.MatchFirst, eisen_grammar.ctrans, eisen_grammar.c2trans,
    eisen_grammar.c3trans, PP.pbind, PP.pret.
  destruct (eisen_grammar.cid s) as [[a r0]|].
  - destruct (eisen_grammar.tvalues r0) as [[b r1]|].
    + intros H. now injection H as <- _.
    + destruct (PP.tok (PP.CaselessKeyword "color") s) as [[c r2]|].
      * destruct (PP.tok (PP.Word _ _) r2) as [[d r3]|].
        -- intros H. now injection H as <- _.
        -- destruct (PP.tok (PP.CaselessKeyword "blend") s) as [[e r4]|]; [|discriminate].
           destruct (PP.tok (PP.Word _ _) r4) as [[f r5]|]; [|discriminate].
           destruct (eisen_grammar.fnum r5) as [[g r6]|]; [|discriminate].
           intros H. now injection H as <- _.
      * destruct (PP.tok (PP.CaselessKeyword "blend") s) as [[e r4]|]; [|discriminate].
        destruct (PP.tok (PP.Word _ _) r4) as [[f r5]|]; [|discriminate].
        destruct (eisen_grammar.fnum r5) as [[g r6]|]; [|discriminate].
        intros H. now injection H as <- _.
  - destruct (PP.tok (PP.CaselessKeyword "color") s) as [[c r2]|].
    + destruct (PP.tok (PP.Word _ _) r2) as [[d r3]|].
      * intros H. now injection H as <- _.
      * destruct (PP.tok (PP.CaselessKeyword "blend") s) as [[e r4]|]; [|discriminate].
        destruct (PP.tok (PP.Word _ _) r4) as [[f r5]|]; [|discriminate].
        destruct (eisen_grammar.fnum r5) as [[g r6]|]; [|discriminate].
        intros H. now injection H as <- _.
    + destruct (PP.tok (PP.CaselessKeyword "blend") s) as [[e r4]|]; [|discriminate].
      destruct (PP.tok (PP.Word _ _) r4) as [[f r5]|]; [|discriminate].
      destruct (eisen_grammar.fnum r5) as [[g r6]|]; [|discriminate].
      intros H. now injection H as <- _.
Qed.

Lemma trans_gtrans_group (s r : string) (o : option Trans) :
  eisen_grammar.trans s = Some (o, r) ->
  match o with Some t => gtrans_group t = true | None => True end.
Proof.
  unfold eisen_grammar.trans. unfold PP.MatchFirst at 1.
  destruct (eisen_grammar.gtrans s) as [[o1 r1]|] eqn:G.
  - intros H. injection H as <- _.
    destruct (gtrans_gtrans_group _ _ _ G) as (t & -> & W). exact W.
  - intros H. apply colour_trans_dropped in H. now subst o.
Qed.

Lemma kept_gtrans_group (ts : list (option Trans)) :
  Forall (fun o => match o with Some t => gtrans_group t = true | None => True end) ts ->
  forallb gtrans_group (eisen_grammar.kept ts) = true.
Proof.
  induction 1 as [|[t|] ts H _ IH]; simpl; [reflexivity| |exact IH].
  now rewrite H, IH.
Qed.

Lemma loop_gtrans_groups (s r : string) (l : ParseResults) :
  eisen_grammar.loop s = Some (l, r) ->
  forallb gtrans_group (trans l) = true /\ loop l = [] /\
  shape l = "" /\ rule_name l = [].
Proof.
  unfold eisen_grammar.loop, PP.pbind, PP.pret.
  destruct (PP.Optional _ _ s) as [[c r0]|]; [|discriminate].
  destruct (PP.tok (PP.Literal "{") r0) as [[x r1]|]; [|discriminate].
  unfold PP.ZeroOrMore.
  destruct (PP.many eisen_grammar.trans (String.length r1) r1) as [ts r2] eqn:M.
  destruct (PP.tok (PP.Literal "}") r2) as [[y r3]|]; [|discriminate].
  intros H. injection H as <- _. cbn [trans loop shape rule_name].
  split; [|auto].
  apply kept_gtrans_group.
  exact (many_Forall _ _ eisen_grammar.trans
           (fun s a r => trans_gtrans_group s r a) _ _ _ _ M).
Qed.

Lemma fnum_char_black (c : ascii) :
  PP.mem c fnum_chars = true -> Py.isspace c = false.
Proof.
  intros H.
  pose proof (ascii_all
    (fun c => implb (PP.mem c fnum_chars) (negb (Py.isspace c)))
    ltac:(vm_compute; reflexivity) c) as A.
  cbv beta in A. rewrite H in A. simpl in A. now apply negb_true_iff in A.
Qed.

Lemma fnum_word_ends_black (v : string) :
  fnum_word v = true -> ends_black v = true.
Proof.
  unfold fnum_word. intros H. apply andb_prop in H as [N M].
  induction v as [|c v IH]; [discriminate|].
  simpl in M. apply andb_prop in M as [Mc Mv].
  destruct v as [|d v].
  - simpl. now rewrite (fnum_char_black _ Mc).
  - change (ends_black (String c (String d v))) with (ends_black (String d v)).
    apply IH; [reflexivity|exact Mv].
Qed.

Lemma ends_black_truthy (s : string) : ends_black s = true -> s <> "".
Proof. destruct s; [discriminate|congruence]. Qed.

Lemma ends_black_app (a b : string) :
  b <> "" -> ends_black (a ++ b) = ends_black b.
Proof.
  intros N. induction a as [|c a IH]; [reflexivity|].
  simpl. rewrite IH.
  destruct (a ++ b) eqn:E; [|reflexivity].
  destruct a; [simpl in E; congruence|discriminate].
Qed.

Lemma ends_black_join (l : list string) :
  l <> [] -> Forall (fun x => ends_black x = true) l ->
  ends_black (Py.join " " l) = true.
Proof.
  intros N F. induction F as [|x l Hx F IH]; [congruence|].
  destruct l as [|y l]; [exact Hx|].
  change (Py.join " " (x :: y :: l)) with (x ++ " " ++ Py.join " " (y :: l)).
  assert (J : ends_black (Py.join " " (y :: l)) = true) by (apply IH; congruence).
  rewrite ends_black_app by discriminate.
  rewrite ends_black_app by (now apply ends_black_truthy).
  exact J.
Qed.

Lemma rstrip_app_space (x : string) :
  ends_black x = true -> Py.rstrip (x ++ " ") = x.
Proof.
  induction x as [|c x IH]; [discriminate|].
  destruct x as [|d x].
  - simpl. intros H. apply negb_true_iff in H. now rewrite H.
  - intros H. change (ends_black (String c (String d x))) with (ends_black (String d x)) in H.
    specialize (IH H).
    change ((String c (String d x)) ++ " ") with (String c (String d x ++ " ")).
    cbn [Py.rstrip]. fold Py.rstrip. rewrite IH. reflexivity.
Qed.

Lemma item_ends_black (t : Trans) :
  gtrans_group t = true -> ends_black (item t) = true.
Proof.
  unfold gtrans_group. intros H.
  apply andb_prop in H as [H F]. apply andb_prop in H as [_ N].
  assert (J : ends_black (Py.join " " (tvalues t)) = true).
  { apply ends_black_join.
    - destruct (tvalues t); [discriminate|congruence].
    - apply Forall_forall. rewrite forallb_forall in F.
      intros v Hv. apply fnum_word_ends_black. auto. }
  unfold item.
  rewrite ends_black_app by discriminate.
  rewrite ends_black_app by (now apply ends_black_truthy).
  exact J.
Qed.

Lemma pieces_joined (t : Trans) (l : list Trans) :
  String.concat "" (map piece (t :: l)) = Py.join " " (map item (t :: l)) ++ " ".
Proof.
  revert t. induction l as [|t' l IH]; intros t.
  - simpl. unfold piece, item. now rewrite !string_app_assoc.
  - change (String.concat "" (map piece (t :: t' :: l)))
      with (piece t ++ "" ++ String.concat "" (map piece (t' :: l))).
    change (Py.join " " (map item (t :: t' :: l)))
      with (item t ++ " " ++ Py.join " " (map item (t' :: l))).
    rewrite IH. cbn [append]. unfold piece, item.
    now rewrite !string_app_assoc.
Qed.

Lemma gtrans_groups_from_grammar (l : list Trans) :
  forallb gtrans_group l = true -> from_grammar l = true.
Proof.
  unfold from_grammar. rewrite !forallb_forall. intros H t Ht.
  specialize (H t Ht). unfold gtrans_group in H.
  apply andb_prop in H as [H _]. now apply andb_prop in H as [H _].
Qed.

Lemma trans_str_joined (l : list Trans) :
  forallb gtrans_group l = true ->
  trans_str l = Py.join " " (map item l).
Proof.
  intros W. destruct l as [|t l]; [reflexivity|].
  unfold trans_str, Py.strip. rewrite trans_str_loop_pieces.
  change ("" ++ String.concat "" (map piece (t :: l)))
    with (String.concat "" (map piece (t :: l))).
  rewrite (lstrip_pieces (t :: l))
    by (apply from_grammar_Forall; apply gtrans_groups_from_grammar; exact W).
  rewrite pieces_joined. apply rstrip_app_space.
  apply ends_black_join; [discriminate|].
  apply Forall_forall. intros x Hx. apply in_map_iff in Hx.
  destruct Hx as (u & <- & Hu). apply item_ends_black.
  rewrite forallb_forall in W. auto.
Qed.

(** X8. The transforms the grammar keeps for a loop are [gtrans] groups (an
    identifier of [tid] with one or more [fnum] values; colour transforms
    are not among them), and the [transforms] string [trans_str] makes of
    them is, for each transform in order, its code and its values, every
    two neighbours separated by exactly one space. *)
Theorem loop_transforms (s r : string) (l : ParseResults) :
  eisen_grammar.loop s = Some (l, r) ->
  forallb gtrans_group (trans l) = true /\
  trans_str (trans l) = Py.join " " (map item (trans l)).
Proof.
  intros H. apply loop_gtrans_groups in H. destruct H as [W _].
  split; [exact W | exact (trans_str_joined _ W)].
Qed.

Lemma loop_transforms_witness :
  eisen_grammar.loop loop_with_colours
  = Some (mkResults [] [mkTrans "x" ["1"]; mkTrans "s" ["2"];
                        mkTrans "rz" ["1/2"; "0"]] "3" "" [], " box") /\
  trans_str [mkTrans "x" ["1"]; mkTrans "s" ["2"]; mkTrans "rz" ["1/2"; "0"]]
  = "tx 1 sa 2 rz 1/2 0".
Proof.
  assert (E : eisen_grammar.loop loop_with_colours
              = Some (mkResults [] [mkTrans "x" ["1"]; mkTrans "s" ["2"];
                                    mkTrans "rz" ["1/2"; "0"]] "3" "" [], " box"))
    by (vm_compute; reflexivity).
  split; [exact E|].
  destruct (loop_transforms _ _ _ E) as [_ T]. exact T.
Defined.

(** ** A count up against the star, and the case of a shape word *)

Lemma made_of_app (chars a b : string) :
  made_of chars (a ++ b) = made_of chars a && made_of chars b.
Proof.
  induction a as [|c a IH]; [reflexivity|].
  cbn [append made_of]. rewrite IH. now rewrite andb_assoc.
Qed.

Lemma span_word (chars w r : string) :
  made_of chars w = true ->
  match r with String d _ => PP.mem d chars = false | EmptyString => True end ->
  PP.span chars (w ++ r) = (w, r).
Proof.
  intros M R. induction w as [|c w IH].
  - destruct r as [|d r]; [reflexivity|]. cbn [append PP.span]. now rewrite R.
  - cbn [made_of] in M. apply andb_prop in M as [Mc Mw].
    cbn [append PP.span]. rewrite Mc, (IH Mw). reflexivity.
Qed.

Lemma span_split (chars s w r : string) :
  PP.span chars s = (w, r) -> s = w ++ r.
Proof.
  revert w r. induction s as [|c s IH]; intros w r; cbn [PP.span].
  - intros H. now injection H as <- <-.
  - destruct (PP.mem c chars).
    + destruct (PP.span chars s) as [w' r'] eqn:S.
      intros H. injection H as <- <-. cbn [append]. f_equal. now apply IH.
    + intros H. now injection H as <- <-.
Qed.

Lemma skip_at_brace (x : string) : PP.skip (String "{" x) = String "{" x.
Proof. reflexivity. Qed.

Lemma fnum_char_facts (c : ascii) :
  PP.mem c fnum_chars = true ->
  Ascii.eqb "{" c = false /\ PP.mem c PP.alphas = false /\ opens_shape c = false.
Proof.
  intros H.
  pose proof (ascii_all
    (fun c => implb (PP.mem c fnum_chars)
                (negb (Ascii.eqb "{" c) && negb (PP.mem c PP.alphas) &&
                 negb (opens_shape c)))
    ltac:(vm_compute; reflexivity) c) as A.
  cbv beta in A. rewrite H in A. simpl in A.
  apply andb_prop in A as [A A3]. apply andb_prop in A as [A1 A2].
  apply negb_true_iff in A1, A2, A3. auto.
Qed.

Lemma many_none (A : Type) (p : PP.Parser A) (fuel : nat) (s : string) :
  p s = None -> PP.many p fuel s = ([], s).
Proof. intros H. destruct fuel; simpl; [|rewrite H]; reflexivity. Qed.

(** X9. A count cannot be written up against the star of a loop: in a
    text that goes on with a count, [*] and [{] with nothing between them,
    [fnum] takes the star as part of the number, so neither a loop nor a
    call is read there. *)
Theorem count_star_brace_rejected (s c rest : string) :
  fnum_word c = true ->
  PP.skip s = count_star_brace c rest ->
  eisen_grammar.fnum s = Some (c ++ "*", "{" ++ rest) /\
  eisen_grammar.loop s = None /\
  eisen_grammar.call s = None.
Proof.
  unfold fnum_word, count_star_brace. intros W E.
  apply andb_prop in W as [N M].
  destruct c as [|ch c]; [discriminate|]. clear N.
  cbn [made_of] in M. apply andb_prop in M as [Mch Mc].
  destruct (fnum_char_facts _ Mch) as (F1 & F2 & F3).
  assert (Fn : eisen_grammar.fnum s = Some (String ch c ++ "*", "{" ++ rest)).
  { unfold eisen_grammar.fnum, PP.tok, PP.Word. rewrite E.
    change (".+-*/()" ++ PP.nums) with fnum_chars. cbn [append]. rewrite Mch.
    change (c ++ String "*" (String "{" rest)) with (c ++ "*" ++ "{" ++ rest).
    rewrite <- string_app_assoc.
    rewrite (span_word fnum_chars (c ++ "*") ("{" ++ rest)); [reflexivity| |reflexivity].
    rewrite made_of_app, Mc. reflexivity. }
  assert (L : eisen_grammar.loop s = None).
  { unfold eisen_grammar.loop, PP.pbind, PP.Optional, PP.MatchFirst.
    unfold eisen_grammar.loop_multiplier, PP.pbind. rewrite Fn.
    unfold PP.tok at 1. cbn [append]. rewrite skip_at_brace.
    change (PP.Literal "*" (String "{" rest)) with (@None (string * string)).
    cbv iota. unfold PP.pret at 1. cbv iota beta.
    unfold PP.tok at 1. rewrite E. unfold PP.Literal.
    cbn [append PP.starts]. rewrite F1. reflexivity. }
  split; [exact Fn|]. split; [exact L|].
  assert (S : eisen_grammar.shape s = None).
  { destruct (eisen_grammar.shape s) as [[w r']|] eqn:S; [|reflexivity].
    destruct (shape_first_char _ _ _ S) as (c' & rest' & E' & Hc').
    rewrite E in E'. cbn [append] in E'. injection E' as <- _. congruence. }
  assert (R : eisen_grammar.rule_name s = None).
  { unfold eisen_grammar.rule_name, PP.pbind.
    destruct (PP.NotAny _ s) as [[u r0]|] eqn:NA; [|reflexivity].
    unfold PP.NotAny in NA.
    destruct (PP.tok (PP.CaselessKeyword "rule") s); [discriminate|].
    injection NA as _ <-.
    unfold PP.tok, PP.Word. rewrite E. cbn [append]. now rewrite F2. }
  unfold eisen_grammar.call, PP.MatchFirst, eisen_grammar.shape_call,
    eisen_grammar.rule_call, PP.pbind, PP.Optional, PP.MatchFirst, PP.ZeroOrMore.
  rewrite L. unfold PP.pret at 1. rewrite S.
  rewrite (many_none _ _ _ _ L). now rewrite R.
Qed.

Lemma count_star_brace_rejected_witness :
  eisen_grammar.fnum "3*{ ry 10 } box" = Some ("3*", "{ ry 10 } box") /\
  eisen_grammar.loop "3*{ ry 10 } box" = None /\
  eisen_grammar.call "3*{ ry 10 } box" = None.
Proof.
  apply (count_star_brace_rejected "3*{ ry 10 } box" "3" " ry 10 } box");
    reflexivity.
Defined.

(** X10. The shape of a shape call starts with the shape word as the
    grammar spells it, in lower case, whatever the case in the text; what
    follows the word is kept as it was written. *)
Theorem shape_word_is_lower_case (s w r : string) :
  eisen_grammar.shape s = Some (w, r) ->
  exists w0 x r0,
    In w0 eisen_grammar.shape_words /\ w = w0 ++ x /\
    PP.starts true w0 (PP.skip s) = Some r0 /\
    r0 = x ++ r /\ made_of (PP.alphas ++ ":") x = true.
Proof.
  unfold eisen_grammar.shape, PP.tok, PP.pbind, PP.oneOf_at, PP.Optional,
    PP.MatchFirst, PP.pret.
  rewrite shape_symbols.
  destruct (PP.first_of _ (PP.skip s)) as [[w0 r0]|] eqn:F; [|discriminate].
  destruct (first_of_starts _ _ _ _ F) as [I St].
  destruct (PP.Word _ _ r0) as [[x r1]|] eqn:Wd.
  - intros H. injection H as <- <-. exists w0, x, r0.
    unfold PP.Word in Wd. destruct r0 as [|d r0]; [discriminate|].
    destruct (PP.mem d _) eqn:Md; [|discriminate].
    destruct (PP.span _ r0) as [y r2] eqn:Sp. injection Wd as <- <-.
    split; [exact I|]. split; [reflexivity|]. split; [exact St|]. split.
    + cbn [append]. f_equal. now apply span_split in Sp.
    + cbn [made_of]. rewrite Md. exact (span_made_of _ _ _ _ Sp).
  - intros H. injection H as <- <-. exists w0, "", r0.
    split; [exact I|]. split; [now rewrite string_app_nil_r|].
    split; [exact St|]. split; reflexivity.
Qed.

Lemma shape_word_is_lower_case_witness :
  eisen_grammar.shape " Sphere::Big {" = Some ("sphere::Big", " {") /\
  exists w0 x r0,
    In w0 eisen_grammar.shape_words /\ "sphere::Big" = w0 ++ x /\
    PP.starts true w0 (PP.skip " Sphere::Big {") = Some r0 /\
    r0 = x ++ " {" /\ made_of (PP.alphas ++ ":") x = true.
Proof.
  split; [vm_compute; reflexivity|].
  apply (shape_word_is_lower_case " Sphere::Big {" "sphere::Big" " {").
  vm_compute. reflexivity.
Defined.

(** ** What comes before the first token *)

Lemma blind_tok (A : Type) (p : PP.Parser A) : blind (PP.tok p).
Proof.
  intros s s' E. unfold PP.tok. rewrite E.
  destruct (p (PP.skip s')) as [[a r]|]; auto.
Qed.

Lemma blind_pret (A : Type) (a : A) : blind (PP.pret a).
Proof. intros s s' E. unfold PP.pret. auto. Qed.

Lemma blind_pbind (A B : Type) (p : PP.Parser A) (k : A -> PP.Parser B) :
  blind p -> (forall a, blind (k a)) -> blind (PP.pbind p k).
Proof.
  intros Hp Hk s s' E. unfold PP.pbind. specialize (Hp s s' E).
  destruct (p s) as [[a r]|], (p s') as [[a' r']|]; try contradiction; [|exact I].
  destruct Hp as [<- Er]. exact (Hk a r r' Er).
Qed.

Lemma blind_MatchFirst (A : Type) (p q : PP.Parser A) :
  blind p -> blind q -> blind (PP.MatchFirst p q).
Proof.
  intros Hp Hq s s' E. unfold PP.MatchFirst. specialize (Hp s s' E).
  destruct (p s) as [[a r]|], (p s') as [[a' r']|]; try contradiction;
    [exact Hp|]. exact (Hq s s' E).
Qed.

Lemma blind_Optional (A : Type) (p : PP.Parser A) (d : A) :
  blind p -> blind (PP.Optional p d).
Proof. intros Hp. apply blind_MatchFirst; [exact Hp|apply blind_pret]. Qed.

Lemma blind_NotAny (A : Type) (p : PP.Parser A) : blind p -> blind (PP.NotAny p).
Proof.
  intros Hp s s' E. unfold PP.NotAny. specialize (Hp s s' E).
  destruct (p s) as [[a r]|], (p s') as [[a' r']|]; try contradiction; auto.
Qed.

Lemma consuming_empty (A : Type) (p : PP.Parser A) :
  consuming p -> p "" = None.
Proof.
  intros Hp. destruct (p "") as [[a r]|] eqn:E; [|reflexivity].
  specialize (Hp _ _ _ E). simpl in Hp. lia.
Qed.

Lemma blind_many (A : Type) (p : PP.Parser A) :
  blind p -> consuming p ->
  forall f f' s s',
    String.length s <= f -> String.length s' <= f' ->
    PP.skip s = PP.skip s' ->
    fst (PP.many p f s) = fst (PP.many p f' s') /\
    PP.skip (snd (PP.many p f s)) = PP.skip (snd (PP.many p f' s')).
Proof.
  intros Hb Hc. induction f as [|f IH]; intros f' s s' L L' E.
  - destruct s; [|simpl in L; lia].
    pose proof (Hb _ _ E) as B. rewrite (consuming_empty _ p Hc) in B.
    destruct f' as [|f']; simpl; [auto|].
    destruct (p s') as [[a' r']|]; [contradiction|]. auto.
  - destruct f' as [|f'].
    + destruct s'; [|simpl in L'; lia].
      pose proof (Hb _ _ E) as B. rewrite (consuming_empty _ p Hc) in B.
      simpl. destruct (p s) as [[a r]|]; [contradiction|]. auto.
    + simpl. pose proof (Hb _ _ E) as B.
      destruct (p s) as [[a r]|] eqn:P, (p s') as [[a' r']|] eqn:P';
        try contradiction; [|auto].
      destruct B as [<- Er].
      apply Hc in P, P'.
      destruct (IH f' r r' ltac:(lia) ltac:(lia) Er) as [I1 I2].
      destruct (PP.many p f r) as [l x], (PP.many p f' r') as [l' x'].
      simpl in *. split; [now f_equal | exact I2].
Qed.

Lemma blind_ZeroOrMore (A : Type) (p : PP.Parser A) :
  blind p -> consuming p -> blind (PP.ZeroOrMore p).
Proof.
  intros Hb Hc s s' E. unfold PP.ZeroOrMore.
  destruct (blind_many _ p Hb Hc (String.length s) (String.length s') s s'
              (le_n _) (le_n _) E) as [I1 I2].
  destruct (PP.many p (String.length s) s) as [l x],
           (PP.many p (String.length s') s') as [l' x'].
  simpl in *. auto.
Qed.

Lemma blind_OneOrMore (A : Type) (p : PP.Parser A) :
  blind p -> consuming p -> blind (PP.OneOrMore p).
Proof.
  intros Hb Hc. unfold PP.OneOrMore.
  apply blind_pbind; [exact Hb|]. intros a.
  apply blind_pbind; [now apply blind_ZeroOrMore|]. intros l. apply blind_pret.
Qed.

Lemma blind_fnum : blind eisen_grammar.fnum.
Proof. apply blind_tok. Qed.

Lemma blind_tvalues : blind eisen_grammar.tvalues.
Proof. apply blind_OneOrMore; [apply blind_fnum | apply fnum_consuming]. Qed.

Lemma blind_trans : blind eisen_grammar.trans.
Proof.
  unfold eisen_grammar.trans, eisen_grammar.gtrans, eisen_grammar.ctrans,
    eisen_grammar.c2trans, eisen_grammar.c3trans.
  repeat apply blind_MatchFirst;
    repeat first [ apply blind_tok | apply blind_pret | exact blind_tvalues
                 | exact blind_fnum
                 | apply blind_pbind; [|intros ?] ].
Qed.

Lemma blind_loop : blind eisen_grammar.loop.
Proof.
  unfold eisen_grammar.loop, eisen_grammar.loop_multiplier.
  apply blind_pbind.
  - apply blind_Optional.
    repeat first [ apply blind_tok | apply blind_pret | exact blind_fnum
                 | apply blind_pbind; [|intros ?] ].
  - intros c. apply blind_pbind; [apply blind_tok|]. intros _.
    apply blind_pbind;
      [apply blind_ZeroOrMore; [exact blind_trans | exact trans_consuming]|].
    intros ts. apply blind_pbind; [apply blind_tok|]. intros _. apply blind_pret.
Qed.

Lemma blind_rule_name : blind eisen_grammar.rule_name.
Proof.
  unfold eisen_grammar.rule_name.
  apply blind_pbind; [apply blind_NotAny, blind_tok|]. intros _. apply blind_tok.
Qed.

Lemma blind_call : blind eisen_grammar.call.
Proof.
  unfold eisen_grammar.call, eisen_grammar.shape_call, eisen_grammar.rule_call,
    eisen_grammar.shape.
  apply blind_MatchFirst.
  - apply blind_pbind.
    + apply blind_Optional. apply blind_pbind; [exact blind_loop|].
      intros x. apply blind_pret.
    + intros l. apply blind_pbind; [apply blind_tok|]. intros s. apply blind_pret.
  - apply blind_pbind.
    + apply blind_ZeroOrMore; [exact blind_loop | exact loop_consuming].
    + intros l. apply blind_pbind; [exact blind_rule_name|].
      intros r. apply blind_pret.
Qed.

Lemma blind_md_mod : blind eisen_grammar.md_mod.
Proof.
  unfold eisen_grammar.md_mod, eisen_grammar.md, PP.oneOf.
  apply blind_pbind; [apply blind_tok|]. intros _.
  apply blind_pbind; [exact blind_fnum|]. intros d.
  apply blind_pbind; [|intros x; apply blind_pret].
  apply blind_Optional. apply blind_pbind; [apply blind_tok|]. intros _.
  apply blind_pbind; [exact blind_rule_name|]. intros r. apply blind_pret.
Qed.

Lemma blind_w_mod : blind eisen_grammar.w_mod.
Proof.
  unfold eisen_grammar.w_mod, eisen_grammar.weight, PP.oneOf.
  apply blind_pbind; [apply blind_tok|]. intros _. exact blind_fnum.
Qed.

Lemma each_round_failed (A : Type) (P : PP.LoopExpr A -> Prop)
      (exprs : list (PP.LoopExpr A)) :
  Forall P exprs ->
  forall s got failed r,
    PP.each_round exprs s = (got, failed, r) -> Forall P failed.
Proof.
  induction 1 as [|e rest He _ IH]; intros s got failed r; cbn [PP.each_round].
  - intros E. injection E as _ <- _. constructor.
  - destruct (snd e s) as [[a r0]|].
    + destruct (PP.each_round rest r0) as [[g f] r1] eqn:R.
      intros E. injection E as _ <- _. eauto.
    + destruct (PP.each_round rest s) as [[g f] r1] eqn:R.
      intros E. injection E as _ <- _. constructor; eauto.
Qed.

Lemma blind_each_round (A : Type) (exprs : list (PP.LoopExpr A)) :
  Forall (fun e => blind (snd e)) exprs ->
  forall s s', PP.skip s = PP.skip s' ->
    fst (PP.each_round exprs s) = fst (PP.each_round exprs s') /\
    PP.skip (snd (PP.each_round exprs s)) = PP.skip (snd (PP.each_round exprs s')).
Proof.
  induction 1 as [|e rest He _ IH]; intros s s' E; cbn [PP.each_round].
  - auto.
  - specialize (He s s' E).
    destruct (snd e s) as [[a r0]|], (snd e s') as [[a' r0']|];
      try contradiction.
    + destruct He as [<- Er]. destruct (IH _ _ Er) as [I1 I2].
      destruct (PP.each_round rest r0) as [[g f] r1],
               (PP.each_round rest r0') as [[g' f'] r1'].
      cbn [fst snd] in *. injection I1 as <- <-. auto.
    + destruct (IH _ _ E) as [I1 I2].
      destruct (PP.each_round rest s) as [[g f] r1],
               (PP.each_round rest s') as [[g' f'] r1'].
      cbn [fst snd] in *. injection I1 as <- <-. auto.
Qed.

Lemma blind_each_rounds (A : Type) (fuel : nat) :
  forall exprs : list (PP.LoopExpr A),
    Forall (fun e => blind (snd e)) exprs ->
    forall s s', PP.skip s = PP.skip s' ->
      fst (PP.each_rounds fuel exprs s) = fst (PP.each_rounds fuel exprs s') /\
      PP.skip (snd (PP.each_rounds fuel exprs s))
      = PP.skip (snd (PP.each_rounds fuel exprs s')).
Proof.
  induction fuel as [|fuel IH]; intros exprs F s s' E; cbn [PP.each_rounds].
  - auto.
  - destruct (blind_each_round _ _ F s s' E) as [I1 I2].
    destruct (PP.each_round exprs s) as [[g f] r0] eqn:R,
             (PP.each_round exprs s') as [[g' f'] r0'].
    cbn [fst snd] in I1, I2. injection I1 as <- <-.
    destruct (length f =? length exprs)%nat; [auto|].
    pose proof (each_round_failed _ _ _ F _ _ _ _ R) as Ff.
    destruct (IH _ Ff _ _ I2) as [J1 J2].
    destruct (PP.each_rounds fuel f r0) as [[g1 f1] r1],
             (PP.each_rounds fuel f r0') as [[g1' f1'] r1'].
    cbn [fst snd] in *. injection J1 as <- <-. auto.
Qed.

Lemma each_rounds_remaining (A : Type) (P : PP.LoopExpr A -> Prop) (fuel : nat) :
  forall exprs : list (PP.LoopExpr A),
    Forall P exprs ->
    forall s got remaining r,
      PP.each_rounds fuel exprs s = (got, remaining, r) -> Forall P remaining.
Proof.
  induction fuel as [|fuel IH]; intros exprs F s got remaining r;
    cbn [PP.each_rounds].
  - intros E. now injection E as _ <- _.
  - destruct (PP.each_round exprs s) as [[g f] r0] eqn:R.
    pose proof (each_round_failed _ _ _ F _ _ _ _ R) as Ff.
    destruct (length f =? length exprs)%nat.
    + intros E. now injection E as _ <- _.
    + destruct (PP.each_rounds fuel f r0) as [[g' f'] r1] eqn:R'.
      intros E. injection E as _ <- _. eauto.
Qed.

Lemma blind_in_order (A : Type) (ps : list (PP.Parser (list A))) :
  Forall blind ps -> blind (PP.in_order ps).
Proof.
  induction 1 as [|p ps Hp _ IH]; intros s s' E; cbn [PP.in_order].
  - auto.
  - specialize (Hp s s' E).
    destruct (p s) as [[a r0]|], (p s') as [[a' r0']|]; try contradiction;
      [|exact I].
    destruct Hp as [<- Er]. specialize (IH _ _ Er).
    destruct (PP.in_order ps r0) as [[l r1]|],
             (PP.in_order ps r0') as [[l' r1']|]; try contradiction; [|exact I].
    destruct IH as [<- Er']. auto.
Qed.

Lemma blind_Each_Optional (A : Type) (es : list (PP.Parser (list A))) :
  Forall blind es -> blind (PP.Each_Optional es).
Proof.
  intros F s s' E. unfold PP.Each_Optional.
  set (exprs := (map (fun e => (false, e)) es ++
                 map (fun e => (true, PP.Optional e [])) es)%list).
  assert (Fe : Forall (fun e : PP.LoopExpr A => blind (snd e)) exprs).
  { apply Forall_app. split; apply Forall_forall; intros e He;
      apply in_map_iff in He; destruct He as (p & <- & Hp);
      rewrite Forall_forall in F; cbn [snd];
      [|apply blind_Optional]; now apply F. }
  destruct (blind_each_rounds _ (S (length exprs)) exprs Fe s s' E) as [I1 I2].
  destruct (PP.each_rounds (S (length exprs)) exprs s)
    as [[got remaining] r0] eqn:R.
  destruct (PP.each_rounds (S (length exprs)) exprs s')
    as [[got' remaining'] r0'].
  cbn [fst snd] in I1, I2. injection I1 as <- <-.
  pose proof (each_rounds_remaining _ _ _ _ Fe _ _ _ _ R) as Fr.
  assert (Fu : Forall blind
                 (map (fun e : PP.LoopExpr A => PP.Optional (snd e) [])
                      (filter (fun e => negb (fst e)) remaining))).
  { apply Forall_forall. intros p Hp. apply in_map_iff in Hp.
    destruct Hp as (e & <- & He). apply filter_In in He. destruct He as [He _].
    rewrite Forall_forall in Fr. apply blind_Optional. now apply Fr. }
  pose proof (blind_in_order _ _ Fu r0 r0' I2) as B.
  destruct (PP.in_order _ r0) as [[l r1]|], (PP.in_order _ r0') as [[l' r1']|];
    try contradiction; [|exact I].
  destruct B as [<- Er]. auto.
Qed.

Lemma blind_modifiers : blind eisen_grammar.modifiers.
Proof.
  unfold eisen_grammar.modifiers. apply blind_Each_Optional.
  constructor; [|constructor; [|constructor]].
  - apply blind_pbind; [exact blind_md_mod|]. intros [d succ]. apply blind_pret.
  - apply blind_pbind; [exact blind_w_mod|]. intros w. apply blind_pret.
Qed.

Lemma blind_rule : blind eisen_grammar.rule.
Proof.
  unfold eisen_grammar.rule.
  apply blind_pbind; [apply blind_tok|]. intros _.
  apply blind_pbind; [exact blind_rule_name|]. intros nm.
  apply blind_pbind; [exact blind_modifiers|]. intros ms.
  apply blind_pbind; [apply blind_tok|]. intros _.
  apply blind_pbind;
    [apply blind_OneOrMore; [exact blind_call | exact call_consuming]|].
  intros calls. apply blind_pbind; [apply blind_tok|]. intros _.
  apply blind_pret.
Qed.

Lemma blind_file_def : blind eisen_grammar.file_def.
Proof.
  unfold eisen_grammar.file_def, eisen_grammar.global_md, eisen_grammar.entry,
    eisen_grammar.main, eisen_grammar.md, PP.oneOf.
  apply blind_pbind.
  - apply blind_Optional. apply blind_pbind; [apply blind_tok|]. intros _.
    apply blind_pbind; [apply blind_tok|]. intros _. exact blind_fnum.
  - intros g. apply blind_pbind.
    + apply blind_pbind;
        [apply blind_OneOrMore; [exact blind_call | exact call_consuming]|].
      intros calls. apply blind_pret.
    + intros e. apply blind_pbind;
        [apply blind_OneOrMore; [exact blind_rule | exact rule_consuming]|].
      intros m. apply blind_pret.
Qed.

(** X11. What comes before the first token does not change the parse: two
    texts that are the same once the ignorable expressions (comments and
    the [set] lines of [set_ignore]) and the white space at their start are
    skipped give the same parse results, or both fail to parse. *)
Theorem leading_ignorables (s s' : string) :
  PP.skip s = PP.skip s' ->
  eisen_grammar.parseString s = eisen_grammar.parseString s'.
Proof.
  intros E. unfold eisen_grammar.parseString.
  pose proof (blind_file_def s s' E) as B.
  destruct (eisen_grammar.file_def s) as [[a r]|],
           (eisen_grammar.file_def s') as [[a' r']|]; try contradiction.
  - destruct B as [<- _]. reflexivity.
  - reflexivity.
Qed.

Lemma leading_ignorables_witness :
  eisen_grammar.parseString commented_text
  = eisen_grammar.parseString "foo rule foo { box }".
Proof.
  apply (leading_ignorables commented_text "foo rule foo { box }").
  vm_compute. reflexivity.
Defined.

(** ** The loops of the parser *)

Lemma file_def_consuming : consuming eisen_grammar.file_def.
Proof.
  unfold eisen_grammar.file_def.
  apply pbind_consuming_r.
  - apply Optional_shrinking. unfold eisen_grammar.global_md.
    apply pbind_shrinking;
      [apply consuming_shrinking, tok_consuming, CaselessKeyword_consuming|].
    intros _. apply pbind_shrinking;
      [now apply consuming_shrinking, oneOf_consuming|].
    intros _. apply consuming_shrinking, fnum_consuming.
  - intros g. apply pbind_consuming_l.
    + unfold eisen_grammar.entry. apply pbind_consuming_l.
      * apply OneOrMore_consuming, call_consuming.
      * intros calls. apply pret_shrinking.
    + intros e. apply pbind_shrinking.
      * apply consuming_shrinking, OneOrMore_consuming, rule_consuming.
      * intros m. apply pret_shrinking.
Qed.

(** X12. No loop of the parser can go on without end: every expression the
    grammar repeats ([fnum] in [tvalues], [trans] and [loop] under
    [ZeroOrMore], [call] and [rule] under [OneOrMore]) and both ignorable
    expressions use up at least one character each time they match. A text
    that parses is never empty: [file_def] uses up text too. *)
Theorem every_repetition_consumes :
  (consuming eisen_grammar.fnum /\ consuming eisen_grammar.trans /\
   consuming eisen_grammar.loop /\ consuming eisen_grammar.call /\
   consuming eisen_grammar.rule) /\
  (consuming PP.cppStyleComment /\ consuming PP.set_ignore) /\
  consuming eisen_grammar.file_def /\
  eisen_grammar.parseString "" = Raise ParseException.
Proof.
  split; [|split; [|split]].
  - repeat split.
    + exact fnum_consuming.
    + exact trans_consuming.
    + exact loop_consuming.
    + exact call_consuming.
    + exact rule_consuming.
  - split; [exact cppStyleComment_consuming | exact set_ignore_consuming].
  - exact file_def_consuming.
  - unfold eisen_grammar.parseString.
    destruct (eisen_grammar.file_def "") as [[results rest]|] eqn:F; [|reflexivity].
    apply file_def_consuming in F. simpl in F. lia.
Qed.

(** ** The files of [translate_eisen], the main block and [test_examples] *)

Lemma dict_get_set_same (d : list (string * string)) (k v : string) :
  dict_get (dict_set d k v) k = Some v.
Proof.
  induction d as [|[k' v'] d IH]; simpl.
  - now rewrite String.eqb_refl.
  - destruct (k' =? k) eqn:E; simpl; [now rewrite String.eqb_refl|].
    now rewrite E.
Qed.

Lemma dict_get_set_other (d : list (string * string)) (k v k' : string) :
  k' <> k -> dict_get (dict_set d k v) k' = dict_get d k'.
Proof.
  intros N. apply String.eqb_neq in N.
  assert (N' : (k =? k') = false) by (now rewrite String.eqb_sym).
  induction d as [|[k0 v0] d IH]; simpl.
  - now rewrite N'.
  - destruct (k0 =? k) eqn:E; simpl.
    + apply String.eqb_eq in E. subst k0. now rewrite N'.
    + now rewrite IH.
Qed.

Lemma dict_set_again (d : list (string * string)) (k v : string) :
  dict_set (dict_set d k v) k v = dict_set d k v.
Proof.
  induction d as [|[k' v'] d IH]; simpl.
  - now rewrite String.eqb_refl.
  - destruct (k' =? k) eqn:E; simpl; [now rewrite String.eqb_refl|].
    now rewrite E, IH.
Qed.

Lemma dict_set_keeps_keys (d : list (string * string)) (k v k' : string) :
  dict_get d k' <> None -> dict_get (dict_set d k v) k' <> None.
Proof.
  destruct (String.eqb_spec k' k) as [->|N].
  - rewrite dict_get_set_same. discriminate.
  - now rewrite dict_get_set_other.
Qed.

Lemma mem_slash_app (a b : string) :
  PP.mem "/" (a ++ b) = PP.mem "/" a || PP.mem "/" b.
Proof.
  induction a as [|c a IH]; [reflexivity|].
  cbn [append PP.mem]. rewrite IH. now rewrite orb_assoc.
Qed.

Lemma ends_with_slash_mem (a : string) :
  os_path.ends_with_slash a = true -> PP.mem "/" a = true.
Proof.
  induction a as [|c a IH]; [discriminate|].
  destruct a as [|d a].
  - cbn [PP.mem os_path.ends_with_slash]. intros H.
    rewrite Ascii.eqb_sym, H. reflexivity.
  - intros H. change (os_path.ends_with_slash (String d a) = true) in H.
    change (PP.mem "/" (String c (String d a)))
      with (Ascii.eqb "/" c || PP.mem "/" (String d a)).
    rewrite (IH H). apply orb_true_r.
Qed.

Lemma basename_no_slash (p : string) : PP.mem "/" (os_path.basename p) = false.
Proof.
  induction p as [|c p IH]; [reflexivity|].
  cbn [os_path.basename]. destruct (PP.mem "/" p) eqn:M; [exact IH|].
  destruct (Ascii.eqb c "/") eqn:E; [exact M|].
  cbn [PP.mem]. rewrite Ascii.eqb_sym, E, M. reflexivity.
Qed.

Lemma basename_after_slash (a b : string) :
  os_path.ends_with_slash a = true -> PP.mem "/" b = false ->
  os_path.basename (a ++ b) = b.
Proof.
  intros Ha Hb. induction a as [|c a IH]; [discriminate|].
  destruct a as [|d a].
  - cbn [os_path.ends_with_slash] in Ha.
    cbn [append os_path.basename]. now rewrite Hb, Ha.
  - change (os_path.ends_with_slash (String d a) = true) in Ha.
    specialize (IH Ha).
    change ((String c (String d a)) ++ b) with (String c (String d a ++ b)).
    cbn [os_path.basename]. fold os_path.basename.
    rewrite mem_slash_app, (ends_with_slash_mem _ Ha). exact IH.
Qed.

Lemma ends_with_slash_app (a : string) : os_path.ends_with_slash (a ++ "/") = true.
Proof.
  induction a as [|c a IH]; [reflexivity|].
  simpl. destruct (a ++ "/") eqn:E; [|exact IH].
  destruct a; discriminate.
Qed.

Lemma join_no_slash (a b : string) :
  PP.mem "/" b = false ->
  os_path.join a b
  = if negb (Py.truthy a) || os_path.ends_with_slash a then a ++ b
    else a ++ "/" ++ b.
Proof.
  destruct b as [|c b]; [reflexivity|].
  cbn [PP.mem]. intros H. apply orb_false_elim in H as [H _].
  destruct c as [[] [] [] [] [] [] [] []]; try reflexivity; discriminate.
Qed.

Lemma string_app_longer (a b : string) : b <> "" -> a ++ b <> a.
Proof.
  intros N E. apply (f_equal String.length) in E.
  rewrite string_length_app in E. destruct b; [congruence|]. simpl in E. lia.
Qed.

Lemma xml_filename_basename (es_filename xml_dir : string) :
  Py.truthy xml_dir = true ->
  os_path.basename (xml_filename_of es_filename xml_dir)
  = os_path.basename es_filename ++ ".xml".
Proof.
  intros T. unfold xml_filename_of. rewrite T.
  assert (N : PP.mem "/" (os_path.basename es_filename ++ ".xml") = false)
    by (rewrite mem_slash_app, basename_no_slash; reflexivity).
  rewrite (join_no_slash _ _ N), T. cbn [negb orb].
  destruct (os_path.ends_with_slash xml_dir) eqn:E.
  - now apply basename_after_slash.
  - rewrite <- string_app_assoc.
    apply basename_after_slash; [apply ends_with_slash_app | exact N].
Qed.

Lemma xml_filename_not_source (es_filename xml_dir : string) :
  xml_filename_of es_filename xml_dir <> es_filename.
Proof.
  destruct (Py.truthy xml_dir) eqn:T.
  - intros E. apply (f_equal os_path.basename) in E.
    rewrite (xml_filename_basename _ _ T) in E.
    now apply string_app_longer in E.
  - unfold xml_filename_of. rewrite T. now apply string_app_longer.
Qed.

(** *** Making the output directory *)

Lemma descending_longer (d d' : string) (up : list string) :
  (String.length d <= String.length d')%nat ->
  descending d up -> descending d' up.
Proof.
  destruct up as [|head up]; simpl; [trivial|].
  intros L [H D]. split; [lia | exact D].
Qed.

Lemma descending_In (up : list string) (d a : string) :
  descending d up -> In a up -> (String.length a < String.length d)%nat.
Proof.
  revert d. induction up as [|head up IH]; intros d D I; [destruct I|].
  destruct D as [L D]. destruct I as [<-|I]; [exact L|].
  specialize (IH _ D I). lia.
Qed.

Lemma ancestors_from_descending (path before : string) (found : list string) :
  descending before found ->
  descending (before ++ path) (ancestors_from before path found).
Proof.
  revert before found. induction path as [|c r IH]; intros before found D.
  - rewrite string_app_nil_r. exact D.
  - cbn [ancestors_from]. destruct (Ascii.eqb c "/") eqn:E.
    + apply Ascii.eqb_eq in E. subst c.
      replace (before ++ String "/" r) with ((before ++ "/") ++ r)
        by (rewrite string_app_assoc; reflexivity).
      apply IH. destruct before as [|b bs].
      * apply (descending_longer "" _ _ (Nat.le_0_l _) D).
      * split; [rewrite string_length_app; simpl; lia | exact D].
    + replace (before ++ String c r) with ((before ++ String c "") ++ r)
        by (rewrite string_app_assoc; reflexivity).
      apply IH. apply (descending_longer before); [|exact D].
      rewrite string_length_app. lia.
Qed.

Lemma ancestors_descending (d : string) : descending d (ancestors d).
Proof. exact (ancestors_from_descending d "" [] I). Qed.

Lemma ancestors_not_self (path : string) : ~ In path (ancestors path).
Proof.
  intros H. apply (descending_In _ _ _ (ancestors_descending path)) in H. lia.
Qed.

Lemma longer_neq (p d : string) :
  (String.length d < String.length p)%nat -> (p =? d) = false.
Proof.
  intros L. apply String.eqb_neq. intros ->. lia.
Qed.

Lemma mkdir_dirs (fs : FileSystem) (d : string) :
  (forall p, (p =? d) = false ->
             Py.str_in p (dirs (fst (mkdir fs d))) = Py.str_in p (dirs fs)) /\
  match snd (mkdir fs d) with
  | Return _ => Py.str_in d (dirs (fst (mkdir fs d))) = true
  | Raise _ => fst (mkdir fs d) = fs
  end.
Proof.
  unfold mkdir.
  destruct (os_path.exists_ fs d || blocked fs d || Py.str_in d (refused fs));
    cbn [fst snd dirs]; [auto|].
  unfold Py.str_in. cbn [existsb]. rewrite String.eqb_refl.
  split; [|reflexivity]. intros p N. now rewrite N.
Qed.

Lemma mkdir_raises (fs : FileSystem) (d : string) (e : PyError) :
  snd (mkdir fs d) = Raise e -> mkdir fs d = (fs, Raise e).
Proof.
  intros E. destruct (mkdir_dirs fs d) as [_ M]. rewrite E in M.
  rewrite (surjective_pairing (mkdir fs d)). now rewrite M, E.
Qed.

(** [os.makedirs] adds no path longer than the one it is to make; the
    path it is to make is a directory when it returns, and is what it was
    when it raises. *)
Lemma makedirs_from_dirs (up : list string) (fs : FileSystem) (d : string) :
  descending d up ->
  (forall p, (String.length d < String.length p)%nat ->
             Py.str_in p (dirs (fst (makedirs_from fs d up)))
             = Py.str_in p (dirs fs)) /\
  match snd (makedirs_from fs d up) with
  | Return _ => Py.str_in d (dirs (fst (makedirs_from fs d up))) = true
  | Raise _ => Py.str_in d (dirs (fst (makedirs_from fs d up)))
               = Py.str_in d (dirs fs)
  end.
Proof.
  revert fs d. induction up as [|head up IH]; intros fs d D;
    cbn [makedirs_from].
  - destruct (mkdir_dirs fs d) as [O M]. split.
    + intros p L. apply O. now apply longer_neq.
    + destruct (snd (mkdir fs d)); [exact M | now rewrite M].
  - destruct D as [L D].
    destruct (negb (os_path.exists_ fs head)).
    + destruct (IH fs head D) as [O _].
      destruct (makedirs_from fs head up) as [fs' [u|e]]; cbn [fst snd] in *.
      * destruct (mkdir_dirs fs' d) as [O' M]. split.
        -- intros p Lp. rewrite O' by (now apply longer_neq). apply O. lia.
        -- destruct (snd (mkdir fs' d)); [exact M|]. rewrite M. now apply O.
      * split; [|now apply O]. intros p Lp. apply O. lia.
    + destruct (mkdir_dirs fs d) as [O M]. split.
      * intros p Lp. apply O. now apply longer_neq.
      * destruct (snd (mkdir fs d)); [exact M | now rewrite M].
Qed.

Lemma exists_agree (fs fs' : FileSystem) (p : string) :
  Py.str_in p (dirs fs') = Py.str_in p (dirs fs) ->
  dict_get (files fs') p = dict_get (files fs) p ->
  os_path.exists_ fs' p = os_path.exists_ fs p.
Proof. unfold os_path.exists_. now intros -> ->. Qed.

Lemma makedirs_from_raises (up : list string) (fs : FileSystem) (d : string)
      (e : PyError) :
  descending d up ->
  snd (makedirs_from fs d up) = Raise e ->
  os_path.exists_ (fst (makedirs_from fs d up)) d = os_path.exists_ fs d.
Proof.
  intros D E. destruct (makedirs_from_dirs up fs d D) as [_ M].
  rewrite E in M. destruct (makedirs_from_keeps up fs d) as (F & _ & _).
  apply exists_agree; [exact M | now rewrite F].
Qed.

(** A call of [os.makedirs] that raised raises again, and makes nothing
    more, when it is repeated. *)
Lemma makedirs_from_again (up : list string) (fs : FileSystem) (d : string)
      (e : PyError) :
  descending d up ->
  snd (makedirs_from fs d up) = Raise e ->
  makedirs_from (fst (makedirs_from fs d up)) d up
  = (fst (makedirs_from fs d up), Raise e).
Proof.
  revert fs d e. induction up as [|head up IH]; intros fs d e D;
    cbn [makedirs_from].
  - intros E. rewrite (mkdir_raises _ _ _ E). cbn [fst]. now apply mkdir_raises.
  - destruct D as [L D].
    destruct (os_path.exists_ fs head) eqn:X; cbn [negb].
    + intros E. rewrite (mkdir_raises _ _ _ E). cbn [fst]. rewrite X. cbn [negb].
      now apply mkdir_raises.
    + pose proof (IH fs head) as A.
      pose proof (makedirs_from_raises up fs head) as R.
      destruct (makedirs_from_dirs up fs head D) as [_ M].
      destruct (makedirs_from fs head up) as [fs' [u|e']] eqn:H;
        cbn [fst snd] in *.
      * intros E. rewrite (mkdir_raises _ _ _ E). cbn [fst].
        assert (X' : os_path.exists_ fs' head = true)
          by (unfold os_path.exists_; now rewrite M).
        rewrite X'. cbn [negb]. now apply mkdir_raises.
      * intros E. injection E as ->.
        rewrite (R e D eq_refl), X. cbn [negb].
        now rewrite (A e D eq_refl).
Qed.

Lemma with_xml_dir_returns (fs : FileSystem) (xml_dir : string) (u : unit) :
  Py.truthy xml_dir = true ->
  snd (with_xml_dir fs xml_dir) = Return u ->
  os_path.exists_ (fst (with_xml_dir fs xml_dir)) xml_dir = true.
Proof.
  intros T. unfold with_xml_dir. rewrite T.
  destruct (os_path.exists_ fs xml_dir) eqn:X; cbn [negb fst snd]; [auto|].
  intros E.
  destruct (makedirs_from_dirs (ancestors xml_dir) fs xml_dir
              (ancestors_descending xml_dir)) as [_ M].
  unfold makedirs. unfold makedirs in E. rewrite E in M.
  unfold os_path.exists_. now rewrite M.
Qed.

(** The first lines of [translate_eisen] do again what they did, and
    nothing more, when they are run on what they left. *)
Lemma with_xml_dir_again (fs : FileSystem) (xml_dir : string) :
  with_xml_dir (fst (with_xml_dir fs xml_dir)) xml_dir = with_xml_dir fs xml_dir.
Proof.
  destruct (Py.truthy xml_dir) eqn:T;
    [|unfold with_xml_dir; rewrite T; reflexivity].
  destruct (snd (with_xml_dir fs xml_dir)) as [u|e] eqn:E.
  - pose proof (with_xml_dir_returns fs xml_dir u T E) as X.
    unfold with_xml_dir at 1. rewrite T, X. cbn [negb].
    rewrite (surjective_pairing (with_xml_dir fs xml_dir)), E.
    destruct u. reflexivity.
  - revert E. unfold with_xml_dir. rewrite T.
    destruct (os_path.exists_ fs xml_dir) eqn:X; cbn [negb fst snd];
      [discriminate|].
    unfold makedirs. intros E.
    rewrite (makedirs_from_raises _ _ _ _ (ancestors_descending xml_dir) E), X.
    cbn [negb].
    rewrite (makedirs_from_again _ _ _ _ (ancestors_descending xml_dir) E).
    rewrite (surjective_pairing (makedirs_from fs xml_dir (ancestors xml_dir))).
    now rewrite E.
Qed.


(** *** Opening the output file *)

Lemma is_file_set_other (fs : FileSystem) (path text a : string) :
  a <> path ->
  is_file (mkFS (dirs fs) (dict_set (files fs) path text) (refused fs)) a
  = is_file fs a.
Proof.
  intros N. unfold is_file. cbn [files]. now rewrite dict_get_set_other.
Qed.

Lemma blocked_agree (fs fs' : FileSystem) (path : string) :
  (forall a, In a (ancestors path) -> is_file fs' a = is_file fs a) ->
  blocked fs' path = blocked fs path.
Proof.
  unfold blocked. induction (ancestors path) as [|a l IH]; intros H;
    [reflexivity|].
  cbn [existsb]. rewrite (H a (or_introl eq_refl)).
  rewrite IH; [reflexivity|]. intros b I. apply H. now right.
Qed.

Lemma write_file_writable (fs : FileSystem) (path text : string) :
  write_file fs path text
  = if writable fs path
    then Return (mkFS (dirs fs) (dict_set (files fs) path text) (refused fs))
    else Raise IOError.
Proof.
  unfold write_file, writable.
  destruct (Py.str_in path (dirs fs) || blocked fs path ||
            Py.str_in path (refused fs)); reflexivity.
Qed.

(** A file that was written can be written again. *)
Lemma writable_after (fs : FileSystem) (path text : string) :
  writable (mkFS (dirs fs) (dict_set (files fs) path text) (refused fs)) path
  = writable fs path.
Proof.
  unfold writable. cbn [dirs refused]. f_equal. f_equal. f_equal.
  apply blocked_agree. intros a I. apply is_file_set_other.
  intros ->. now apply ancestors_not_self in I.
Qed.

Lemma exists_after_write (fs : FileSystem) (path text p : string) :
  os_path.exists_ fs p = true ->
  os_path.exists_ (mkFS (dirs fs) (dict_set (files fs) path text) (refused fs)) p
  = true.
Proof.
  unfold os_path.exists_. cbn [dirs files]. intros H.
  apply orb_true_iff in H. apply orb_true_iff. destruct H as [H|H]; [now left|].
  right. pose proof (dict_set_keeps_keys (files fs) path text p) as K.
  destruct (dict_get (files fs) p); [|discriminate].
  destruct (dict_get (dict_set (files fs) path text) p); [reflexivity|].
  exfalso. apply K; [discriminate|reflexivity].
Qed.

(** *** One call of [translate_eisen] *)


Lemma translate_eisen_cases (prettify : Element -> string)
      (es_filename xml_dir : string) (fs : FileSystem) :
  translate_eisen prettify es_filename xml_dir fs
  = match with_xml_dir fs xml_dir with
    | (fs1, Raise e) => (fs1, Raise IOError)
    | (fs1, Return _) =>
        match translation fs es_filename with
        | Some xml =>
            if writable fs1 (xml_filename_of es_filename xml_dir)
            then (mkFS (dirs fs1)
                       (dict_set (files fs) (xml_filename_of es_filename xml_dir)
                                 (prettify xml))
                       (refused fs1), Return tt)
            else (fs1, Raise IOError)
        | None =>
            (fs1, Raise match dict_get (files fs) es_filename with
                        | None => IOError
                        | Some _ => ParseException
                        end)
        end
    end.
Proof.
  unfold translate_eisen, translation.
  destruct (with_xml_dir_keeps fs xml_dir) as (F & _ & O).
  destruct (with_xml_dir fs xml_dir) as [fs1 [u|e]]; cbn [fst snd] in F, O;
    [|now rewrite (O e eq_refl)].
  rewrite F. destruct (dict_get (files fs) es_filename) as [text|]; [|reflexivity].
  destruct (eisen_grammar.parseString text) as [results|e] eqn:P;
    [|now rewrite (parseString_raises _ _ P)].
  destruct (es_xml2_total _ _ P) as [xml ->].
  rewrite write_file_writable, F.
  destruct (writable fs1 (xml_filename_of es_filename xml_dir)); reflexivity.
Qed.

Lemma translate_eisen_files (prettify : Element -> string)
      (es_filename xml_dir : string) (fs : FileSystem) :
  files (fst (translate_eisen prettify es_filename xml_dir fs)) = files fs \/
  exists text,
    files (fst (translate_eisen prettify es_filename xml_dir fs))
    = dict_set (files fs) (xml_filename_of es_filename xml_dir) text.
Proof.
  rewrite translate_eisen_cases.
  destruct (with_xml_dir_keeps fs xml_dir) as (F & _ & _).
  destruct (with_xml_dir fs xml_dir) as [fs1 [u|e]]; cbn [fst] in F; [|now left].
  destruct (translation fs es_filename) as [xml|]; [|now left].
  destruct (writable fs1 (xml_filename_of es_filename xml_dir)); [|now left].
  right. now exists (prettify xml).
Qed.

Lemma translate_eisen_other_path
      (prettify : Element -> string) (es_filename xml_dir : string)
      (fs : FileSystem) (path : string) :
  path <> xml_filename_of es_filename xml_dir ->
  dict_get (files (fst (translate_eisen prettify es_filename xml_dir fs))) path
  = dict_get (files fs) path.
Proof.
  intros N.
  destruct (translate_eisen_files prettify es_filename xml_dir fs)
    as [-> | [text ->]]; [reflexivity|].
  now apply dict_get_set_other.
Qed.

(** X13. [translate_eisen] leaves the source file as it is, also when the
    output directory is the directory of the source, and it changes no
    file but the one it writes. *)
Theorem translate_eisen_keeps_other_files
        (prettify : Element -> string) (es_filename xml_dir : string)
        (fs : FileSystem) (path : string) :
  path = es_filename \/ path <> xml_filename_of es_filename xml_dir ->
  dict_get (files (fst (translate_eisen prettify es_filename xml_dir fs))) path
  = dict_get (files fs) path.
Proof.
  intros H. apply translate_eisen_other_path.
  destruct H as [->|H]; [|exact H].
  intros E. symmetry in E. revert E. apply xml_filename_not_source.
Qed.

Lemma translate_eisen_keeps_other_files_witness :
  dict_get (files (fst (translate_eisen (fun _ => "<rules/>") "d/a.es" "d"
                          (mkFS ["d"] [("d/a.es", "a rule a { box }")] []))))
           "d/a.es"
  = Some "a rule a { box }".
Proof.
  exact (translate_eisen_keeps_other_files (fun _ => "<rules/>") "d/a.es" "d"
           (mkFS ["d"] [("d/a.es", "a rule a { box }")] []) "d/a.es"
           (or_introl eq_refl)).
Defined.

Lemma translation_agree (fs0 fs : FileSystem) (name : string) :
  dict_get (files fs) name = dict_get (files fs0) name ->
  translation fs name = translation fs0 name.
Proof. unfold translation. now intros ->. Qed.

(** The output directory is still found after the output is written. *)
Lemma with_xml_dir_after_write (fs : FileSystem) (xml_dir path text : string)
      (u : unit) :
  with_xml_dir fs xml_dir = (fs, Return u) ->
  with_xml_dir (mkFS (dirs fs) (dict_set (files fs) path text) (refused fs))
               xml_dir
  = (mkFS (dirs fs) (dict_set (files fs) path text) (refused fs), Return u).
Proof.
  intros W. destruct u.
  destruct (Py.truthy xml_dir) eqn:T;
    [|unfold with_xml_dir; rewrite T; reflexivity].
  pose proof (with_xml_dir_returns fs xml_dir tt T) as X.
  rewrite W in X. cbn [fst snd] in X. specialize (X eq_refl).
  unfold with_xml_dir. rewrite T, (exists_after_write _ _ _ _ X). reflexivity.
Qed.

(** X14. Translating a file a second time changes nothing: the call ends as
    the first one did and leaves the directories and the files as the first
    one left them. *)
Theorem translate_eisen_again
        (prettify : Element -> string) (es_filename xml_dir : string)
        (fs : FileSystem) :
  translate_eisen prettify es_filename xml_dir
                  (fst (translate_eisen prettify es_filename xml_dir fs))
  = translate_eisen prettify es_filename xml_dir fs.
Proof.
  assert (N : es_filename <> xml_filename_of es_filename xml_dir).
  { intros E. symmetry in E. revert E. apply xml_filename_not_source. }
  pose proof (with_xml_dir_again fs xml_dir) as A.
  destruct (with_xml_dir_keeps fs xml_dir) as (F & _ & _).
  rewrite (translate_eisen_cases prettify es_filename xml_dir fs).
  destruct (with_xml_dir fs xml_dir) as [fs1 [u|e]] eqn:W; cbn [fst] in A, F.
  - assert (Tr : translation fs1 es_filename = translation fs es_filename)
      by (apply translation_agree; now rewrite F).
    destruct (translation fs es_filename) as [xml|] eqn:X.
    + destruct (writable fs1 (xml_filename_of es_filename xml_dir)) eqn:Wr;
        cbn [fst].
      * rewrite translate_eisen_cases. rewrite <- F.
        rewrite (with_xml_dir_after_write _ _ _ _ _ A).
        rewrite (translation_agree fs1) by (cbn [files]; now apply dict_get_set_other).
        rewrite Tr, writable_after, Wr. cbn [dirs files refused].
        now rewrite dict_set_again.
      * rewrite translate_eisen_cases, A, Tr, Wr. reflexivity.
    + cbn [fst]. rewrite translate_eisen_cases, A, Tr, F. reflexivity.
  - cbn [fst]. rewrite translate_eisen_cases, A. reflexivity.
Qed.






Lemma example_out_path (name : string) :
  xml_filename_of name Examples.xml_dir
  = "./xml_translate/" ++ os_path.basename name ++ ".xml".
Proof.
  unfold xml_filename_of.
  change Examples.xml_dir with "./xml_translate". cbn [Py.truthy].
  rewrite join_no_slash
    by (rewrite mem_slash_app, basename_no_slash; reflexivity).
  reflexivity.
Qed.

Lemma out_path_not_example (name : string) :
  is_example (xml_filename_of name Examples.xml_dir) = false.
Proof. rewrite example_out_path. reflexivity. Qed.


(** *** The loop of [test_examples] *)















